(** * Hybrid retrieval core of the knowledge-base kit

  A shallow embedding of
    - [backend/src/core/bm25_index.py]               (tokenizer, lexical index),
    - [backend/src/core/retrievers/enhanced_hybrid_retriever.py] (weighted RRF),
    - [backend/src/core/query_engine.py]             (fan-out, merge, filter),
    - [backend/src/core/retrievers/retriever_factory.py] (retriever set-up),
    - [backend/src/api/v1/rag/query.py]              (search endpoint),
  together with the properties the specification states about them and
  further properties the code shows.

  Conventions.
    - A Python [str] that is scanned character by character is a
      [list ascii]; one [ascii] is one code point of the range
      U+0000..U+00FF (Latin-1), the range in which the sigil U+00A7
      lives and on which [str.lower] maps one code point to one code
      point.  Identifiers and collection names are [string]s.
    - A Python [float] score is the rational [Q] it denotes; comparisons
      are [Qle]/[Qlt], equality of scores is [Qeq].  Float operations are
      read as the exact operations, except in [FusionFloat], where every
      operation is followed by the rounding to a float: that module serves
      the properties that depend on the order of nearly equal scores.
    - A Python [int] that may be negative ([k], [top_k], [n_results]) is
      a [Z]; positions and ranks are [nat].
    - A call that may raise returns an [Outcome]. *)

From Stdlib Require Import QArith ZArith List String Ascii Bool Lia Lqa Permutation Sorted
  DecimalString.
From stdpp Require Import gmap strings list.
Import ListNotations.

Local Open Scope Z_scope.
Local Open Scope nat_scope.

Set Warnings "-clear-no-such-hyp".

(* ===================================================================== *)
(** ** Python primitives shared by the source files                       *)
(* ===================================================================== *)

Module Py.

(** Modelled from the spec: the exception classes of [src.core.exceptions],
    which the engine and the factory import but which is not among the
    sources, after the taxonomy of the error-handling section
    (CollectionNotFound, EmptyCollection, RetrievalFailure), next to the
    built-in exceptions the modelled statements can raise.  All of them
    derive from [Exception]; no class is taken to derive from another. *)
Inductive exn : Type :=
| ZeroDivisionError
| IndexError
| RuntimeError
| ValueError
| CollectionNotFoundError
| EmptyCollectionError
| RetrievalError
| OtherException.

(** Result of a call: a value, or a raised exception. *)
Inductive Outcome (A : Type) : Type :=
| Returned (a : A)
| Raised (e : exn).
Arguments Returned {A} a.
Arguments Raised {A} e.

Definition bind {A B} (o : Outcome A) (f : A -> Outcome B) : Outcome B :=
  match o with
  | Returned a => f a
  | Raised e => Raised e
  end.

(** [l[:n]] for any Python integer [n]: a negative bound counts from
    the end of the list. *)
Definition slice_to {A} (l : list A) (n : Z) : list A :=
  if (0 <=? n)%Z then firstn (Z.to_nat n) l
  else firstn (length l - Z.to_nat (- n)) l.

(** [len(l) >= k] for a Python integer [k]. *)
Definition len_ge {A} (l : list A) (k : Z) : bool :=
  (k <=? Z.of_nat (length l))%Z.

(** Keys of an insertion-ordered [dict]: each key once, in the order
    of its first occurrence. *)
Definition first_seen_from {K} `{EqDecision K} (acc l : list K) : list K :=
  fold_left (fun acc k => if bool_decide (k ∈ acc) then acc else acc ++ [k]) l acc.

Definition first_seen {K} `{EqDecision K} (l : list K) : list K :=
  first_seen_from [] l.

(** Position of a key in a list of keys ([length] when absent). *)
Fixpoint position (key : string) (keys : list string) : nat :=
  match keys with
  | [] => 0
  | k' :: t => if String.eqb key k' then 0 else S (position key t)
  end.

(** [sorted(l, key=key, reverse=True)] and [l.sort(key=key, reverse=True)]:
    descending in the key, elements with equal keys kept in their original
    order (Python's sort is stable, also under [reverse=True]).  [insert_desc]
    puts [x], which stood before every element of [l], in front of the first
    element whose key is not larger than its own. *)
Fixpoint insert_desc {A} (key : A -> Q) (x : A) (l : list A) : list A :=
  match l with
  | [] => [x]
  | y :: t => if Qle_bool (key y) (key x) then x :: y :: t
              else y :: insert_desc key x t
  end.

Definition sorted_desc {A} (key : A -> Q) (l : list A) : list A :=
  fold_right (insert_desc key) [] l.

(** What stability means: [a] may stand before [b] in the sorted list
    when its key is larger, or equal with [a] earlier in the input ([pos]
    is the position in the input). *)
Definition before {A} (key : A -> Q) (pos : A -> nat) (a b : A) : Prop :=
  (key b < key a)%Q \/ ((key a == key b)%Q /\ pos a < pos b).

End Py.
Export Py.

(** [x ← c; k] sequences two calls and propagates a raised exception. *)
Global Instance outcome_bind : MBind Outcome := fun _ _ f o => Py.bind o f.
Global Instance outcome_ret : MRet Outcome := fun _ a => Returned a.

(* ===================================================================== *)
(** ** bm25_index.py : [_tokenize_text]                                   *)
(* ===================================================================== *)

Module Tokenizer.

(** A Python [str], as its sequence of code points. *)
Abbreviation str := (list ascii).

Definition code (c : ascii) : N := N_of_ascii c.

Definition between (lo hi : N) (c : ascii) : bool :=
  ((lo <=? code c) && (code c <=? hi))%N.

(** The section sign, U+00A7. *)
Definition sigil : ascii := ascii_of_N 167.
Definition is_sigil (c : ascii) : bool := (code c =? 167)%N.

(** *** Character classes of [re] and [str] on U+0000..U+00FF *)

(** [\d] : decimal digits (Unicode category Nd). *)
Definition re_d (c : ascii) : bool := between 48 57 c.

(** [\s] : Unicode white space. *)
Definition re_s (c : ascii) : bool :=
  between 9 13 c || between 28 32 c || (code c =? 133)%N || (code c =? 160)%N.

(** Alphabetic code points. *)
Definition is_alpha (c : ascii) : bool :=
  between 65 90 c || between 97 122 c
  || (code c =? 170)%N || (code c =? 181)%N || (code c =? 186)%N
  || between 192 214 c || between 216 246 c || between 248 255 c.

(** Numeric code points: decimal digits, superscript digits, vulgar
    fractions. *)
Definition is_numeric (c : ascii) : bool :=
  between 48 57 c || between 178 179 c || (code c =? 185)%N || between 188 190 c.

(** [\w] : alphanumeric or underscore. *)
Definition re_w (c : ascii) : bool :=
  is_alpha c || is_numeric c || (code c =? 95)%N.

(** One character of [str.isdigit]: decimal and superscript digits. *)
Definition isdigit_char (c : ascii) : bool :=
  between 48 57 c || between 178 179 c || (code c =? 185)%N.

(** [str.isdigit()] : non-empty and every character a digit. *)
Definition isdigit (s : str) : bool :=
  match s with
  | [] => false
  | _ => forallb isdigit_char s
  end.

(** [str.lower()] on one code point. *)
Definition lower_char (c : ascii) : ascii :=
  if between 65 90 c || between 192 214 c || between 216 222 c
  then ascii_of_N (code c + 32)
  else c.

Definition lower (text : str) : str := map lower_char text.

(** *** Leftmost, non-overlapping scanning, as [re.sub] and [re.findall]
    do it.  [m s] tries the pattern at the head of [s] and answers what
    is emitted for the match and how many characters it consumed;
    [u c] is what is emitted for a character no match starts at.  [skip]
    counts the characters still covered by the previous match. *)
Fixpoint re_scan {B} (m : str -> option (list B * nat)) (u : ascii -> list B)
         (skip : nat) (s : str) : list B :=
  match s with
  | [] => []
  | c :: rest =>
      match skip with
      | S k => re_scan m u k rest
      | O =>
          match m s with
          | Some (out, len) => out ++ re_scan m u (len - 1) rest
          | None => u c ++ re_scan m u 0 rest
          end
      end
  end.

(** Longest prefix of [s] in a character class (a greedy [c+] or [c*]). *)
Fixpoint span (p : ascii -> bool) (s : str) : str :=
  match s with
  | c :: rest => if p c then c :: span p rest else []
  | [] => []
  end.

(** [§\s+(\d+)] at the head of [s].  The classes [\s] and [\d] are
    disjoint, so the greedy [\s+] never has to give a character back. *)
Definition match_sigil_ws_digits (s : str) : option (str * nat) :=
  match s with
  | c :: rest =>
      if is_sigil c then
        let ws := span re_s rest in
        let ds := span re_d (skipn (length ws) rest) in
        match ws, ds with
        | _ :: _, _ :: _ => Some (sigil :: ds, 1 + length ws + length ds)
        | _, _ => None
        end
      else None
  | [] => None
  end.

(** [re.sub(r'§\s+(\d+)', r'§\1', text)] *)
Definition join_sigil (text : str) : str :=
  re_scan match_sigil_ws_digits (fun c => [c]) 0 text.

(** [§\d+] at the head of [s]. *)
Definition match_sigil_digits (s : str) : option str :=
  match s with
  | c :: rest =>
      if is_sigil c then
        match span re_d rest with
        | [] => None
        | ds => Some (c :: ds)
        end
      else None
  | [] => None
  end.

(** [[\w]+] at the head of [s]. *)
Definition match_word (s : str) : option str :=
  match span re_w s with
  | [] => None
  | w => Some w
  end.

(** [§\d+|[\w]+] : the first alternative that matches wins. *)
Definition match_token (s : str) : option (list str * nat) :=
  match match_sigil_digits s with
  | Some t => Some ([t], length t)
  | None =>
      match match_word s with
      | Some t => Some ([t], length t)
      | None => None
      end
  end.

(** [re.findall(r'§\d+|[\w]+', text)] *)
Definition raw_tokens (text : str) : list str :=
  re_scan match_token (fun _ => []) 0 text.

Definition zero : ascii := ascii_of_N 48.

(** Body of [for token in raw_tokens]: what one raw token appends. *)
Definition expand_token (token : str) : list str :=
  token ::
    match token with
    | c :: number =>
        if is_sigil c then                         (* token.startswith('§') *)
          if isdigit number then [number] else []
        else if isdigit token && (1 <? length token) then
          map (fun digit => [digit])
              (List.filter (fun digit => negb (code digit =? code zero)%N
                                       || (length token =? 1)) token)
        else []
    | [] => []
    end.

Definition _tokenize_text (text : str) : list str :=
  flat_map expand_token (raw_tokens (join_sigil (lower text))).

(** *** Vocabulary for the properties *)

(** [s] does not continue a run of class [p]. *)
Definition stops (p : ascii -> bool) (s : str) : Prop :=
  match s with
  | [] => True
  | c :: _ => p c = false
  end.

(** A match of [m] that starts before [T] ends before [T]. *)
Definition ends_before {B} (m : str -> option (list B * nat)) (T : str) : Prop :=
  forall a A out len, m (a :: A ++ T) = Some (out, len) -> len <= S (length A).

(** ASCII literals for examples. *)
Definition lit (s : string) : str := list_ascii_of_string s.

(** The two shapes a token can have: the sigil followed by one or more
    decimal digits, or one or more word characters. *)
Definition sigil_token (tok : str) : bool :=
  match tok with
  | c :: d :: ds => is_sigil c && forallb re_d (d :: ds)
  | _ => false
  end.

Definition word_token (tok : str) : bool :=
  match tok with
  | [] => false
  | _ => forallb re_w tok
  end.

(** [str.lower] leaves [c] as it is. *)
Definition lowered (c : ascii) : bool := (code (lower_char c) =? code c)%N.

Definition is_lowered (c : ascii) : Prop := lowered c = true.

(** What holds of every emitted token. *)
Definition token_ok (tok : str) : Prop :=
  (sigil_token tok || word_token tok) = true /\ Forall is_lowered tok.

(** A match of [m] started before [T] does not look past the head of [T]. *)
Definition blind_past {B} (m : str -> option (list B * nat)) (T1 T2 : str) : Prop :=
  forall a A, m (a :: A ++ T1) = m (a :: A ++ T2).

End Tokenizer.


(* ===================================================================== *)
(** ** bm25_index.py : [BM25IndexManager]                                 *)
(* ===================================================================== *)

Module BM25.
Import Tokenizer.

(** [llama_index] [TextNode], with the attributes the index reads. *)
Record TextNode : Type := {
  id_ : string;
  text : str;
  metadata : list (string * string)
}.

(** The manager's attributes.  [BM25Okapi(corpus_tokens)] belongs to an
    external library and is represented by the token corpus it was built
    from. *)
Record BM25IndexManager : Type := {
  bm25_index : option (list (list str));
  nodes : list TextNode;
  node_id_map : gmap string nat
}.

(** The pickle file at [index_path]. *)
Inductive IndexFile : Type :=
| Absent
| Unreadable
| Pickled (data : BM25IndexManager).

Definition exists_ (file : IndexFile) : bool :=
  match file with
  | Absent => false
  | _ => true
  end.

Definition empty_manager : BM25IndexManager :=
  {| bm25_index := None; nodes := []; node_id_map := ∅ |}.

(** [load]: a file that cannot be unpickled is logged and leaves the
    attributes as they are. *)
Definition load (file : IndexFile) (self : BM25IndexManager) : BM25IndexManager :=
  match file with
  | Pickled data => data
  | _ => self
  end.

(** [save]: a failed write is logged only; the old file is then taken to
    be still in place. *)
Definition save (io_ok : bool) (self : BM25IndexManager) (file : IndexFile) : IndexFile :=
  if io_ok then Pickled self else file.

(** Body of [for node in new_nodes].  [self.nodes[idx] = node] raises
    [IndexError] when [idx] is out of range. *)
Definition upsert (self : BM25IndexManager) (node : TextNode) : Outcome BM25IndexManager :=
  match node_id_map self !! id_ node with
  | None =>
      let nodes' := nodes self ++ [node] in
      Returned {| bm25_index := bm25_index self;
                  nodes := nodes';
                  node_id_map := <[id_ node := length nodes' - 1]> (node_id_map self) |}
  | Some idx =>
      if idx <? length (nodes self) then
        Returned {| bm25_index := bm25_index self;
                    nodes := <[idx := node]> (nodes self);
                    node_id_map := node_id_map self |}
      else Raised IndexError
  end.

Fixpoint upsert_all (self : BM25IndexManager) (new_nodes : list TextNode)
  : Outcome BM25IndexManager :=
  match new_nodes with
  | [] => Returned self
  | node :: rest => self' ← upsert self node; upsert_all self' rest
  end.

(** No document of the corpus holds a token (the corpus may be empty). *)
Definition tokenless (corpus_tokens : list (list str)) : bool :=
  forallb (fun document => match document with
                           | [] => true
                           | _ => false
                           end) corpus_tokens.

(** [BM25Okapi(corpus_tokens)] of the [rank_bm25] package, represented by
    its corpus.  The constructor divides the token count by the number of
    documents and the sum of the inverse document frequencies by the
    number of distinct tokens: a corpus without any token, the empty
    corpus included, raises [ZeroDivisionError]. *)
Definition bm25_okapi (corpus_tokens : list (list str)) : Outcome (list (list str)) :=
  if tokenless corpus_tokens then Raised ZeroDivisionError
  else Returned corpus_tokens.

(** The token lists the scoring structure is built from. *)
Definition corpus_of (self : BM25IndexManager) : list (list str) :=
  map (fun node => _tokenize_text (text node)) (nodes self).

(** [corpus_tokens = [...]; self.bm25_index = BM25Okapi(corpus_tokens)] *)
Definition rebuild (self : BM25IndexManager) : Outcome BM25IndexManager :=
  let corpus_tokens := corpus_of self in
  index ← bm25_okapi corpus_tokens;
  Returned {| bm25_index := Some index;
              nodes := nodes self;
              node_id_map := node_id_map self |}.

(** The state the upsert loop starts from: the file is loaded when no
    index is in memory yet and a file exists. *)
Definition loaded (file : IndexFile) (self : BM25IndexManager) : BM25IndexManager :=
  match bm25_index self with
  | None => if exists_ file then load file self else self
  | Some _ => self
  end.

Definition add_nodes (io_ok : bool) (file : IndexFile) (self : BM25IndexManager)
           (new_nodes : list TextNode) : Outcome (BM25IndexManager * IndexFile) :=
  match new_nodes with
  | [] => Returned (self, file)
  | _ =>
      self1 ← upsert_all (loaded file self) new_nodes;
      self2 ← rebuild self1;
      Returned (self2, save io_ok self2 file)
  end.

(** The identifier map and the node list describe the same corpus: an
    identifier is mapped to a position exactly when the node at that
    position carries it. *)
Definition consistent (self : BM25IndexManager) : Prop :=
  forall (i : string) (idx : nat),
    node_id_map self !! i = Some idx <->
    (exists node, nodes self !! idx = Some node /\ id_ node = i).

(** *** [update_with_chroma_results] *)

(** What [chroma_collection.get(include=['documents', 'metadatas'])]
    answers when it has an ['ids'] entry: three lists, read by index. *)
Record GetResult : Type := {
  ids : list string;
  documents : list str;
  metadatas : list (list (string * string))
}.

(** [results['documents'][i] if i < len(results['documents']) else ""] *)
Definition document_at (results : GetResult) (i : nat) : str :=
  match documents results !! i with
  | Some text => text
  | None => []
  end.

(** [results['metadatas'][i] if i < len(results['metadatas']) else {}] *)
Definition metadata_at (results : GetResult) (i : nat) : list (string * string) :=
  match metadatas results !! i with
  | Some md => md
  | None => []
  end.

(** [not text.strip()] : nothing but white space. *)
Definition is_blank (text : str) : bool := forallb re_s text.

Definition node_at (results : GetResult) (i : nat) (doc_id : string) : TextNode :=
  {| id_ := doc_id; text := document_at results i; metadata := metadata_at results i |}.

(** Body of [for i, doc_id in enumerate(results['ids'])]. *)
Definition sync_step (results : GetResult) (i : nat) (doc_id : string)
           (self : BM25IndexManager) : BM25IndexManager :=
  if is_blank (document_at results i) then self
  else
    let nodes' := nodes self ++ [node_at results i doc_id] in
    {| bm25_index := bm25_index self;
       nodes := nodes';
       node_id_map := <[doc_id := length nodes' - 1]> (node_id_map self) |}.

Fixpoint sync_loop (results : GetResult) (i : nat) (doc_ids : list string)
         (self : BM25IndexManager) : BM25IndexManager :=
  match doc_ids with
  | [] => self
  | doc_id :: rest => sync_loop results (S i) rest (sync_step results i doc_id self)
  end.

(** [update_with_chroma_results]; [got] is the outcome of the [get] call,
    [None] standing for an answer that is empty or has no ['ids'].  An
    exception is logged and raised again. *)
Definition update_with_chroma_results (io_ok : bool) (file : IndexFile)
           (self : BM25IndexManager) (got : Outcome (option GetResult))
  : Outcome (BM25IndexManager * IndexFile) :=
  match got with
  | Raised e => Raised e
  | Returned None => Returned (self, file)
  | Returned (Some results) =>
      let cleared := {| bm25_index := bm25_index self; nodes := []; node_id_map := ∅ |} in
      let self1 := sync_loop results 0 (ids results) cleared in
      let corpus_tokens := map (fun node => _tokenize_text (text node)) (nodes self1) in
      index ← bm25_okapi corpus_tokens;
      let self2 := {| bm25_index := Some index;
                      nodes := nodes self1;
                      node_id_map := node_id_map self1 |} in
      Returned (self2, save io_ok self2 file)
  end.

(** The nodes the loop appends for the identifiers [doc_ids], the first
    of which stands at index [i]. *)
Fixpoint fresh_nodes (results : GetResult) (i : nat) (doc_ids : list string)
  : list TextNode :=
  match doc_ids with
  | [] => []
  | doc_id :: rest =>
      (if is_blank (document_at results i) then [] else [node_at results i doc_id])
      ++ fresh_nodes results (S i) rest
  end.

(** The last chunk of [new_nodes] that carries the identifier [i]. *)
Fixpoint last_with (i : string) (new_nodes : list TextNode) : option TextNode :=
  match new_nodes with
  | [] => None
  | node :: rest =>
      match last_with i rest with
      | Some later => Some later
      | None => if String.eqb (id_ node) i then Some node else None
      end
  end.

(** *** Sample data *)

Definition doc (i : string) (t : string) : TextNode :=
  {| id_ := i; text := lit t; metadata := [] |}.

Definition two_docs : BM25IndexManager :=
  {| bm25_index := Some [[lit "alpha"]; [lit "beta"]];
     nodes := [doc "a" "alpha"; doc "b" "beta"];
     node_id_map := <["a" := 0]> (<["b" := 1]> ∅) |}.

(** [two_docs] after the chunk of ["b"] was replaced and ["c"] added. *)
Definition three_docs : BM25IndexManager :=
  {| bm25_index := Some [[lit "alpha"]; [lit "gamma"]; [lit "delta"]];
     nodes := [doc "a" "alpha"; doc "b" "gamma"; doc "c" "delta"];
     node_id_map := <["c" := 2]> (<["a" := 0]> (<["b" := 1]> ∅)) |}.

(** A store with three documents, the second of them blank. *)
Definition three_stored : GetResult :=
  {| ids := ["x"; "y"; "z"]%string;
     documents := [lit "erste"; lit "  "; lit "dritte"];
     metadatas := [[]; []; []] |}.

End BM25.

(* ===================================================================== *)
(** ** enhanced_hybrid_retriever.py : [EnhancedHybridRetriever]           *)
(* ===================================================================== *)

Module Fusion.
Import Tokenizer.

(** One entry of [retriever_contributions]. *)
Record Contribution : Type := {
  original_score : Q;
  rank : nat;
  contribution : Q
}.

(** A node as the fusion code sees it: [node_id] may be missing, the
    metadata keys the code writes are [rrf_score] and
    [retriever_contributions] (keyed by the retriever index [i] of
    ['ranker_i']). *)
Record Node : Type := {
  node_id : option string;
  node_text : str;
  rrf_score : option Q;
  retriever_contributions : option (gmap nat Contribution)
}.

Record NodeWithScore : Type := {
  node : Node;
  score : Q
}.

(** A value of the [fused_scores] dict. *)
Record Entry : Type := {
  e_node : Node;
  e_score : Q;
  e_contributions : gmap nat Contribution
}.

(** The [fused_scores] dict: keys in insertion order. *)
Abbreviation FusedScores := (list (string * Entry)).

Fixpoint has_key (k : string) (d : FusedScores) : bool :=
  match d with
  | [] => false
  | (k', _) :: t => if String.eqb k k' then true else has_key k t
  end.

(** [d[k] = f(d[k])] for a key that is present. *)
Fixpoint update (k : string) (f : Entry -> Entry) (d : FusedScores) : FusedScores :=
  match d with
  | [] => []
  | (k', e) :: t => if String.eqb k k' then (k', f e) :: t
                    else (k', e) :: update k f t
  end.

Fixpoint get (k : string) (d : FusedScores) : option Entry :=
  match d with
  | [] => None
  | (k', e) :: t => if String.eqb k k' then Some e else get k t
  end.

(** The attributes of the retriever; the sub-retrievers themselves are
    collaborators and appear through the outcome of their invocation. *)
Record EnhancedHybridRetriever : Type := {
  weights : list Q;
  k : Z;
  top_k : Z
}.

(** [__init__], for [n] sub-retrievers: [weights or [1.0] * n], and a
    [ValueError] when the lengths differ. *)
Definition init (n : nat) (weights_arg : option (list Q)) (k_arg top_k_arg : Z)
  : Outcome EnhancedHybridRetriever :=
  let ws := match weights_arg with
            | Some (w :: ws') => w :: ws'
            | _ => repeat 1%Q n
            end in
  if length ws =? n then Returned {| weights := ws; k := k_arg; top_k := top_k_arg |}
  else Raised ValueError.

Section WithHash.

(** [hashlib.md5(content.encode()).hexdigest()] *)
Variable md5_hexdigest : str -> string.

(** The identity of a logical item. *)
Definition node_key (n : Node) : string :=
  match node_id n with
  | Some i => i
  | None => md5_hexdigest (node_text n)
  end.

(** Body of [for rank, node_with_score in enumerate(results)].
    [1.0 / (rank + self.k)] raises when the divisor is zero.  The float
    operations are read as exact here; [FusionFloat.fuse_one] is the same
    body with every operation rounded, and agrees with this one when the
    rounding changes nothing. *)
Definition fuse_one (K : Z) (retriever_idx : nat) (weight : Q) (fused : FusedScores)
           (rnk : nat) (nws : NodeWithScore) : Outcome FusedScores :=
  let key := node_key (node nws) in
  let fused1 :=
    if has_key key fused then fused
    else fused ++ [(key, {| e_node := node nws; e_score := 0; e_contributions := ∅ |})] in
  if (Z.of_nat rnk + K =? 0)%Z then Raised ZeroDivisionError
  else
    let rank_score := (weight * (1 / inject_Z (Z.of_nat rnk + K)))%Q in
    Returned
      (update key
         (fun e => {| e_node := e_node e;
                      e_score := (e_score e + rank_score)%Q;
                      e_contributions :=
                        <[retriever_idx := {| original_score := score nws;
                                              rank := rnk + 1;
                                              contribution := rank_score |}]>
                          (e_contributions e) |})
         fused1).

(** [for rank, node_with_score in enumerate(results)], from rank [rnk] on. *)
Fixpoint fuse_ranked (K : Z) (retriever_idx : nat) (weight : Q) (rnk : nat)
         (results : list NodeWithScore) (fused : FusedScores) : Outcome FusedScores :=
  match results with
  | [] => Returned fused
  | nws :: rest =>
      fused' ← fuse_one K retriever_idx weight fused rnk nws;
      fuse_ranked K retriever_idx weight (S rnk) rest fused'
  end.

(** [for retriever_idx, (results, weight) in enumerate(zip(...))]: [zip]
    stops at the shorter of the two lists. *)
Fixpoint fuse_retrievers (K : Z) (retriever_idx : nat)
         (results_per_retriever : list (list NodeWithScore)) (ws : list Q)
         (fused : FusedScores) : Outcome FusedScores :=
  match results_per_retriever, ws with
  | results :: rs', weight :: ws' =>
      fused' ← fuse_ranked K retriever_idx weight 0 results fused;
      fuse_retrievers K (S retriever_idx) rs' ws' fused'
  | _, _ => Returned fused
  end.

(** The final loop: the node receives the RRF metadata and is wrapped
    with the fused score. *)
Definition to_result (item : Entry) : NodeWithScore :=
  {| node := {| node_id := node_id (e_node item);
                node_text := node_text (e_node item);
                rrf_score := Some (e_score item);
                retriever_contributions := Some (e_contributions item) |};
     score := e_score item |}.

Definition _fuse_results (self : EnhancedHybridRetriever)
           (results_per_retriever : list (list NodeWithScore))
  : Outcome (list NodeWithScore) :=
  match results_per_retriever with
  | [] => Returned []
  | _ =>
      fused_scores ← fuse_retrievers (k self) 0 results_per_retriever (weights self) [];
      let sorted_fused_results := sorted_desc e_score (map snd fused_scores) in
      Returned (map to_result sorted_fused_results)
  end.

(** What [asyncio.gather(..., return_exceptions=True)] followed by the
    [isinstance(result, Exception)] loop, and what the [try]/[except] of
    the synchronous loop, make of one sub-retriever's invocation. *)
Definition processed (result : Outcome (list NodeWithScore)) : list NodeWithScore :=
  match result with
  | Returned r => r
  | Raised _ => []
  end.

(** [_aretrieve]; [invocations] holds, per sub-retriever of
    [self.retrievers], the outcome of its [aretrieve]. *)
Definition _aretrieve (self : EnhancedHybridRetriever)
           (invocations : list (Outcome (list NodeWithScore)))
  : Outcome (list NodeWithScore) :=
  match invocations with
  | [] => Returned []
  | _ =>
      let processed_results := map processed invocations in
      fused_results ← _fuse_results self processed_results;
      Returned (slice_to fused_results (top_k self))
  end.

(** [_retrieve]; [invocations] holds the outcomes of [retrieve], called
    one after the other inside [try]. *)
Definition _retrieve (self : EnhancedHybridRetriever)
           (invocations : list (Outcome (list NodeWithScore)))
  : Outcome (list NodeWithScore) :=
  match invocations with
  | [] => Returned []
  | _ =>
      let results_per_retriever :=
        fold_left (fun acc result =>
                     match result with
                     | Returned results => acc ++ [results]
                     | Raised _ => acc ++ [[]]
                     end) invocations [] in
      fused_results ← _fuse_results self results_per_retriever;
      Returned (slice_to fused_results (top_k self))
  end.

(** *** Reading the [fused_scores] dict *)

Definition keys (d : FusedScores) : list string := map fst d.

(** The score accumulated for [key] so far. *)
Definition score_of (d : FusedScores) (key : string) : Q :=
  match get key d with
  | Some e => e_score e
  | None => 0
  end.

(** Every entry is filed under the key of its own node. *)
Definition well_keyed (d : FusedScores) : Prop :=
  forall key e, In (key, e) d -> node_key (e_node e) = key.

Definition result_key (nws : NodeWithScore) : string := node_key (node nws).

(** *** The closed form the specification gives for the fused score *)

(** One contribution: [weight * 1/(r + K)]. *)
Definition rrf_term (K : Z) (weight : Q) (rnk : nat) : Q :=
  (weight * (1 / inject_Z (Z.of_nat rnk + K)))%Q.

(** Contributions of one ranked list to the item [key]: [weight/(r+K)]
    for every rank [r] (counted from [rnk]) the list returns it at. *)
Fixpoint rank_sum (K : Z) (weight : Q) (rnk : nat) (results : list NodeWithScore)
         (key : string) : Q :=
  match results with
  | [] => 0
  | nws :: rest =>
      ((if String.eqb key (result_key nws) then rrf_term K weight rnk else 0)
       + rank_sum K weight (S rnk) rest key)%Q
  end.

(** Sum over the sub-retrievers. *)
Fixpoint rrf_sum (K : Z) (results_per_retriever : list (list NodeWithScore))
         (ws : list Q) (key : string) : Q :=
  match results_per_retriever, ws with
  | results :: rs', weight :: ws' =>
      (rank_sum K weight 0 results key + rrf_sum K rs' ws' key)%Q
  | _, _ => 0%Q
  end.

Definition total_weight (ws : list Q) : Q := fold_right Qplus 0%Q ws.

(** Keys in the order the items are first seen: sub-retrievers in order,
    each list by rank. *)
Definition seen_keys (results_per_retriever : list (list NodeWithScore)) : list string :=
  first_seen (map result_key (concat results_per_retriever)).

(** [a] is ranked before [b]: a larger fused score, or an equal one and
    seen first. *)
Definition ranked_before (seen : list string) (a b : NodeWithScore) : Prop :=
  (score b < score a)%Q \/
  ((score a == score b)%Q /\
   position (result_key a) seen < position (result_key b) seen).

(** *** Vocabulary for further properties *)

(** The entry a first contribution creates: the retriever [idx] returned
    [nws] at rank [rnk]. *)
Definition entry_for (K : Z) (idx : nat) (weight : Q) (rnk : nat) (nws : NodeWithScore)
  : Entry :=
  {| e_node := node nws;
     e_score := (0 + weight * (1 / inject_Z (Z.of_nat rnk + K)))%Q;
     e_contributions :=
       <[idx := {| original_score := score nws;
                   rank := rnk + 1;
                   contribution := (weight * (1 / inject_Z (Z.of_nat rnk + K)))%Q |}]> ∅ |}.

(** The entries one ranked list creates when none of its items was seen
    before. *)
Fixpoint fresh_entries (K : Z) (idx : nat) (weight : Q) (rnk : nat)
         (results : list NodeWithScore) : FusedScores :=
  match results with
  | [] => []
  | nws :: rest =>
      (node_key (node nws), entry_for K idx weight rnk nws)
      :: fresh_entries K idx weight (S rnk) rest
  end.

(** Whether the dict records a contribution of retriever [i] to [key]. *)
Definition contributed (d : FusedScores) (key : string) (i : nat) : Prop :=
  exists e, get key d = Some e /\ is_Some (e_contributions e !! i).

(** Sub-retriever [i] returned the item [key] and took part in the
    fusion (it has a weight). *)
Definition returned_by (results_per_retriever : list (list NodeWithScore))
           (ws : list Q) (i : nat) (key : string) : Prop :=
  exists results, results_per_retriever !! i = Some results /\
                  i < length ws /\
                  key ∈ map result_key results.

End WithHash.

(** *** Defaults and sample data *)

(** [k: int = 60], [top_k: int = 10] *)
Definition default_k : Z := 60.
Definition default_top_k : Z := 10.

(** The retriever [get_retriever_for_collection] builds for a vector and
    a lexical sub-retriever. *)
Definition factory_retriever : EnhancedHybridRetriever :=
  {| weights := [7 # 10; 3 # 10]; k := default_k; top_k := default_top_k |}.

(** A stand-in digest for running examples; the properties hold for
    every digest function. *)
Definition sample_digest (content : str) : string := string_of_list_ascii content.

Definition hit (i : string) (s : Q) : NodeWithScore :=
  {| node := {| node_id := Some i; node_text := lit i;
                rrf_score := None; retriever_contributions := None |};
     score := s |}.

(** A vector list and a lexical list that share the chunk [c2]. *)
Definition sample_lists : list (list NodeWithScore) :=
  [[hit "c1" (9 # 10); hit "c2" (8 # 10)]; [hit "c2" 12; hit "c3" 7]].

End Fusion.

(* ===================================================================== *)
(** ** retriever_factory.py : [get_retriever_for_collection]              *)
(* ===================================================================== *)

Module Factory.
Import Tokenizer.
Import Fusion.

(** What the factory sees of the libraries it calls, for one collection:
    the outcome of each construction. *)
Record Services : Type := {
  (** [actual_client.get_collection(collection_name)] *)
  client_get_collection : Outcome unit;
  (** [ChromaVectorStore], [VectorStoreIndex.from_vector_store],
      [index.as_retriever] *)
  vector_retriever : Outcome unit;
  (** [BM25Retriever(collection_name=collection_name)] *)
  bm25_retriever : Outcome unit
}.

(** The two outer handlers: [except CollectionNotFoundError: raise] and
    [except Exception as e: raise RetrievalError(...)]. *)
Definition handled (e : exn) : exn :=
  match e with
  | CollectionNotFoundError => CollectionNotFoundError
  | _ => RetrievalError
  end.

(** [get_retriever_for_collection]; the answer is the retriever together
    with the number of sub-retrievers it was given. *)
Definition get_retriever_for_collection (sv : Services) (use_bm25 : bool)
           (weights_arg : option (list Q)) : Outcome (nat * EnhancedHybridRetriever) :=
  match client_get_collection sv with
  | Raised _ => Raised CollectionNotFoundError
  | Returned _ =>
      match vector_retriever sv with
      | Raised e => Raised (handled e)
      | Returned _ =>
          let '(n, ws) :=
            if use_bm25 then
              match bm25_retriever sv with
              | Returned _ =>
                  (2, match weights_arg with
                      | None => Some [7 # 10; 3 # 10]
                      | Some given => Some given
                      end)
              | Raised _ => (1, Some [1%Q])
              end
            else (1, Some [1%Q]) in
          match init n ws default_k default_top_k with
          | Returned retriever => Returned (n, retriever)
          | Raised e => Raised (handled e)
          end
      end
  end.

(** A store in which everything can be built. *)
Definition all_built : Services :=
  {| client_get_collection := Returned tt;
     vector_retriever := Returned tt;
     bm25_retriever := Returned tt |}.

End Factory.

(* ===================================================================== *)
(** ** query_engine.py : [QueryEngine]                                    *)
(* ===================================================================== *)

Module Engine.
Import Tokenizer.
Import Fusion.

Inductive SourceType : Type := vector | bm25 | hybrid.

(** [QueryResult]; the [metadata] dict is passed through unread and is
    left out. *)
Record QueryResult : Type := {
  content : str;
  relevance_score : Q;
  collection_name : string;
  source_type : SourceType;
  base_relevance : Q;
  keyword_boost : Q
}.

(** [QueryConfig]; the [filters] enter the cache key and the vector query
    only, they are fixed during a call and left out. *)
Record QueryConfig : Type := {
  n_results : Z;
  min_relevance : Q;
  merge_strategy : string
}.

Definition default_config : QueryConfig :=
  {| n_results := 5; min_relevance := 0; merge_strategy := "interleave" |}.

(** *** [_merge_results] *)

(** The [results_by_collection] dict: keys in insertion order. *)
Abbreviation ByCollection := (list (string * list QueryResult)).

(** Body of [for result in all_results]. *)
Fixpoint add_to_collection (result : QueryResult) (d : ByCollection) : ByCollection :=
  match d with
  | [] => [(collection_name result, [result])]
  | (name, v) :: t =>
      if String.eqb (collection_name result) name then (name, v ++ [result]) :: t
      else (name, v) :: add_to_collection result t
  end.

Definition group_by_collection (all_results : list QueryResult) : ByCollection :=
  fold_left (fun d result => add_to_collection result d) all_results [].

(** [for collection_name in results_by_collection.keys()] at index [i],
    with its [break]. *)
Fixpoint interleave_row (i : nat) (k : Z) (d : ByCollection) (merged : list QueryResult)
  : list QueryResult :=
  match d with
  | [] => merged
  | (_, v) :: t =>
      let merged1 := match v !! i with
                     | Some result => merged ++ [result]
                     | None => merged
                     end in
      if len_ge merged1 k then merged1 else interleave_row i k t merged1
  end.

(** [for i in range(max_len)], with its [break]. *)
Fixpoint interleave_rows (rows : list nat) (k : Z) (d : ByCollection)
         (merged : list QueryResult) : list QueryResult :=
  match rows with
  | [] => merged
  | i :: rows' =>
      let merged1 := interleave_row i k d merged in
      if len_ge merged1 k then merged1 else interleave_rows rows' k d merged1
  end.

Definition max_len (d : ByCollection) : nat :=
  fold_right Nat.max 0 (map (fun kv => length (snd kv)) d).

Definition _merge_results (all_results : list QueryResult) (k : Z)
           (strategy : string) : list QueryResult :=
  match all_results with
  | [] => []
  | _ =>
      if String.eqb strategy "best" then
        slice_to (sorted_desc relevance_score all_results) k
      else
        let results_by_collection := group_by_collection all_results in
        interleave_rows (seq 0 (max_len results_by_collection)) k results_by_collection []
  end.

(** *** Round-robin as the specification words it *)

(** The results of one collection, in the order they came. *)
Definition bucket (all_results : list QueryResult) (name : string) : list QueryResult :=
  List.filter (fun r => String.eqb (collection_name r) name) all_results.

(** Collections in first-seen order. *)
Definition collections_seen (all_results : list QueryResult) : list string :=
  first_seen (map collection_name all_results).

(** Round [i]: the [i]-th result of every collection that still has one. *)
Definition round (all_results : list QueryResult) (i : nat) : list QueryResult :=
  flat_map (fun name => match bucket all_results name !! i with
                        | Some r => [r]
                        | None => []
                        end) (collections_seen all_results).

(** The same round read off the [results_by_collection] dict. *)
Definition row_items (i : nat) (d : ByCollection) : list QueryResult :=
  flat_map (fun kv => match snd kv !! i with
                      | Some r => [r]
                      | None => []
                      end) d.

(** All rounds, until every collection is exhausted. *)
Definition round_robin (all_results : list QueryResult) : list QueryResult :=
  flat_map (round all_results) (seq 0 (length all_results)).

(** *** Collaborators of one [query] call

    The query text and the filters are fixed during a call; what the
    engine sees of its collaborators, per collection name, is the outcome
    of each call it makes. *)

(** A collection handle of the vector store: [count()] and the outcome
    of [query(...)], the documents with their distances. *)
Record Collection : Type := {
  count : nat;
  query_by_vector : Outcome (list (str * Q))
}.

Record Collaborators : Type := {
  has_client : bool;
  has_embeddings : bool;
  list_collections : Outcome (list string);
  (** [get_retriever_for_collection(...)] followed by [retriever.aretrieve] *)
  hybrid_retrieve : string -> Outcome (list NodeWithScore);
  get_collection : string -> Outcome Collection;
  (** [embed_query] / [get_query_embedding] / [get_text_embedding] *)
  embed : Outcome unit
}.

(** Modelled from the spec: the query cache ([src.core.services.query_cache]
    is imported by the engine but is not among the sources).  [get] answers
    an optional previously stored unfiltered list and [set] stores one; for
    the fixed query text, [k] and filters of one call the key is the
    collection name. *)
Abbreviation QueryCache := (gmap string (list QueryResult)).

(** [res.relevance_score >= min_relevance] *)
Definition meets (min_rel : Q) (res : QueryResult) : bool :=
  Qle_bool min_rel (relevance_score res).

(** Conversion of one fused result in [_query_single_collection_interface]. *)
Definition of_node (name : string) (result : NodeWithScore) : QueryResult :=
  {| content := node_text (node result);
     relevance_score := score result;
     collection_name := name;
     source_type :=
       match retriever_contributions (node result) with
       | Some contribs => match contribs !! 1 with
                          | Some _ => hybrid
                          | None => vector
                          end
       | None => hybrid
       end;
     base_relevance := score result;
     keyword_boost := 0 |}.

(** Conversion of one vector hit in [_query_single_collection]. *)
Definition of_hit (name : string) (hit : str * Q) : QueryResult :=
  let relevance := (1 - snd hit)%Q in
  {| content := fst hit;
     relevance_score := relevance;
     collection_name := name;
     source_type := vector;
     base_relevance := relevance;
     keyword_boost := 0 |}.

(** The [try] block of [_query_single_collection]: the unfiltered results. *)
Definition vector_only (env : Collaborators) (name : string) : Outcome (list QueryResult) :=
  collection ← get_collection env name;
  if count collection =? 0 then Raised EmptyCollectionError
  else
    _ ← embed env;
    hits ← query_by_vector collection;
    Returned (map (of_hit name) hits).

(** [_query_single_collection]: [EmptyCollectionError] and [RetrievalError]
    are re-raised, anything else is raised as [RetrievalError]. *)
Definition _query_single_collection (env : Collaborators) (cache : QueryCache)
           (name : string) (min_rel : Q) : Outcome (list QueryResult) * QueryCache :=
  match cache !! name with
  | Some cached_result => (Returned (List.filter (meets min_rel) cached_result), cache)
  | None =>
      match vector_only env name with
      | Returned query_results =>
          (Returned (List.filter (meets min_rel) query_results),
           <[name := query_results]> cache)
      | Raised EmptyCollectionError => (Raised EmptyCollectionError, cache)
      | Raised RetrievalError => (Raised RetrievalError, cache)
      | Raised _ => (Raised RetrievalError, cache)
      end
  end.

(** [_query_single_collection_interface] *)
Definition _query_single_collection_interface (env : Collaborators) (cache : QueryCache)
           (name : string) (min_rel : Q) : Outcome (list QueryResult) * QueryCache :=
  match cache !! name with
  | Some cached_result => (Returned (List.filter (meets min_rel) cached_result), cache)
  | None =>
      match hybrid_retrieve env name with
      | Returned raw_results =>
          let query_results := map (of_node name) raw_results in
          (Returned (List.filter (meets min_rel) query_results),
           <[name := query_results]> cache)
      | Raised CollectionNotFoundError => (Returned [], cache)
      | Raised EmptyCollectionError => (Returned [], cache)
      | Raised _ => _query_single_collection env cache name min_rel
      end
  end.

(** The tasks handed to [asyncio.gather] with [return_exceptions=True], one per
    target collection, in the order of the targets.  A task touches only
    the cache entry of its own collection. *)
Fixpoint gather (env : Collaborators) (cache : QueryCache) (names : list string)
         (min_rel : Q) : list (Outcome (list QueryResult)) * QueryCache :=
  match names with
  | [] => ([], cache)
  | name :: rest =>
      let '(result, cache1) := _query_single_collection_interface env cache name min_rel in
      let '(results, cache2) := gather env cache1 rest min_rel in
      (result :: results, cache2)
  end.

(** The loop over [results_from_all_collections]: a task that raised is
    logged and skipped. *)
Definition collect (results : list (Outcome (list QueryResult))) : list QueryResult :=
  flat_map (fun result => match result with
                          | Returned r => r
                          | Raised _ => []
                          end) results.

Definition query (env : Collaborators) (cache : QueryCache)
           (collection_names : option (list string)) (config : QueryConfig)
  : Outcome (list QueryResult) * QueryCache :=
  if negb (has_client env) || negb (has_embeddings env) then (Raised RuntimeError, cache)
  else
    let targets := match collection_names with
                   | Some (name :: rest) => Returned (name :: rest)
                   | _ => list_collections env
                   end in
    match targets with
    | Raised e => (Raised e, cache)
    | Returned [] => (Returned [], cache)
    | Returned target_collections =>
        let '(results, cache') :=
          gather env cache target_collections (min_relevance config) in
        (Returned (_merge_results (collect results) (n_results config)
                                  (merge_strategy config)),
         cache')
    end.

(** *** What a collection retrieved, before the relevance floor *)

(** The unfiltered result list of one collection, when its task returns
    one. *)
Definition retrieved (env : Collaborators) (cache : QueryCache) (name : string)
  : option (list QueryResult) :=
  match cache !! name with
  | Some cached_result => Some cached_result
  | None =>
      match hybrid_retrieve env name with
      | Returned raw_results => Some (map (of_node name) raw_results)
      | Raised CollectionNotFoundError => None
      | Raised EmptyCollectionError => None
      | Raised _ =>
          match vector_only env name with
          | Returned query_results => Some query_results
          | Raised _ => None
          end
      end
  end.

(** Retrieval for the collection failed: not found, empty, or an
    exception followed by a failed fallback. *)
Definition failed (env : Collaborators) (cache : QueryCache) (name : string) : bool :=
  match retrieved env cache name with
  | Some _ => false
  | None => true
  end.

(** The cache a task leaves behind: a retrieval that succeeded stores
    its unfiltered list. *)
Definition cache_after (env : Collaborators) (cache : QueryCache) (name : string)
  : QueryCache :=
  match cache !! name with
  | Some _ => cache
  | None =>
      match retrieved env cache name with
      | Some l => <[name := l]> cache
      | None => cache
      end
  end.

(** The unfiltered lists of the target collections whose retrieval
    succeeded, in target order. *)
Fixpoint unfiltered (env : Collaborators) (cache : QueryCache) (names : list string)
  : list (list QueryResult) :=
  match names with
  | [] => []
  | name :: rest =>
      match retrieved env cache name with
      | Some l => l :: unfiltered env (cache_after env cache name) rest
      | None => unfiltered env (cache_after env cache name) rest
      end
  end.

(** *** Vocabulary for the cache *)

(** [cache] holds, for every collection, what [start] holds or the
    unfiltered list the collection's retrieval delivers from [start]. *)
Definition warmed (env : Collaborators) (start cache : QueryCache) : Prop :=
  forall name,
    cache !! name = start !! name \/ cache !! name = retrieved env start name.

(** A result as the engine builds it for collection [name]: labelled
    with that collection, never of source type [bm25], with the base relevance
    equal to the relevance score and no keyword boost. *)
Definition engine_made (name : string) (r : QueryResult) : Prop :=
  collection_name r = name /\
  source_type r <> bm25 /\
  base_relevance r = relevance_score r /\
  keyword_boost r = 0%Q.

(** Every cached list was built by the engine for the collection it is
    stored under. *)
Definition engine_filled (cache : QueryCache) : Prop :=
  forall name l, cache !! name = Some l -> Forall (engine_made name) l.

(** *** Sample data *)

Definition result_in (name c : string) (s : Q) : QueryResult :=
  {| content := lit c; relevance_score := s; collection_name := name;
     source_type := hybrid; base_relevance := s; keyword_boost := 0 |}.

Definition a1 : QueryResult := result_in "A" "a1" (1 # 60).
Definition a2 : QueryResult := result_in "A" "a2" (1 # 61).
Definition a3 : QueryResult := result_in "A" "a3" (1 # 62).
Definition b1 : QueryResult := result_in "B" "b1" (1 # 200).

(** Two collections answered by the hybrid retriever; any other name is
    not found, by the factory and by the fallback. *)
Definition two_collections : Collaborators :=
  {| has_client := true;
     has_embeddings := true;
     list_collections := Returned ["A"; "B"]%string;
     hybrid_retrieve := fun name =>
       if String.eqb name "A" then Returned [hit "a1" (1 # 60); hit "a2" (1 # 61)]
       else if String.eqb name "B" then Returned [hit "b1" (1 # 200)]
       else Raised CollectionNotFoundError;
     get_collection := fun _ => Raised OtherException;
     embed := Returned tt |}.

Definition floor_config : QueryConfig :=
  {| n_results := 2; min_relevance := 1 # 100; merge_strategy := "interleave" |}.

(** A collection served by the vector-only fallback, whose single hit
    lies at distance 1.5 from the query. *)
Definition far_hit : Collaborators :=
  {| has_client := true;
     has_embeddings := true;
     list_collections := Returned ["A"]%string;
     hybrid_retrieve := fun _ => Raised RetrievalError;
     get_collection := fun _ =>
       Returned {| count := 1; query_by_vector := Returned [(lit "far", 3 # 2)] |};
     embed := Returned tt |}.

Definition lenient_config : QueryConfig :=
  {| n_results := 5; min_relevance := -1; merge_strategy := "interleave" |}.

End Engine.

(* ===================================================================== *)
(** ** enhanced_hybrid_retriever.py : the fusion in float arithmetic      *)
(* ===================================================================== *)

(** Module [Fusion] reads every float operation as the exact operation
    on rationals; it serves the properties that no rounding can change
    (what is returned at all, which errors are raised, bounds).  The order
    of two scores that are equal or nearly equal depends on the rounding,
    so this module embeds the same functions with the rounding in place: a
    float is the rational it denotes, and every float operation -- the
    conversion of [rank + self.k] to a float, the division, the
    multiplication and each [+=] -- is the exact operation followed by
    [rnd], the rounding to a double.  [rnd] is a parameter: what is proved
    holds for every rounding function, round-to-nearest-even of IEEE 754
    among them ([double] below).  A weight, like every float, is given by
    the rational it denotes: the weight written [0.7] is [double (7 # 10)].
    Scores that overflow to an infinity and weights that are not finite
    numbers are outside of the embedding. *)

Module FusionFloat.
Import Tokenizer.
Import Fusion.

Section WithArithmetic.

(** [hashlib.md5(content.encode()).hexdigest()] *)
Variable md5_hexdigest : str -> string.

(** Rounding of a real result to a float. *)
Variable rnd : Q -> Q.

(** [weight * (1.0 / (rank + self.k))], for a divisor that is not zero. *)
Definition rank_score (K : Z) (weight : Q) (rnk : nat) : Q :=
  rnd (weight * rnd (1 / rnd (inject_Z (Z.of_nat rnk + K)))).

(** Body of [for rank, node_with_score in enumerate(results)].
    [1.0 / (rank + self.k)] raises when the divisor is zero. *)
Definition fuse_one (K : Z) (retriever_idx : nat) (weight : Q) (fused : FusedScores)
           (rnk : nat) (nws : NodeWithScore) : Outcome FusedScores :=
  let key := node_key md5_hexdigest (node nws) in
  let fused1 :=
    if has_key key fused then fused
    else fused ++ [(key, {| e_node := node nws; e_score := 0; e_contributions := ∅ |})] in
  if (Z.of_nat rnk + K =? 0)%Z then Raised ZeroDivisionError
  else
    let rank_score := rnd (weight * rnd (1 / rnd (inject_Z (Z.of_nat rnk + K)))) in
    Returned
      (update key
         (fun e => {| e_node := e_node e;
                      e_score := rnd (e_score e + rank_score);
                      e_contributions :=
                        <[retriever_idx := {| original_score := score nws;
                                              rank := rnk + 1;
                                              contribution := rank_score |}]>
                          (e_contributions e) |})
         fused1).

(** [for rank, node_with_score in enumerate(results)], from rank [rnk] on. *)
Fixpoint fuse_ranked (K : Z) (retriever_idx : nat) (weight : Q) (rnk : nat)
         (results : list NodeWithScore) (fused : FusedScores) : Outcome FusedScores :=
  match results with
  | [] => Returned fused
  | nws :: rest =>
      fused' ← fuse_one K retriever_idx weight fused rnk nws;
      fuse_ranked K retriever_idx weight (S rnk) rest fused'
  end.

(** [for retriever_idx, (results, weight) in enumerate(zip(...))]: [zip]
    stops at the shorter of the two lists. *)
Fixpoint fuse_retrievers (K : Z) (retriever_idx : nat)
         (results_per_retriever : list (list NodeWithScore)) (ws : list Q)
         (fused : FusedScores) : Outcome FusedScores :=
  match results_per_retriever, ws with
  | results :: rs', weight :: ws' =>
      fused' ← fuse_ranked K retriever_idx weight 0 results fused;
      fuse_retrievers K (S retriever_idx) rs' ws' fused'
  | _, _ => Returned fused
  end.

(** [sorted(fused_scores.values(), key=lambda x: x['score'], reverse=True)]
    compares the floats, that is the rationals they denote. *)
Definition _fuse_results (self : EnhancedHybridRetriever)
           (results_per_retriever : list (list NodeWithScore))
  : Outcome (list NodeWithScore) :=
  match results_per_retriever with
  | [] => Returned []
  | _ =>
      fused_scores ← fuse_retrievers (k self) 0 results_per_retriever (weights self) [];
      let sorted_fused_results := sorted_desc e_score (map snd fused_scores) in
      Returned (map to_result sorted_fused_results)
  end.

Definition _aretrieve (self : EnhancedHybridRetriever)
           (invocations : list (Outcome (list NodeWithScore)))
  : Outcome (list NodeWithScore) :=
  match invocations with
  | [] => Returned []
  | _ =>
      let processed_results := map processed invocations in
      fused_results ← _fuse_results self processed_results;
      Returned (slice_to fused_results (top_k self))
  end.

Definition _retrieve (self : EnhancedHybridRetriever)
           (invocations : list (Outcome (list NodeWithScore)))
  : Outcome (list NodeWithScore) :=
  match invocations with
  | [] => Returned []
  | _ =>
      let results_per_retriever :=
        fold_left (fun acc result =>
                     match result with
                     | Returned results => acc ++ [results]
                     | Raised _ => acc ++ [[]]
                     end) invocations [] in
      fused_results ← _fuse_results self results_per_retriever;
      Returned (slice_to fused_results (top_k self))
  end.

(** *** The sum as the program forms it *)

(** What one ranked list adds to the score [acc] of the item [key]: for
    every rank (counted from [rnk]) at which the list returns the item,
    that rank's [weight * 1/(r + K)], each addition rounded. *)
Fixpoint rank_acc (K : Z) (weight : Q) (rnk : nat) (results : list NodeWithScore)
         (key : string) (acc : Q) : Q :=
  match results with
  | [] => acc
  | nws :: rest =>
      rank_acc K weight (S rnk) rest key
               (if String.eqb key (result_key md5_hexdigest nws)
                then rnd (acc + rank_score K weight rnk)
                else acc)
  end.

(** The same over the sub-retrievers, in their order, each list paired
    with its weight. *)
Fixpoint rrf_acc (K : Z) (weighted : list (list NodeWithScore * Q))
         (key : string) (acc : Q) : Q :=
  match weighted with
  | [] => acc
  | (results, weight) :: rest => rrf_acc K rest key (rank_acc K weight 0 results key acc)
  end.

End WithArithmetic.

(** The sub-retrievers whose invocation returned, each list with the
    weight of its sub-retriever. *)
Fixpoint survivors (invocations : list (Outcome (list NodeWithScore))) (ws : list Q)
  : list (list NodeWithScore * Q) :=
  match invocations, ws with
  | Returned results :: rest, weight :: ws' => (results, weight) :: survivors rest ws'
  | Raised _ :: rest, _ :: ws' => survivors rest ws'
  | _, _ => []
  end.

(** *** Round-to-nearest-even onto the doubles *)

(** Nearest integer to [p / r] for [r > 0], a tie going to the even one. *)
Definition nearest_even (p r : Z) : Z :=
  let fl := (p / r)%Z in
  match (2 * (p mod r) ?= r)%Z with
  | Lt => fl
  | Gt => (fl + 1)%Z
  | Eq => if Z.even fl then fl else (fl + 1)%Z
  end.

(** The integer part of the binary logarithm of [n / d], for [n, d > 0]. *)
Definition floor_log2 (n d : Z) : Z :=
  let c := (Z.log2 n - Z.log2 d)%Z in
  if (0 <=? c)%Z then (if (d * 2 ^ c <=? n)%Z then c else c - 1)%Z
  else (if (d <=? n * 2 ^ (- c))%Z then c else c - 1)%Z.

(** The double nearest to [n / d > 0]: 53 significant bits, exponents
    down to the subnormal range; values of 2^1024 and more, which round
    to an infinity, are not covered. *)
Definition double_pos (n d : Z) : Q :=
  let e := Z.max (floor_log2 n d - 52) (-1074) in
  if (0 <=? e)%Z then inject_Z (nearest_even n (d * 2 ^ e) * 2 ^ e)
  else Qred (nearest_even (n * 2 ^ (- e)) d # Z.to_pos (2 ^ (- e))).

Definition double (q : Q) : Q :=
  match Qnum q with
  | Z0 => 0
  | Zpos n => double_pos (Zpos n) (Zpos (Qden q))
  | Zneg n => - double_pos (Zpos n) (Zpos (Qden q))
  end.

(** *** Sample data *)

(** Three sub-retrievers that rank the chunks ["A"] and ["B"] at the
    ranks 0, 1, 2 and 1, 2, 0: the exact sums are equal, the float sums
    differ in the last place. *)
Definition rotated_lists : list (list NodeWithScore) :=
  [[hit "A" 1; hit "B" 1];
   [hit "f" 1; hit "A" 1; hit "B" 1];
   [hit "B" 1; hit "g" 1; hit "A" 1]].

Definition rotated_retriever : EnhancedHybridRetriever :=
  {| weights := [1%Q; 1%Q; 1%Q]; k := 3; top_k := 1 |}.

(** The retriever of the factory, [weights=[0.7, 0.3]], in doubles. *)
Definition float_factory_retriever : EnhancedHybridRetriever :=
  {| weights := [double (7 # 10); double (3 # 10)]; k := 60; top_k := 10 |}.

(** A vector list that came back and a lexical retriever that raised. *)
Definition one_failed : list (Outcome (list NodeWithScore)) :=
  [Returned [hit "c1" (9 # 10); hit "c2" (8 # 10)]; Raised OtherException].

End FusionFloat.

(* ===================================================================== *)
(** ** api/v1/rag/query.py : [search_documents]                           *)
(* ===================================================================== *)

(** The search endpoint, from the query embedding on: per collection a
    vector query and a lexical query over the saved index, both merged
    into one dict keyed by document identifier, scored by min-max
    normalisation, and all collections ranked together. *)

Module Search.
Import Tokenizer.

(** One value of [combined_results]; [metadata], [source] and
    [page_number] are carried along unread and are left out. *)
Record Candidate : Type := {
  content : str;
  source_collection : string;
  vector_score : Q;
  bm25_score : Q
}.

(** The [combined_results] dict: keys in insertion order. *)
Abbreviation Combined := (list (string * Candidate)).

Fixpoint find (key : string) (d : Combined) : option Candidate :=
  match d with
  | [] => None
  | (k, c) :: t => if String.eqb key k then Some c else find key t
  end.

(** [d[key] = c]: a key already present keeps its place. *)
Fixpoint assign (key : string) (c : Candidate) (d : Combined) : Combined :=
  match d with
  | [] => [(key, c)]
  | (k, c0) :: t => if String.eqb key k then (k, c) :: t else (k, c0) :: assign key c t
  end.

(** What [collection.query] answered: the first rows of ['documents'],
    ['distances'] and ['ids'], each empty when the entry is missing or
    empty.  The ['metadatas'] are taken to be dicts, as the [metadata.get]
    calls need, and are left out. *)
Record VectorResults : Type := {
  docs : list str;
  distances : list Q;
  ids : list string
}.

(** [ids[i] if i < len(ids) else f"vec_{i}"] *)
Definition doc_id_at (vector_results : VectorResults) (i : nat) : string :=
  match ids vector_results !! i with
  | Some doc_id => doc_id
  | None => ("vec_" ++ NilEmpty.string_of_uint (Nat.to_uint i))%string
  end.

(** [distances[i] if i < len(distances) else 1.0] *)
Definition distance_at (vector_results : VectorResults) (i : nat) : Q :=
  match distances vector_results !! i with
  | Some d => d
  | None => 1%Q
  end.

(** [for i, doc in enumerate(docs)] *)
Fixpoint add_vector_results (name : string) (vector_results : VectorResults) (i : nat)
         (rest : list str) (combined : Combined) : Combined :=
  match rest with
  | [] => combined
  | doc :: rest' =>
      add_vector_results name vector_results (S i) rest'
        (assign (doc_id_at vector_results i)
                {| content := doc;
                   source_collection := name;
                   vector_score := 1 - distance_at vector_results i;
                   bm25_score := 0 |}
                combined)
  end.

(** One entry of [bm25_results]. *)
Record Bm25Result : Type := {
  b_content : str;
  b_score : Q;
  node_id : string
}.

(** [x > y] on scores. *)
Definition gt (x y : Q) : bool := negb (Qle_bool x y).

Definition score_at (bm25_scores : list Q) (idx : nat) : Q := nth idx bm25_scores 0%Q.

(** [sorted(range(len(bm25_scores)), key=lambda i: bm25_scores[i],
    reverse=True)[:request.k * 2]] *)
Definition top_bm25_indices (bm25_scores : list Q) (k : Z) : list nat :=
  Py.slice_to (Py.sorted_desc (score_at bm25_scores) (seq 0 (length bm25_scores))) (k * 2).

(** [for idx in top_bm25_indices]: [bm25_manager.nodes[idx]] raises
    [IndexError] past the end of the node list, which the enclosing
    [except Exception] logs; the results gathered so far are kept. *)
Fixpoint collect_bm25 (bm25_scores : list Q) (nodes : list BM25.TextNode)
         (idxs : list nat) (bm25_results : list Bm25Result) : list Bm25Result :=
  match idxs with
  | [] => bm25_results
  | idx :: rest =>
      if gt (score_at bm25_scores idx) 0 then
        match nodes !! idx with
        | Some node =>
            collect_bm25 bm25_scores nodes rest
              (bm25_results ++ [{| b_content := BM25.text node;
                                   b_score := score_at bm25_scores idx;
                                   node_id := BM25.id_ node |}])
        | None => bm25_results
        end
      else collect_bm25 bm25_scores nodes rest bm25_results
  end.

(** [combined_results[node_id]['bm25_score'] = ...] or a new entry. *)
Definition merge_bm25 (name : string) (combined : Combined) (r : Bm25Result) : Combined :=
  match find (node_id r) combined with
  | Some c =>
      assign (node_id r)
             {| content := content c;
                source_collection := source_collection c;
                vector_score := vector_score c;
                bm25_score := b_score r |}
             combined
  | None =>
      combined ++ [(node_id r,
                    {| content := b_content r;
                       source_collection := name;
                       vector_score := 0;
                       bm25_score := b_score r |})]
  end.

Definition combine (name : string) (vector_results : VectorResults)
           (bm25_results : list Bm25Result) : Combined :=
  fold_left (merge_bm25 name) bm25_results
            (add_vector_results name vector_results 0 (docs vector_results) []).

(** [max(l) if l else default] and [min(l) if l else default]; of equal
    elements the first is kept. *)
Definition max_of (default : Q) (l : list Q) : Q :=
  match l with
  | [] => default
  | x :: t => fold_left (fun m y => if gt y m then y else m) t x
  end.

Definition min_of (default : Q) (l : list Q) : Q :=
  match l with
  | [] => default
  | x :: t => fold_left (fun m y => if gt m y then y else m) t x
  end.

(** Min-max normalisation with its rule for a constant list. *)
Definition normalise (lo hi x : Q) : Q :=
  if gt hi lo then ((x - lo) / (hi - lo))%Q
  else if gt x 0 then 1%Q else 0%Q.

(** A candidate with the two keys the scoring adds. *)
Record Ranked : Type := {
  candidate : Candidate;
  relevance_score : Q;
  distance : Q
}.

Definition score_candidate (min_vector max_vector min_bm25 max_bm25 : Q)
           (result : Candidate) : Ranked :=
  let norm_vector := normalise min_vector max_vector (vector_score result) in
  let norm_bm25 := normalise min_bm25 max_bm25 (bm25_score result) in
  let relevance := ((1 # 2) * norm_vector + (1 # 2) * norm_bm25)%Q in
  {| candidate := result; relevance_score := relevance; distance := 1 - relevance |}.

(** [if combined_results: ...]: what one collection appends to
    [all_results]. *)
Definition score_collection (combined : Combined) : list Ranked :=
  match combined with
  | [] => []
  | _ =>
      let vector_scores := map (fun kv => vector_score (snd kv)) combined in
      let bm25_scores := map (fun kv => bm25_score (snd kv)) combined in
      let max_vector := max_of 1 vector_scores in
      let min_vector := min_of 0 vector_scores in
      let max_bm25 := max_of 1 bm25_scores in
      let min_bm25 := min_of 0 bm25_scores in
      map (fun kv => score_candidate min_vector max_vector min_bm25 max_bm25 (snd kv))
          combined
  end.

(** What the endpoint meets in one collection: the handle (falsy when
    [None]), the answer of the vector query, and the pickle file of the
    lexical index. *)
Record CollectionState : Type := {
  vector_query : Py.Outcome VectorResults;
  index_file : BM25.IndexFile
}.

Section WithScores.

(** [BM25Okapi.get_scores] of the external library, on the corpus the
    index was built from and the query tokens. *)
Variable get_scores : list (list str) -> list str -> Py.Outcome (list Q).

(** The [try] block of the keyword search: any exception leaves
    [bm25_results] as it is. *)
Definition bm25_search (file : BM25.IndexFile) (query : str) (k : Z) : list Bm25Result :=
  let bm25_manager := BM25.load file BM25.empty_manager in
  match BM25.bm25_index bm25_manager, BM25.nodes bm25_manager with
  | Some corpus, _ :: _ =>
      match get_scores corpus (_tokenize_text query) with
      | Py.Returned bm25_scores =>
          collect_bm25 bm25_scores (BM25.nodes bm25_manager)
                       (top_bm25_indices bm25_scores k) []
      | Py.Raised _ => []
      end
  | _, _ => []
  end.

(** Body of [for collection_name in collection_names]: a collection
    that cannot be opened or queried is logged and skipped. *)
Definition search_collection (name : string)
           (state : Py.Outcome (option CollectionState)) (query : str) (k : Z)
  : list Ranked :=
  match state with
  | Py.Returned (Some collection) =>
      match vector_query collection with
      | Py.Returned vector_results =>
          score_collection
            (combine name vector_results (bm25_search (index_file collection) query k))
      | Py.Raised _ => []
      end
  | _ => []
  end.

Definition all_results (get_collection : string -> Py.Outcome (option CollectionState))
           (collection_names : list string) (query : str) (k : Z) : list Ranked :=
  flat_map (fun name => search_collection name (get_collection name) query k)
           collection_names.

(** The ['documents'] of the response. *)
Definition ranked_nodes (get_collection : string -> Py.Outcome (option CollectionState))
           (collection_names : list string) (query : str) (k : Z) : list Ranked :=
  Py.slice_to (Py.sorted_desc relevance_score
                              (all_results get_collection collection_names query k)) k.

End WithScores.

(** *** Sample data *)

(** A collection with two vector hits, the nearer one at distance 0.9,
    and no lexical index. *)
Definition distant_hits : CollectionState :=
  {| vector_query :=
       Py.Returned {| docs := [lit "near"; lit "far"];
                      distances := [9 # 10; 19 # 10];
                      ids := ["n"; "f"]%string |};
     index_file := BM25.Absent |}.

Definition no_scores : list (list str) -> list str -> Py.Outcome (list Q) :=
  fun _ _ => Py.Raised Py.OtherException.

(** The candidates of [distant_hits]. *)
Definition near_and_far : Combined :=
  combine "A" {| docs := [lit "near"; lit "far"];
                 distances := [9 # 10; 19 # 10];
                 ids := ["n"; "f"]%string |} [].

(** A collection with a single vector hit at distance 0.9 and no
    lexical index. *)
Definition single_hit : CollectionState :=
  {| vector_query :=
       Py.Returned {| docs := [lit "only"]; distances := [9 # 10]; ids := ["o"%string] |};
     index_file := BM25.Absent |}.

(** A saved index of three nodes, and a scoring that finds the last two. *)
Definition saved_index : BM25.IndexFile :=
  BM25.Pickled
    {| BM25.bm25_index := Some [[lit "alpha"]; [lit "beta"]; [lit "gamma"]];
       BM25.nodes := [ {| BM25.id_ := "x"; BM25.text := lit "alpha"; BM25.metadata := [] |};
                       {| BM25.id_ := "y"; BM25.text := lit "beta"; BM25.metadata := [] |};
                       {| BM25.id_ := "z"; BM25.text := lit "gamma"; BM25.metadata := [] |} ];
       BM25.node_id_map := <["x" := 0]> (<["y" := 1]> (<["z" := 2]> ∅)) |}.

Definition two_found : list (list str) -> list str -> Py.Outcome (list Q) :=
  fun _ _ => Py.Returned [0; 1 # 2; 3 # 2]%Q.

End Search.

(* ===================================================================== *)
(** * Properties                                                          *)
(* ===================================================================== *)

(** ** Python primitives *)

Module PyFacts.

Section FirstSeen.
Context {K : Type} `{EqDecision K}.
Implicit Types (acc l : list K) (x : K).

Lemma first_seen_from_snoc acc l x :
  first_seen_from acc (l ++ [x])
  = if bool_decide (x ∈ first_seen_from acc l) then first_seen_from acc l
    else first_seen_from acc l ++ [x].
Proof. unfold first_seen_from. now rewrite fold_left_app. Qed.

Lemma first_seen_from_app acc l1 l2 :
  first_seen_from acc (l1 ++ l2) = first_seen_from (first_seen_from acc l1) l2.
Proof. unfold first_seen_from. now rewrite fold_left_app. Qed.

Lemma first_seen_from_cons acc l x :
  first_seen_from acc (x :: l)
  = first_seen_from (if bool_decide (x ∈ acc) then acc else acc ++ [x]) l.
Proof. reflexivity. Qed.

Lemma elem_of_first_seen_from l : forall acc x,
  x ∈ first_seen_from acc l <-> x ∈ acc \/ x ∈ l.
Proof.
  induction l as [|y l IH]; intros acc x.
  - cbn. set_solver.
  - rewrite first_seen_from_cons, IH. case_bool_decide; set_solver.
Qed.

Lemma NoDup_first_seen_from l : forall acc, NoDup acc -> NoDup (first_seen_from acc l).
Proof.
  induction l as [|y l IH]; intros acc Hacc; [exact Hacc|].
  rewrite first_seen_from_cons. apply IH. case_bool_decide; [exact Hacc|].
  apply NoDup_app. split; [exact Hacc|]. split; [set_solver|]. apply NoDup_singleton.
Qed.

Lemma first_seen_from_extends l : forall acc, exists t, first_seen_from acc l = acc ++ t.
Proof.
  induction l as [|y l IH]; intros acc.
  - exists []. now rewrite app_nil_r.
  - rewrite first_seen_from_cons. case_bool_decide; [apply IH|].
    destruct (IH (acc ++ [y])) as [t Ht]. exists (y :: t).
    rewrite Ht. now rewrite <- app_assoc.
Qed.

Lemma elem_of_first_seen l x : x ∈ first_seen l <-> x ∈ l.
Proof. unfold first_seen. rewrite elem_of_first_seen_from. set_solver. Qed.

Lemma NoDup_first_seen l : NoDup (first_seen l).
Proof. apply NoDup_first_seen_from. constructor. Qed.

Lemma first_seen_cons x l : exists t, first_seen (x :: l) = x :: t.
Proof.
  unfold first_seen. rewrite first_seen_from_cons.
  rewrite bool_decide_eq_false_2 by set_solver.
  apply (first_seen_from_extends l [x]).
Qed.

End FirstSeen.

(** *** Slices *)

Lemma slice_to_nonneg {A} (l : list A) (n : Z) :
  (0 <= n)%Z -> slice_to l n = take (Z.to_nat n) l.
Proof.
  intros H. unfold slice_to. apply Z.leb_le in H. now rewrite H.
Qed.

Lemma In_take {A} (n : nat) (l : list A) x : In x (take n l) -> In x l.
Proof.
  intros H. rewrite <- (firstn_skipn n l). apply in_or_app. now left.
Qed.

Lemma slice_to_incl {A} (l : list A) (n : Z) x : In x (slice_to l n) -> In x l.
Proof.
  unfold slice_to. destruct (0 <=? n)%Z; apply In_take.
Qed.

Lemma slice_to_nil {A} (n : Z) : slice_to (@nil A) n = [].
Proof. unfold slice_to. destruct (0 <=? n)%Z; apply firstn_nil. Qed.

(** *** The stable descending sort *)

Section Sort.
Context {A : Type} (key : A -> Q).

Lemma insert_desc_perm x l : Permutation (x :: l) (insert_desc key x l).
Proof.
  induction l as [|y t IH]; simpl; [reflexivity|].
  destruct (Qle_bool (key y) (key x)); [reflexivity|].
  rewrite perm_swap. now apply perm_skip.
Qed.

Lemma sorted_desc_perm l : Permutation l (sorted_desc key l).
Proof.
  induction l as [|x l IH]; simpl; [reflexivity|].
  rewrite <- insert_desc_perm. now apply perm_skip.
Qed.

Lemma sorted_desc_In l x : In x (sorted_desc key l) <-> In x l.
Proof.
  split; apply Permutation_in; [symmetry|]; apply sorted_desc_perm.
Qed.

Lemma sorted_desc_length l : length (sorted_desc key l) = length l.
Proof. symmetry. apply Permutation_length, sorted_desc_perm. Qed.

Variable pos : A -> nat.

Lemma before_first x y :
  (key y <= key x)%Q -> pos x < pos y -> before key pos x y.
Proof.
  intros Hle Hpos. apply Qle_lteq in Hle as [Hlt|Heq]; [now left|].
  right. split; [now symmetry | exact Hpos].
Qed.

Lemma before_le a b : before key pos a b -> (key b <= key a)%Q.
Proof.
  intros [Hlt|[Heq _]]; [now apply Qlt_le_weak|]. rewrite Heq. apply Qle_refl.
Qed.

Lemma insert_desc_sorted x l :
  Forall (fun y => pos x < pos y) l ->
  StronglySorted (before key pos) l ->
  StronglySorted (before key pos) (insert_desc key x l).
Proof.
  intros Hpos Hs. induction Hs as [|y t Hst IH Hy]; simpl.
  - constructor; [constructor|constructor].
  - apply Forall_cons in Hpos as [Hxy Hxt].
    destruct (Qle_bool (key y) (key x)) eqn:E.
    + apply Qle_bool_iff in E.
      constructor; [constructor; assumption|].
      constructor; [now apply before_first|].
      rewrite List.Forall_forall in Hy, Hxt |- *. intros z Hz.
      apply before_first; [|now apply Hxt].
      apply Qle_trans with (key y); [|exact E]. apply before_le. now apply Hy.
    + assert (Hlt : (key x < key y)%Q).
      { apply Qnot_le_lt. intros Hle. apply Qle_bool_iff in Hle. congruence. }
      constructor; [now apply IH|].
      rewrite List.Forall_forall in Hy |- *. intros z Hz.
      apply (Permutation_in _ (Permutation_sym (insert_desc_perm x t))) in Hz.
      destruct Hz as [<-|Hz]; [now left | now apply Hy].
Qed.

End Sort.

Lemma StronglySorted_weaken {A} (R R' : A -> A -> Prop) (l : list A) :
  (forall a b, In a l -> In b l -> R a b -> R' a b) ->
  StronglySorted R l -> StronglySorted R' l.
Proof.
  intros H Hs. induction Hs as [|x t Hst IH Hx]; constructor.
  - apply IH. intros a b Ha Hb. apply H; now right.
  - rewrite List.Forall_forall in Hx |- *. intros z Hz.
    apply H; [now left | now right | now apply Hx].
Qed.

Lemma position_head key keys : position key (key :: keys) = 0.
Proof. simpl. now rewrite String.eqb_refl. Qed.

Lemma position_tail key k' keys :
  key <> k' -> position key (k' :: keys) = S (position key keys).
Proof. intros H. simpl. apply String.eqb_neq in H. now rewrite H. Qed.

(** Stability: the sorted list is descending in the key, and entries
    with equal keys stand in the order of their identifiers in the input. *)
Lemma sorted_desc_stable {A} (key : A -> Q) (ident : A -> string) (l : list A) :
  NoDup (map ident l) ->
  StronglySorted (before key (fun a => position (ident a) (map ident l)))
                 (sorted_desc key l).
Proof.
  induction l as [|x l IH]; intros Hnd; [constructor|].
  cbn [map] in *. apply NoDup_cons in Hnd as [Hx Hnd].
  cbn [sorted_desc fold_right].
  assert (Hne : forall y, In y l -> ident y <> ident x).
  { intros y Hy E. apply Hx. rewrite <- E. apply list_elem_of_In.
    now apply in_map. }
  apply insert_desc_sorted.
  - rewrite List.Forall_forall. intros y Hy. apply sorted_desc_In in Hy.
    rewrite position_head, position_tail by now apply Hne. lia.
  - eapply StronglySorted_weaken; [|apply IH, Hnd].
    intros a b Ha Hb. apply sorted_desc_In in Ha, Hb.
    unfold before. rewrite !position_tail by now apply Hne.
    intros [H|[H1 H2]]; [now left | right; split; [exact H1 | lia]].
Qed.

End PyFacts.

(** ** Tokenizer *)

Module TokenizerFacts.
Import Tokenizer.

(** Facts about single code points are settled by running through the
    256 of them. *)
Ltac by_cases_on c :=
  destruct c as [[] [] [] [] [] [] [] []]; vm_compute; intros; try reflexivity; try discriminate.

Lemma digit_not_sigil c : re_d c = true -> is_sigil c = false.
Proof. by_cases_on c. Qed.

Lemma digit_not_space c : re_d c = true -> re_s c = false.
Proof. by_cases_on c. Qed.

Lemma digit_is_word c : re_d c = true -> re_w c = true.
Proof. by_cases_on c. Qed.

Lemma digit_isdigit c : re_d c = true -> isdigit_char c = true.
Proof. by_cases_on c. Qed.

Lemma digit_lower c : re_d c = true -> lower_char c = c.
Proof. by_cases_on c. Qed.

Lemma space_not_sigil c : re_s c = true -> is_sigil c = false.
Proof. by_cases_on c. Qed.

Lemma space_lower c : re_s c = true -> lower_char c = c.
Proof. by_cases_on c. Qed.

Lemma word_not_sigil c : re_w c = true -> is_sigil c = false.
Proof. by_cases_on c. Qed.

Lemma lower_keeps_digit_class c : re_d (lower_char c) = re_d c.
Proof. by_cases_on c. Qed.

Lemma is_sigil_eq c : is_sigil c = true -> c = sigil.
Proof. by_cases_on c. Qed.

Lemma span_exact p (A R : str) :
  forallb p A = true -> stops p R -> span p (A ++ R) = A.
Proof.
  induction A as [|a A IH]; simpl; intros HA HR.
  - destruct R as [|c R]; simpl in *; [reflexivity | now rewrite HR].
  - apply andb_prop in HA as [Ha HA]. rewrite Ha. f_equal. now apply IH.
Qed.

Lemma span_prefix p (A T : str) :
  stops p T -> T <> [] -> exists A2, A = span p (A ++ T) ++ A2.
Proof.
  intros HT HNE. induction A as [|a A IH]; simpl.
  - destruct T as [|c R]; [congruence|]. simpl in *. rewrite HT. now exists [].
  - destruct (p a).
    + destruct IH as [A2 E]. exists A2. simpl. now f_equal.
    + now exists (a :: A).
Qed.

Lemma span_bound p (A T : str) :
  stops p T -> T <> [] -> length (span p (A ++ T)) <= length A.
Proof.
  intros HT HNE. destruct (span_prefix p A T HT HNE) as [A2 E].
  rewrite E at 2. rewrite length_app. lia.
Qed.

Section Scan.
Context {B : Type} (m : str -> option (list B * nat)) (u : ascii -> list B).

Lemma re_scan_reaches (T : str) :
  ends_before m T ->
  forall X skip, skip <= length X ->
    exists out, re_scan m u skip (X ++ T) = out ++ re_scan m u 0 T.
Proof.
  intros HT X. induction X as [|a X IH]; intros skip Hs; simpl in *.
  - assert (skip = 0) as -> by lia. now exists [].
  - destruct skip as [|n].
    + destruct (m (a :: X ++ T)) as [[out len]|] eqn:E.
      * apply HT in E. destruct (IH (len - 1)) as [o Ho]; [lia|].
        exists (out ++ o). rewrite Ho. now rewrite <- app_assoc.
      * destruct (IH 0) as [o Ho]; [lia|].
        exists (u a ++ o). rewrite Ho. now rewrite <- app_assoc.
    + apply IH. lia.
Qed.

Lemma re_scan_skips (A Y : str) :
  re_scan m u (length A) (A ++ Y) = re_scan m u 0 Y.
Proof.
  induction A as [|a A IH]; simpl; [|exact IH].
  destruct Y; reflexivity.
Qed.

End Scan.

(** *** [re.sub]: the sigil is joined to its digits *)

Lemma sub_ends_before_sigil R : ends_before match_sigil_ws_digits (sigil :: R).
Proof.
  intros a A out len. unfold match_sigil_ws_digits.
  destruct (is_sigil a); [|discriminate].
  assert (Hs : stops re_s (sigil :: R)) by reflexivity.
  assert (Hd : stops re_d (sigil :: R)) by reflexivity.
  destruct (span_prefix re_s A (sigil :: R) Hs) as [A2 E]; [discriminate|].
  set (ws := span re_s (A ++ sigil :: R)) in *.
  assert (Hdrop : skipn (length ws) (A ++ sigil :: R) = A2 ++ sigil :: R).
  { rewrite E at 1. rewrite <- app_assoc. rewrite skipn_app, skipn_all.
    replace (length ws - length ws) with 0 by lia. reflexivity. }
  rewrite Hdrop.
  pose proof (span_bound re_d A2 (sigil :: R) Hd ltac:(discriminate)) as Hb.
  destruct ws as [|w ws']; [discriminate|].
  destruct (span re_d (A2 ++ sigil :: R)) as [|d ds'] eqn:Eds; [discriminate|].
  intros [= <- <-]. rewrite E. rewrite length_app. simpl in *. lia.
Qed.

Lemma join_sigil_plain (A Y : str) :
  forallb (fun c => negb (is_sigil c)) A = true ->
  re_scan match_sigil_ws_digits (fun c => [c]) 0 (A ++ Y)
  = A ++ re_scan match_sigil_ws_digits (fun c => [c]) 0 Y.
Proof.
  induction A as [|a A IH]; intros HA; [reflexivity|].
  simpl in HA. apply andb_prop in HA as [Ha HA].
  cbn [app re_scan]. unfold match_sigil_ws_digits at 1.
  destruct (is_sigil a); [discriminate|]. simpl. f_equal. now apply IH.
Qed.

Lemma forallb_impl {A} (p q : A -> bool) (l : list A) :
  (forall x, p x = true -> q x = true) -> forallb p l = true -> forallb q l = true.
Proof.
  intros H. induction l as [|x l IH]; simpl; [trivial|].
  intros Hp. apply andb_prop in Hp as [Hx Hl]. rewrite (H _ Hx). now apply IH.
Qed.

Lemma digits_no_sigil ds :
  forallb re_d ds = true -> forallb (fun c => negb (is_sigil c)) ds = true.
Proof.
  apply forallb_impl. intros x Hx. now rewrite (digit_not_sigil _ Hx).
Qed.

(** The head of the substituted text is a digit only if the head of the
    text is. *)
Lemma join_sigil_stops Y :
  stops re_d Y -> stops re_d (re_scan match_sigil_ws_digits (fun c => [c]) 0 Y).
Proof.
  destruct Y as [|c Y]; [trivial|]. intros Hc. cbn [re_scan].
  destruct (match_sigil_ws_digits (c :: Y)) as [[out len]|] eqn:E.
  - unfold match_sigil_ws_digits in E. destruct (is_sigil c); [|discriminate].
    destruct (span re_s Y); [discriminate|].
    destruct (span re_d _); [discriminate|].
    injection E as <- <-. reflexivity.
  - exact Hc.
Qed.

Lemma join_sigil_at_pattern (ws ds Y : str) :
  forallb re_s ws = true -> forallb re_d ds = true -> ds <> [] -> stops re_d Y ->
  re_scan match_sigil_ws_digits (fun c => [c]) 0 (sigil :: ws ++ ds ++ Y)
  = sigil :: ds ++ re_scan match_sigil_ws_digits (fun c => [c]) 0 Y.
Proof.
  intros Hws Hds Hne HY.
  assert (Hstop_s : stops re_s (ds ++ Y)).
  { destruct ds as [|d ds']; [congruence|]. simpl in *.
    apply andb_prop in Hds as [Hd _]. now apply digit_not_space. }
  cbn [re_scan]. unfold match_sigil_ws_digits at 1.
  change (is_sigil sigil) with true. cbv iota.
  rewrite (span_exact re_s ws (ds ++ Y) Hws Hstop_s).
  rewrite skipn_app, skipn_all. replace (length ws - length ws) with 0 by lia.
  rewrite skipn_O, app_nil_l, (span_exact re_d ds Y Hds HY).
  destruct ws as [|w ws'].
  - (* "§230": nothing to substitute, the characters are copied *)
    cbn [app]. f_equal. apply join_sigil_plain. now apply digits_no_sigil.
  - destruct ds as [|d ds']; [congruence|].
    cbn [app]. f_equal. f_equal.
    replace (1 + length (w :: ws') + length (d :: ds') - 1)
      with (length ((w :: ws') ++ (d :: ds'))) by (rewrite length_app; simpl; lia).
    replace (w :: ws' ++ d :: ds' ++ Y) with (((w :: ws') ++ d :: ds') ++ Y)
      by (now rewrite <- app_assoc).
    now rewrite re_scan_skips.
Qed.

(** *** [re.findall]: the joined sigil and digits form one raw token *)

Lemma findall_ends_before_sigil R : ends_before match_token (sigil :: R).
Proof.
  intros a A out len. unfold match_token, match_sigil_digits, match_word.
  assert (Hd : stops re_d (sigil :: R)) by reflexivity.
  assert (Hw : stops re_w (sigil :: R)) by reflexivity.
  pose proof (span_bound re_d A (sigil :: R) Hd ltac:(discriminate)) as Hbd.
  pose proof (span_bound re_w A (sigil :: R) Hw ltac:(discriminate)) as Hbw.
  destruct (is_sigil a) eqn:Ea.
  - destruct (span re_d (A ++ sigil :: R)) as [|d ds'] eqn:Ed.
    + cbn [span]. destruct (re_w a) eqn:Ew; [|discriminate].
      now rewrite (word_not_sigil _ Ew) in Ea.
    + intros [= <- <-]. simpl in *. lia.
  - cbn [span]. destruct (re_w a); [|discriminate].
    intros [= <- <-]. simpl. lia.
Qed.

Lemma findall_at_sigil (ds Z : str) :
  forallb re_d ds = true -> ds <> [] -> stops re_d Z ->
  re_scan match_token (fun _ => []) 0 (sigil :: ds ++ Z)
  = (sigil :: ds) :: re_scan match_token (fun _ => []) 0 Z.
Proof.
  intros Hds Hne HZ. cbn [re_scan]. unfold match_token at 1, match_sigil_digits.
  change (is_sigil sigil) with true. cbv iota.
  rewrite (span_exact re_d ds Z Hds HZ).
  destruct ds as [|d ds']; [congruence|].
  cbn [app length]. f_equal.
  replace (S (S (length ds')) - 1) with (length (d :: ds')) by (simpl; lia).
  change (d :: ds' ++ Z) with ((d :: ds') ++ Z).
  now rewrite re_scan_skips.
Qed.

(** *** The token loop *)

Lemma expand_sigil_token ds :
  forallb re_d ds = true -> ds <> [] -> expand_token (sigil :: ds) = [sigil :: ds; ds].
Proof.
  intros Hds Hne. unfold expand_token. change (is_sigil sigil) with true. cbv iota.
  replace (isdigit ds) with true; [reflexivity|].
  symmetry. destruct ds as [|d ds']; [congruence|]. unfold isdigit.
  revert Hds. apply forallb_impl. apply digit_isdigit.
Qed.

Lemma lower_pattern (pre ws ds post : str) :
  forallb re_s ws = true -> forallb re_d ds = true ->
  lower (pre ++ sigil :: ws ++ ds ++ post)
  = lower pre ++ sigil :: ws ++ ds ++ lower post.
Proof.
  intros Hws Hds. unfold lower. rewrite map_app. cbn [map]. rewrite !map_app.
  change (lower_char sigil) with sigil.
  assert (Hfix : forall (p : ascii -> bool) (l : str),
             (forall c, p c = true -> lower_char c = c) ->
             forallb p l = true -> map lower_char l = l).
  { intros p l Hp. induction l as [|c l IH]; simpl; [trivial|].
    intros H. apply andb_prop in H as [Hc Hl]. rewrite (Hp _ Hc). f_equal. now apply IH. }
  rewrite (Hfix re_s ws space_lower Hws), (Hfix re_d ds digit_lower Hds). reflexivity.
Qed.

Lemma lower_stops post : stops re_d post -> stops re_d (lower post).
Proof.
  destruct post as [|c post]; [trivial|]. simpl. now rewrite lower_keeps_digit_class.
Qed.

(** The sigil pattern yields the joined token directly followed by the
    bare digits. *)
Lemma tokenize_pattern (pre ws ds post : str) :
  forallb re_s ws = true -> forallb re_d ds = true -> ds <> [] -> stops re_d post ->
  exists before after,
    _tokenize_text (pre ++ sigil :: ws ++ ds ++ post)
    = before ++ (sigil :: ds) :: ds :: after.
Proof.
  intros Hws Hds Hne Hpost. unfold _tokenize_text, raw_tokens, join_sigil.
  rewrite (lower_pattern pre ws ds post Hws Hds).
  destruct (re_scan_reaches match_sigil_ws_digits (fun c => [c])
              (sigil :: ws ++ ds ++ lower post) (sub_ends_before_sigil _)
              (lower pre) 0 ltac:(lia)) as [out1 E1].
  rewrite E1.
  rewrite (join_sigil_at_pattern ws ds (lower post) Hws Hds Hne (lower_stops _ Hpost)).
  set (Z := re_scan match_sigil_ws_digits (fun c => [c]) 0 (lower post)).
  assert (HZ : stops re_d Z) by (apply join_sigil_stops, lower_stops, Hpost).
  destruct (re_scan_reaches match_token (fun _ => [])
              (sigil :: ds ++ Z) (findall_ends_before_sigil _)
              out1 0 ltac:(lia)) as [out2 E2].
  rewrite E2. rewrite (findall_at_sigil ds Z Hds Hne HZ).
  rewrite flat_map_app. cbn [flat_map].
  rewrite (expand_sigil_token ds Hds Hne).
  eexists _, _. cbn [app]. reflexivity.
Qed.

(** C8. Whenever the text holds the sigil, then any amount of white space
    (none included), then a run of digits that ends there, the tokens
    contain the joined token -- sigil directly followed by the digits -- and
    the bare digit sequence as a token of its own. *)
Theorem sigil_digits_yield_joined_and_bare_token (pre ws ds post : str) :
  forallb re_s ws = true ->
  forallb re_d ds = true ->
  ds <> [] ->
  stops re_d post ->
  In (sigil :: ds) (_tokenize_text (pre ++ sigil :: ws ++ ds ++ post)) /\
  In ds (_tokenize_text (pre ++ sigil :: ws ++ ds ++ post)).
Proof.
  intros Hws Hds Hne Hpost.
  destruct (tokenize_pattern pre ws ds post Hws Hds Hne Hpost) as (before & after & ->).
  split; apply in_or_app; right; [left | right; left]; reflexivity.
Qed.

Lemma sigil_digits_yield_joined_and_bare_token_witness :
  In (sigil :: lit "230")
     (_tokenize_text (lit "siehe " ++ sigil :: lit " " ++ lit "230" ++ lit " BGB")) /\
  In (lit "230")
     (_tokenize_text (lit "siehe " ++ sigil :: lit " " ++ lit "230" ++ lit " BGB")).
Proof.
  apply (sigil_digits_yield_joined_and_bare_token
           (lit "siehe ") (lit " ") (lit "230") (lit " BGB"));
    [reflexivity | reflexivity | discriminate | reflexivity].
Defined.

Example tokenize_joined_form :
  _tokenize_text (sigil :: lit "230 Abs. 2")
  = [sigil :: lit "230"; lit "230"; lit "abs"; lit "2"].
Proof. vm_compute. reflexivity. Qed.

Example tokenize_spaced_form :
  _tokenize_text (sigil :: lit "  230")
  = [sigil :: lit "230"; lit "230"].
Proof. vm_compute. reflexivity. Qed.

(** What the loop adds for a token of two or more decimal digits: its
    digits other than "0", one by one. *)
Lemma expand_numeric_token (token : str) :
  forallb re_d token = true ->
  1 < length token ->
  expand_token token
  = token :: map (fun d => [d])
                 (List.filter (fun d => negb (code d =? code zero)%N) token).
Proof.
  intros Hd Hlen. unfold expand_token.
  destruct token as [|c number]; [cbn in Hlen; lia|].
  assert (Hc : re_d c = true) by (cbn in Hd; now apply andb_prop in Hd as [? _]).
  rewrite (digit_not_sigil c Hc).
  assert (Hdig : isdigit (c :: number) = true).
  { unfold isdigit. revert Hd. apply forallb_impl, digit_isdigit. }
  rewrite Hdig. apply Nat.ltb_lt in Hlen as Hlt. rewrite Hlt. cbn [andb].
  f_equal. f_equal. apply List.filter_ext. intros d.
  replace (length (c :: number) =? 1) with false; [apply orb_false_r|].
  symmetry. apply Nat.eqb_neq. lia.
Qed.

(** C9. The numeric token "105" is emitted whole and followed by "1" and
    "5" only: the digit "0", although it is not a leading zero, is not
    emitted.  The test in the loop drops every zero of a multi-digit
    token, wherever it stands. *)
Theorem numeric_token_loses_inner_zero :
  _tokenize_text (lit "105") = [lit "105"; lit "1"; lit "5"] /\
  ~ In (lit "0") (_tokenize_text (lit "105")).
Proof.
  split; [vm_compute; reflexivity|].
  vm_compute. intros [H|[H|[H|[]]]]; discriminate H.
Qed.

Example tokenize_leading_zeros :
  _tokenize_text (lit "007") = [lit "007"; lit "7"].
Proof. vm_compute. reflexivity. Qed.

End TokenizerFacts.

(** ** Lexical index *)

Module BM25Facts.
Import Tokenizer.
Import BM25.

Lemma consistent_in_range self i idx :
  consistent self -> node_id_map self !! i = Some idx -> idx < length (nodes self).
Proof.
  intros Hc Hi. apply Hc in Hi as (node & Hn & _). now apply lookup_lt_Some in Hn.
Qed.

(** What one pass of the loop body does to a consistent index. *)
Lemma upsert_consistent self node :
  consistent self ->
  exists self',
    upsert self node = Returned self' /\
    consistent self' /\
    bm25_index self' = bm25_index self /\
    match node_id_map self !! id_ node with
    | Some idx =>
        length (nodes self') = length (nodes self) /\
        nodes self' !! idx = Some node /\
        (forall j, j <> idx -> nodes self' !! j = nodes self !! j) /\
        node_id_map self' = node_id_map self
    | None =>
        nodes self' = nodes self ++ [node] /\
        node_id_map self' = <[id_ node := length (nodes self)]> (node_id_map self)
    end.
Proof.
  intros Hc. unfold upsert.
  destruct (node_id_map self !! id_ node) as [idx|] eqn:Hlook.
  - pose proof (consistent_in_range _ _ _ Hc Hlook) as Hlt.
    apply Nat.ltb_lt in Hlt as Hltb. rewrite Hltb.
    eexists. split; [reflexivity|]. cbn.
    split; [|split; [reflexivity|]].
    + intros i j. cbn. destruct (decide (j = idx)) as [->|Hne].
      * rewrite list_lookup_insert_eq by exact Hlt. split.
        -- intros Hi. exists node. split; [reflexivity|].
           apply Hc in Hi as (n1 & Hn1 & <-).
           apply Hc in Hlook as (n2 & Hn2 & <-). congruence.
        -- intros (n & [= <-] & <-). exact Hlook.
      * rewrite list_lookup_insert_ne by congruence. apply Hc.
    + rewrite length_insert. split; [reflexivity|].
      split; [now apply list_lookup_insert_eq|].
      split; [|reflexivity].
      intros j Hj. now apply list_lookup_insert_ne.
  - eexists. split; [reflexivity|]. cbn.
    assert (Hlen : length (nodes self ++ [node]) - 1 = length (nodes self))
      by (rewrite length_app; simpl; lia).
    rewrite Hlen.
    split; [|split; [reflexivity|split; reflexivity]].
    intros i j. cbn. destruct (decide (id_ node = i)) as [<-|Hne].
    + rewrite lookup_insert_eq. split.
      * intros [= <-]. exists node. split; [|reflexivity].
        rewrite lookup_app_r by lia. now rewrite Nat.sub_diag.
      * intros (n & Hn & Hid).
        destruct (decide (j < length (nodes self))) as [Hlt|Hge].
        -- rewrite lookup_app_l in Hn by exact Hlt.
           assert (node_id_map self !! id_ node = Some j) by (apply Hc; eauto).
           congruence.
        -- apply lookup_lt_Some in Hn. rewrite length_app in Hn. simpl in Hn.
           f_equal. lia.
    + rewrite lookup_insert_ne by exact Hne. split.
      * intros Hi. apply Hc in Hi as (n & Hn & Hid). exists n. split; [|exact Hid].
        rewrite lookup_app_l; [exact Hn|]. now apply lookup_lt_Some in Hn.
      * intros (n & Hn & Hid).
        destruct (decide (j < length (nodes self))) as [Hlt|Hge].
        -- rewrite lookup_app_l in Hn by exact Hlt. apply Hc. eauto.
        -- pose proof Hn as Hn'. apply lookup_lt_Some in Hn'.
           rewrite length_app in Hn'. simpl in Hn'.
           assert (j = length (nodes self)) as -> by lia.
           rewrite lookup_app_r in Hn by lia. rewrite Nat.sub_diag in Hn.
           injection Hn as <-. congruence.
Qed.

(** The loop never raises on a consistent index and keeps it consistent. *)
Lemma upsert_all_consistent new_nodes : forall self,
  consistent self ->
  exists self', upsert_all self new_nodes = Returned self' /\ consistent self'.
Proof.
  induction new_nodes as [|node rest IH]; intros self Hc; simpl.
  - now exists self.
  - destruct (upsert_consistent self node Hc) as (s1 & E1 & Hc1 & _).
    rewrite E1. cbn. now apply IH.
Qed.

Lemma empty_manager_consistent : consistent empty_manager.
Proof.
  intros i idx. cbn. rewrite lookup_empty. split; [discriminate|].
  intros (n & Hn & _). discriminate.
Qed.

Lemma tokenless_false corpus_tokens :
  tokenless corpus_tokens = false <-> exists document, In document corpus_tokens /\ document <> [].
Proof.
  unfold tokenless. induction corpus_tokens as [|d t IH]; cbn.
  - split; [discriminate|]. intros (x & [] & _).
  - destruct d as [|c d']; cbn.
    + rewrite IH. split.
      * intros (x & Hx & Hne). exists x. auto.
      * intros (x & [<-|Hx] & Hne); [congruence|]. exists x. auto.
    + split; [|reflexivity]. intros _. exists (c :: d'). split; [now left | discriminate].
Qed.

(** A chunk that yields a token makes the corpus scorable. *)
Lemma corpus_has_token self node :
  In node (nodes self) -> _tokenize_text (text node) <> [] ->
  tokenless (corpus_of self) = false.
Proof.
  intros Hin Hne. apply tokenless_false. exists (_tokenize_text (text node)).
  split; [|exact Hne]. unfold corpus_of.
  now apply (in_map (fun node => _tokenize_text (text node))).
Qed.

Lemma rebuild_spec self :
  rebuild self
  = if tokenless (corpus_of self) then Raised ZeroDivisionError
    else Returned {| bm25_index := Some (corpus_of self);
                     nodes := nodes self;
                     node_id_map := node_id_map self |}.
Proof. unfold rebuild, bm25_okapi. now destruct (tokenless (corpus_of self)). Qed.

Lemma rebuild_returned self self' :
  rebuild self = Returned self' ->
  tokenless (corpus_of self) = false /\
  bm25_index self' = Some (corpus_of self) /\
  nodes self' = nodes self /\
  node_id_map self' = node_id_map self.
Proof.
  rewrite rebuild_spec. destruct (tokenless (corpus_of self)); [discriminate|].
  intros [= <-]. auto.
Qed.

Lemma rebuild_consistent self self' :
  consistent self -> rebuild self = Returned self' -> consistent self'.
Proof.
  intros Hc E. apply rebuild_returned in E as (_ & _ & Hn & Hm).
  intros i idx. rewrite Hn, Hm. apply Hc.
Qed.

(** Starting from the empty manager, or from a file an earlier call
    saved, every state [add_nodes] returns is consistent. *)
Lemma add_nodes_keeps_consistent io_ok file self new_nodes self' file' :
  consistent self ->
  consistent (loaded file self) ->
  add_nodes io_ok file self new_nodes = Returned (self', file') ->
  consistent self' /\
  (io_ok = true -> new_nodes <> [] -> file' = Pickled self').
Proof.
  intros Hself Hloaded. unfold add_nodes.
  destruct new_nodes as [|node rest].
  - intros [= <- <-]. split; [exact Hself | congruence].
  - destruct (upsert_all_consistent (node :: rest) _ Hloaded) as (s1 & E & Hc).
    rewrite E. cbn [mbind outcome_bind Py.bind].
    destruct (rebuild s1) as [s2|] eqn:Er; [|discriminate].
    intros [= <- <-]. split; [exact (rebuild_consistent s1 s2 Hc Er)|]. now intros ->.
Qed.


Lemma two_docs_consistent : consistent two_docs.
Proof.
  intros i idx. cbn. split.
  - intros H. destruct (decide (i = "a")) as [->|Ha].
    + rewrite lookup_insert_eq in H. injection H as <-. now exists (doc "a" "alpha").
    + rewrite lookup_insert_ne in H by congruence.
      destruct (decide (i = "b")) as [->|Hb].
      * rewrite lookup_insert_eq in H. injection H as <-. now exists (doc "b" "beta").
      * rewrite lookup_insert_ne, lookup_empty in H by congruence. discriminate.
  - intros (n & Hn & <-).
    destruct idx as [|[|idx]]; cbn in Hn; try discriminate; injection Hn as <-; reflexivity.
Qed.


(** A chunk without any token, added to an empty index: the scoring
    library's constructor raises. *)
Example add_nodes_tokenless_raises :
  add_nodes true Absent empty_manager [doc "a" "!!!"] = Raised ZeroDivisionError.
Proof. vm_compute. reflexivity. Qed.

Example add_nodes_sample_returns :
  (fun o => match o with
            | Returned (s, _) => map id_ (nodes s)
            | Raised _ => []
            end)
    (add_nodes true Absent two_docs [doc "b" "gamma"; doc "c" "delta"])
  = ["a"; "b"; "c"]%string.
Proof. vm_compute. reflexivity. Qed.

End BM25Facts.

(** ** Merging the per-collection lists *)

Module MergeFacts.
Import Tokenizer.
Import Engine.
Import PyFacts.

Lemma bucket_snoc all r name :
  bucket (all ++ [r]) name
  = bucket all name ++ (if String.eqb (collection_name r) name then [r] else []).
Proof. unfold bucket. now rewrite List.filter_app. Qed.

Lemma bucket_absent all name :
  name ∉ map collection_name all -> bucket all name = [].
Proof.
  induction all as [|r all IH]; intros Hn; [reflexivity|].
  cbn in *. apply not_elem_of_cons in Hn as [Hne Hn].
  destruct (String.eqb_spec (collection_name r) name); [congruence|]. now apply IH.
Qed.

Lemma bucket_length all name : length (bucket all name) <= length all.
Proof. apply List.filter_length_le. Qed.

(** Filing one result into a dict whose keys are distinct. *)
Lemma add_to_collection_map r (B : string -> list QueryResult) (cs : list string) :
  NoDup cs ->
  add_to_collection r (map (fun n => (n, B n)) cs)
  = map (fun n => (n, B n ++ (if String.eqb (collection_name r) n then [r] else []))) cs
    ++ (if bool_decide (collection_name r ∈ cs) then [] else [(collection_name r, [r])]).
Proof.
  induction cs as [|c cs IH]; intros Hnd; [reflexivity|].
  apply NoDup_cons in Hnd as [Hc Hnd]. cbn [map add_to_collection].
  destruct (String.eqb_spec (collection_name r) c) as [E|NE].
  - rewrite bool_decide_eq_true_2 by (rewrite E; left).
    rewrite app_nil_r. f_equal. apply map_ext_in. intros n Hn.
    destruct (String.eqb_spec (collection_name r) n) as [E'|_];
      [|now rewrite app_nil_r].
    exfalso. apply Hc. rewrite <- E, E'. now apply list_elem_of_In.
  - rewrite IH by exact Hnd. rewrite app_nil_r. cbn [app]. f_equal.
    rewrite (bool_decide_ext (collection_name r ∈ c :: cs) (collection_name r ∈ cs));
      [reflexivity|].
    rewrite elem_of_cons. intuition congruence.
Qed.

(** The dict holds the collections in first-seen order, each with its
    results in arrival order. *)
Lemma group_by_collection_spec all :
  group_by_collection all
  = map (fun n => (n, bucket all n)) (collections_seen all).
Proof.
  induction all as [|r all IH] using rev_ind; [reflexivity|].
  unfold group_by_collection in *. rewrite fold_left_app. cbn [fold_left].
  rewrite IH. rewrite add_to_collection_map by apply NoDup_first_seen.
  unfold collections_seen, first_seen. rewrite map_app. cbn [map].
  rewrite first_seen_from_snoc. fold (first_seen (map collection_name all)).
  assert (Hmap : map (fun n => (n, bucket all n ++
                                     (if String.eqb (collection_name r) n then [r] else [])))
                     (first_seen (map collection_name all))
                 = map (fun n => (n, bucket (all ++ [r]) n))
                       (first_seen (map collection_name all))).
  { apply map_ext. intros n. now rewrite bucket_snoc. }
  rewrite Hmap. case_bool_decide as Hin.
  - now rewrite app_nil_r.
  - rewrite map_app. cbn [map]. f_equal. f_equal. f_equal.
    rewrite bucket_snoc, String.eqb_refl.
    rewrite bucket_absent; [reflexivity|]. now rewrite elem_of_first_seen in Hin.
Qed.

Lemma row_items_spec all i :
  row_items i (group_by_collection all) = round all i.
Proof.
  rewrite group_by_collection_spec. unfold row_items, round.
  induction (collections_seen all) as [|c cs IH]; [reflexivity|].
  cbn [map flat_map]. now rewrite IH.
Qed.

Lemma len_ge_nat {A} (l : list A) (n : nat) :
  len_ge l (Z.of_nat n) = (n <=? length l).
Proof.
  unfold len_ge. destruct (Nat.leb_spec n (length l)).
  - apply Z.leb_le. lia.
  - apply Z.leb_gt. lia.
Qed.

Section Loops.
Variable n : nat.

(** One pass over the collections stops as soon as [n] results are out. *)
Lemma interleave_row_spec i d : forall merged,
  length merged < n ->
  interleave_row i (Z.of_nat n) d merged = take n (merged ++ row_items i d).
Proof.
  induction d as [|[name v] t IH]; intros merged Hlt.
  - cbn. rewrite app_nil_r. symmetry. apply take_ge. lia.
  - cbn [interleave_row row_items flat_map snd].
    fold (row_items i t). rewrite len_ge_nat.
    destruct (v !! i) as [r|].
    + destruct (Nat.leb_spec n (length (merged ++ [r]))) as [Hfull|Hroom].
      * rewrite length_app in Hfull. cbn in Hfull.
        rewrite app_assoc. symmetry. apply take_app_length'.
        rewrite length_app. cbn. lia.
      * rewrite IH by exact Hroom. now rewrite <- !app_assoc.
    + destruct (Nat.leb_spec n (length merged)) as [Hfull|_]; [lia|].
      now apply IH.
Qed.

Lemma interleave_rows_spec d rows : forall merged,
  length merged < n ->
  interleave_rows rows (Z.of_nat n) d merged
  = take n (merged ++ flat_map (fun i => row_items i d) rows).
Proof.
  induction rows as [|i rows IH]; intros merged Hlt.
  - cbn. rewrite app_nil_r. symmetry. apply take_ge. lia.
  - cbn [interleave_rows flat_map]. rewrite len_ge_nat.
    rewrite (interleave_row_spec i d merged Hlt).
    set (X := merged ++ row_items i d).
    rewrite (app_assoc merged). fold X.
    destruct (Nat.leb_spec n (length (take n X))) as [Hfull|Hroom].
    + rewrite length_take in Hfull. symmetry. apply take_app_le. lia.
    + rewrite length_take in Hroom.
      rewrite (take_ge X n) by lia. apply IH. lia.
Qed.

End Loops.

Lemma row_items_exhausted d i : max_len d <= i -> row_items i d = [].
Proof.
  induction d as [|[name v] t IH]; intros Hle; [reflexivity|].
  unfold max_len in *. cbn in *.
  rewrite (lookup_ge_None_2 v i) by lia. apply IH. lia.
Qed.

Lemma max_len_group all : max_len (group_by_collection all) <= length all.
Proof.
  rewrite group_by_collection_spec. unfold max_len.
  induction (collections_seen all) as [|c cs IH]; cbn; [lia|].
  pose proof (bucket_length all c). lia.
Qed.

Lemma flat_map_nil {A B} (f : A -> list B) (l : list A) :
  (forall x, In x l -> f x = []) -> flat_map f l = [].
Proof.
  induction l as [|x l IH]; intros H; [reflexivity|].
  cbn. rewrite (H x) by now left. apply IH. intros y Hy. apply H. now right.
Qed.

(** Rounds past the longest collection add nothing. *)
Lemma rounds_up_to_max_len all :
  flat_map (fun i => row_items i (group_by_collection all))
           (seq 0 (max_len (group_by_collection all)))
  = round_robin all.
Proof.
  unfold round_robin.
  pose proof (max_len_group all) as Hle.
  set (m := max_len (group_by_collection all)) in *.
  replace (length all) with (m + (length all - m)) by lia.
  rewrite seq_app, flat_map_app.
  rewrite (flat_map_nil (round all) (seq (0 + m) _)).
  - rewrite app_nil_r. apply flat_map_ext. intros i. apply row_items_spec.
  - intros i Hi. apply in_seq in Hi. rewrite <- row_items_spec.
    apply row_items_exhausted. fold m. lia.
Qed.

Lemma round_robin_head r rest : exists t, round_robin (r :: rest) = r :: t.
Proof.
  unfold round_robin. cbn [length seq flat_map]. unfold round at 1.
  unfold collections_seen. cbn [map].
  destruct (first_seen_cons (collection_name r) (map collection_name rest)) as [t ->].
  cbn [flat_map]. unfold bucket at 1. cbn [List.filter].
  rewrite String.eqb_refl. cbn. eauto.
Qed.

(** The interleave branch in closed form. *)
Lemma interleave_closed_form all k strategy :
  String.eqb strategy "best" = false ->
  _merge_results all k strategy
  = take (Z.to_nat (Z.max 1 k)) (round_robin all).
Proof.
  intros Hs. unfold _merge_results. rewrite Hs.
  destruct all as [|r rest]; [unfold round_robin; cbn; now rewrite take_nil|].
  set (all := r :: rest).
  destruct (Z_lt_le_dec k 1) as [Hsmall|Hbig].
  - (* the bound is tested only after the first result is out *)
    replace (Z.to_nat (Z.max 1 k)) with 1 by lia.
    destruct (round_robin_head r rest) as [t Ht]. fold all in Ht. rewrite Ht.
    assert (Hd : exists b d', group_by_collection all = (collection_name r, r :: b) :: d').
    { rewrite group_by_collection_spec. unfold all, collections_seen. cbn [map].
      destruct (first_seen_cons (collection_name r) (map collection_name rest)) as [t' ->].
      cbn [map]. unfold bucket at 1. cbn [List.filter]. rewrite String.eqb_refl. eauto. }
    destruct Hd as (b & d' & ->).
    unfold max_len. cbn [map fold_right snd length].
    destruct (Nat.max (S (length b)) _) as [|m] eqn:Em; [lia|].
    cbn [seq interleave_rows interleave_row lookup].
    assert (Hge : len_ge ([] ++ [r]) k = true) by (apply Z.leb_le; cbn; lia).
    cbn in Hge |- *. rewrite Hge. cbn. now rewrite Hge.
  - replace (Z.max 1 k) with k by lia.
    rewrite <- (Z2Nat.id k) at 1 by lia.
    rewrite interleave_rows_spec by (cbn; lia).
    cbn [app]. now rewrite rounds_up_to_max_len.
Qed.

Lemma round_robin_incl all x : In x (round_robin all) -> In x all.
Proof.
  unfold round_robin, round. rewrite in_flat_map. intros (i & _ & Hx).
  rewrite in_flat_map in Hx. destruct Hx as (name & _ & Hx).
  destruct (bucket all name !! i) as [r|] eqn:E; [|contradiction].
  destruct Hx as [<-|[]]. apply list_elem_of_lookup_2 in E.
  apply list_elem_of_In in E. unfold bucket in E. now apply List.filter_In in E.
Qed.

(** Merging never invents a result. *)
Lemma merge_results_incl all k strategy x :
  In x (_merge_results all k strategy) -> In x all.
Proof.
  destruct (String.eqb strategy "best") eqn:Hs.
  - unfold _merge_results. rewrite Hs. destruct all as [|r rest]; [contradiction|].
    intros H. apply slice_to_incl in H. now apply sorted_desc_In in H.
  - rewrite (interleave_closed_form all k strategy Hs). intros H.
    apply In_take in H. now apply round_robin_incl.
Qed.

(** C6. With the interleave strategy the merged list is the round-robin
    sequence -- round after round, one result of every collection that
    still has one, collections in first-seen order -- cut off after
    [resultCount] results, or complete when the collections run out first.
    The bound is tested after a result has been put out, so the first
    result is out before a bound below one is noticed.  For A = [a1, a2, a3],
    B = [b1] and a bound of 4 the output is [a1, b1, a2, a3]. *)
Theorem interleave_is_round_robin :
  (forall (all_results : list QueryResult) (k : Z),
      _merge_results all_results k "interleave"
      = take (Z.to_nat (Z.max 1 k)) (round_robin all_results)) /\
  _merge_results [a1; a2; a3; b1] 4 "interleave" = [a1; b1; a2; a3].
Proof.
  split; [|vm_compute; reflexivity].
  intros all_results k. now apply interleave_closed_form.
Qed.

Example round_robin_sample : round_robin [a1; a2; a3; b1] = [a1; b1; a2; a3].
Proof. vm_compute. reflexivity. Qed.

Example interleave_cut_short : _merge_results [a1; a2; a3; b1] 3 "interleave" = [a1; b1; a2].
Proof. vm_compute. reflexivity. Qed.

(** C10. Any strategy string other than "best" -- documented or not --
    gets the interleave policy: the merged list is the round-robin
    sequence over the collections in first-seen order, one result per
    collection and round, cut after [k] results (after one result when [k]
    is below 1), which is exactly what "interleave" gives; [_merge_results]
    has no raising statement on that path, and on a non-empty input its
    result is non-empty. *)
Theorem unknown_strategy_falls_back_to_interleave
        (strategy : string) (all_results : list QueryResult) (k : Z) :
  strategy <> "best"%string ->
  _merge_results all_results k strategy
  = take (Z.to_nat (Z.max 1 k)) (round_robin all_results) /\
  _merge_results all_results k strategy = _merge_results all_results k "interleave" /\
  (all_results <> [] -> _merge_results all_results k strategy <> []).
Proof.
  intros Hs. apply String.eqb_neq in Hs.
  rewrite (interleave_closed_form all_results k strategy Hs).
  rewrite (interleave_closed_form all_results k "interleave" eq_refl).
  split; [reflexivity|]. split; [reflexivity|]. intros Hne.
  destruct all_results as [|r rest]; [congruence|].
  destruct (round_robin_head r rest) as [t ->].
  destruct (Z.to_nat (Z.max 1 k)) as [|n] eqn:E; [lia|]. discriminate.
Qed.

Lemma unknown_strategy_falls_back_to_interleave_witness :
  _merge_results [a1; a2; a3; b1] 3 "weighted"
  = take (Z.to_nat (Z.max 1 3)) (round_robin [a1; a2; a3; b1]) /\
  _merge_results [a1; a2; a3; b1] 3 "weighted"
  = _merge_results [a1; a2; a3; b1] 3 "interleave" /\
  ([a1; a2; a3; b1] <> [] -> _merge_results [a1; a2; a3; b1] 3 "weighted" <> []).
Proof.
  apply (unknown_strategy_falls_back_to_interleave "weighted" [a1; a2; a3; b1] 3).
  discriminate.
Defined.

Example unknown_strategy_sample :
  _merge_results [a1; a2; a3; b1] 3 "weighted" = [a1; b1; a2].
Proof. vm_compute. reflexivity. Qed.

End MergeFacts.

(** ** Weighted reciprocal rank fusion *)

Module FusionFacts.
Import Tokenizer.
Import Fusion.
Import PyFacts.

(** *** The insertion-ordered dict *)

Lemma has_key_spec key d : has_key key d = bool_decide (key ∈ keys d).
Proof.
  induction d as [|[k' e] t IH]; [reflexivity|]. cbn.
  destruct (String.eqb_spec key k') as [->|NE].
  - symmetry. apply bool_decide_eq_true_2. left.
  - rewrite IH. apply bool_decide_ext. unfold keys. rewrite elem_of_cons. intuition congruence.
Qed.

Lemma keys_update key f d : keys (update key f d) = keys d.
Proof.
  induction d as [|[k' e] t IH]; [reflexivity|]. cbn.
  destruct (String.eqb key k'); cbn; [reflexivity|]. now f_equal.
Qed.

Lemma get_update_eq key f d : get key (update key f d) = f <$> get key d.
Proof.
  induction d as [|[k' e] t IH]; [reflexivity|]. cbn.
  destruct (String.eqb key k') eqn:E; cbn; rewrite E; [reflexivity | exact IH].
Qed.

Lemma get_update_ne key key' f d : key' <> key -> get key' (update key f d) = get key' d.
Proof.
  intros NE. induction d as [|[k' e] t IH]; [reflexivity|]. cbn.
  destruct (String.eqb_spec key k') as [->|NE']; cbn.
  - apply String.eqb_neq in NE. now rewrite NE.
  - destruct (String.eqb key' k'); [reflexivity | exact IH].
Qed.

Lemma get_app key d d2 :
  get key (d ++ d2) = match get key d with
                      | Some e => Some e
                      | None => get key d2
                      end.
Proof.
  induction d as [|[k' e] t IH]; [reflexivity|]. cbn.
  destruct (String.eqb key k'); [reflexivity | exact IH].
Qed.

Lemma get_absent key d : key ∉ keys d -> get key d = None.
Proof.
  induction d as [|[k' e] t IH]; [reflexivity|]. cbn.
  intros Hn. apply not_elem_of_cons in Hn as [NE Hn].
  apply String.eqb_neq in NE. rewrite NE. now apply IH.
Qed.

Lemma get_member key e d : NoDup (keys d) -> In (key, e) d -> get key d = Some e.
Proof.
  induction d as [|[k' e'] t IH]; [contradiction|]. cbn.
  intros Hnd Hin. apply NoDup_cons in Hnd as [Hk Hnd].
  destruct Hin as [[= -> ->]|Hin].
  - now rewrite String.eqb_refl.
  - destruct (String.eqb_spec key k') as [->|NE]; [|now apply IH].
    exfalso. apply Hk. apply list_elem_of_In. change k' with (fst (k', e)).
    now apply in_map.
Qed.

Lemma In_update key f d k' e' :
  In (k', e') (update key f d) ->
  In (k', e') d \/ exists e, In (k', e) d /\ e' = f e.
Proof.
  induction d as [|[k0 e0] t IH]; [contradiction|]. cbn.
  destruct (String.eqb key k0); cbn.
  - intros [[= <- <-]|H]; [right; exists e0; auto | left; auto].
  - intros [H|H]; [left; auto|].
    destruct (IH H) as [H'|(e & He & ->)]; [left; auto | right; exists e; auto].
Qed.

Section WithHash.
Variable md5_hexdigest : str -> string.

Abbreviation node_key := (node_key md5_hexdigest).
Abbreviation result_key := (result_key md5_hexdigest).
Abbreviation well_keyed := (well_keyed md5_hexdigest).
Abbreviation fuse_one := (fuse_one md5_hexdigest).
Abbreviation fuse_ranked := (fuse_ranked md5_hexdigest).
Abbreviation fuse_retrievers := (fuse_retrievers md5_hexdigest).
Abbreviation rank_sum := (rank_sum md5_hexdigest).
Abbreviation rrf_sum := (rrf_sum md5_hexdigest).
Abbreviation seen_keys := (seen_keys md5_hexdigest).

(** *** One step of the accumulation *)

Lemma fuse_one_spec K idx w d rnk nws :
  (Z.of_nat rnk + K <> 0)%Z ->
  well_keyed d ->
  exists d',
    fuse_one K idx w d rnk nws = Returned d' /\
    keys d' = first_seen_from (keys d) [result_key nws] /\
    well_keyed d' /\
    forall key,
      (score_of d' key ==
       score_of d key + (if String.eqb key (result_key nws) then rrf_term K w rnk else 0))%Q.
Proof.
  intros HK Hwk. unfold fuse_one.
  apply Z.eqb_neq in HK. rewrite HK.
  fold (result_key nws). fold (rrf_term K w rnk).
  set (key := result_key nws).
  set (e0 := {| e_node := node nws; e_score := 0; e_contributions := ∅ |}).
  set (d1 := if has_key key d then d else d ++ [(key, e0)]).
  assert (Hkeys1 : keys d1 = first_seen_from (keys d) [key]).
  { unfold d1. cbn. rewrite has_key_spec. case_bool_decide; [reflexivity|].
    unfold keys. now rewrite map_app. }
  assert (Hwk1 : well_keyed d1).
  { unfold d1. destruct (has_key key d); [exact Hwk|].
    intros k' e' Hin. apply in_app_or in Hin as [Hin|[[= <- <-]|[]]]; [now apply Hwk|].
    reflexivity. }
  assert (Hget1 : exists e1, get key d1 = Some e1 /\ e_score e1 = score_of d key).
  { unfold d1, score_of. rewrite has_key_spec. case_bool_decide as Hin.
    - destruct (get key d) as [e|] eqn:E; [eauto|].
      exfalso. clear -Hin E. induction d as [|[k' e'] t IH]; [inversion Hin|].
      cbn in *. destruct (String.eqb_spec key k') as [->|NE]; [discriminate|].
      apply elem_of_cons in Hin as [?|Hin]; [congruence|]. now apply IH.
    - rewrite get_app, (get_absent _ _ Hin). cbn. rewrite String.eqb_refl. eauto. }
  assert (Hother : forall key', key' <> key -> get key' d1 = get key' d).
  { intros key' NE. unfold d1. destruct (has_key key d); [reflexivity|].
    rewrite get_app. destruct (get key' d); [reflexivity|].
    cbn. apply String.eqb_neq in NE. now rewrite NE. }
  eexists. split; [reflexivity|]. split; [now rewrite keys_update|]. split.
  - intros k' e' Hin. apply In_update in Hin as [Hin|(e & Hin & ->)];
      [now apply Hwk1 | cbn; now apply (Hwk1 _ e)].
  - intros key'. unfold score_of at 1.
    destruct (String.eqb_spec key' key) as [->|NE].
    + rewrite get_update_eq. destruct Hget1 as (e1 & -> & <-). cbn. reflexivity.
    + rewrite get_update_ne by exact NE. rewrite Hother by exact NE.
      fold (score_of d key'). now rewrite Qplus_0_r.
Qed.

(** *** One ranked list *)

Lemma fuse_ranked_spec K idx w results : forall rnk d,
  (0 < K)%Z ->
  well_keyed d ->
  exists d',
    fuse_ranked K idx w rnk results d = Returned d' /\
    keys d' = first_seen_from (keys d) (map result_key results) /\
    well_keyed d' /\
    forall key, (score_of d' key == score_of d key + rank_sum K w rnk results key)%Q.
Proof.
  induction results as [|nws rest IH]; intros rnk d HK Hwk.
  - exists d. cbn. repeat split; try assumption. intros key. now rewrite Qplus_0_r.
  - destruct (fuse_one_spec K idx w d rnk nws ltac:(lia) Hwk) as (d1 & E1 & Hk1 & Hwk1 & Hs1).
    destruct (IH (S rnk) d1 HK Hwk1) as (d2 & E2 & Hk2 & Hwk2 & Hs2).
    exists d2. cbn [fuse_ranked]. rewrite E1. cbn. split; [exact E2|].
    split; [|split; [exact Hwk2|]].
    + rewrite Hk2, Hk1. cbn [map]. symmetry.
      apply (first_seen_from_app (keys d) [result_key nws]).
    + intros key. rewrite Hs2, Hs1. cbn [Fusion.rank_sum]. now rewrite Qplus_assoc.
Qed.

(** *** All sub-retrievers *)

Lemma fuse_retrievers_spec K rs : forall ws idx d,
  (0 < K)%Z ->
  length ws = length rs ->
  well_keyed d ->
  exists d',
    fuse_retrievers K idx rs ws d = Returned d' /\
    keys d' = first_seen_from (keys d) (map result_key (concat rs)) /\
    well_keyed d' /\
    forall key, (score_of d' key == score_of d key + rrf_sum K rs ws key)%Q.
Proof.
  induction rs as [|results rs IH]; intros ws idx d HK Hlen Hwk.
  - exists d. cbn. repeat split; try assumption. intros key. now rewrite Qplus_0_r.
  - destruct ws as [|w ws]; [discriminate|]. injection Hlen as Hlen.
    destruct (fuse_ranked_spec K idx w results 0 d HK Hwk) as (d1 & E1 & Hk1 & Hwk1 & Hs1).
    destruct (IH ws (S idx) d1 HK Hlen Hwk1) as (d2 & E2 & Hk2 & Hwk2 & Hs2).
    exists d2. cbn [fuse_retrievers]. rewrite E1. cbn. split; [exact E2|].
    split; [|split; [exact Hwk2|]].
    + rewrite Hk2, Hk1. cbn [concat]. rewrite map_app. symmetry.
      apply first_seen_from_app.
    + intros key. rewrite Hs2, Hs1. cbn [Fusion.rrf_sum]. now rewrite Qplus_assoc.
Qed.

(** *** The closed form, read rank by rank *)

Lemma rank_sum_absent K w results : forall rnk key,
  key ∉ map result_key results -> (rank_sum K w rnk results key == 0)%Q.
Proof.
  induction results as [|nws rest IH]; intros rnk key Hn; [reflexivity|].
  cbn in *. apply not_elem_of_cons in Hn as [NE Hn].
  apply String.eqb_neq in NE. rewrite NE, IH by exact Hn. reflexivity.
Qed.

(** An item returned once, at rank [length l1], contributes that rank's
    term and nothing else. *)
Lemma rank_sum_once K w l1 nws l2 rnk :
  result_key nws ∉ map result_key l1 ->
  result_key nws ∉ map result_key l2 ->
  (rank_sum K w rnk (l1 ++ nws :: l2) (result_key nws)
   == rrf_term K w (rnk + length l1))%Q.
Proof.
  revert rnk. induction l1 as [|x l1 IH]; intros rnk H1 H2.
  - cbn. rewrite String.eqb_refl, rank_sum_absent by exact H2.
    rewrite Nat.add_0_r. apply Qplus_0_r.
  - cbn in *. apply not_elem_of_cons in H1 as [NE H1].
    apply String.eqb_neq in NE. rewrite NE, IH by assumption.
    rewrite Qplus_0_l. now replace (S rnk + length l1) with (rnk + S (length l1)) by lia.
Qed.

Lemma rrf_term_bounds K w rnk :
  (1 <= K)%Z -> (0 <= w)%Q -> (0 <= rrf_term K w rnk)%Q /\ (rrf_term K w rnk <= w)%Q.
Proof.
  intros HK Hw. unfold rrf_term.
  set (d := inject_Z (Z.of_nat rnk + K)).
  assert (Hd1 : (1 <= d)%Q).
  { unfold d. change 1%Q with (inject_Z 1). rewrite <- Zle_Qle. lia. }
  assert (Hd0 : (0 < d)%Q) by (eapply Qlt_le_trans; [|exact Hd1]; reflexivity).
  assert (Hlo : (0 <= 1 / d)%Q).
  { apply Qle_shift_div_l; [exact Hd0|]. rewrite Qmult_0_l. discriminate. }
  assert (Hhi : (1 / d <= 1)%Q).
  { apply Qle_shift_div_r; [exact Hd0|]. now rewrite Qmult_1_l. }
  split; [now apply Qmult_le_0_compat|].
  rewrite (Qmult_comm w). rewrite <- (Qmult_1_l w) at 2.
  now apply Qmult_le_compat_r.
Qed.

Lemma rank_sum_bounds K w results : forall rnk key,
  (1 <= K)%Z -> (0 <= w)%Q -> NoDup (map result_key results) ->
  (0 <= rank_sum K w rnk results key)%Q /\ (rank_sum K w rnk results key <= w)%Q.
Proof.
  induction results as [|nws rest IH]; intros rnk key HK Hw Hnd.
  - cbn. split; [apply Qle_refl | exact Hw].
  - cbn in Hnd |- *. apply NoDup_cons in Hnd as [Hhead Hnd].
    destruct (String.eqb_spec key (result_key nws)) as [->|NE].
    + rewrite rank_sum_absent by exact Hhead. rewrite Qplus_0_r.
      now apply rrf_term_bounds.
    + rewrite Qplus_0_l. now apply IH.
Qed.

Lemma Qplus_nonneg (a b : Q) : (0 <= a)%Q -> (0 <= b)%Q -> (0 <= a + b)%Q.
Proof. intros Ha Hb. exact (Qplus_le_compat 0 a 0 b Ha Hb). Qed.

Lemma rrf_sum_bounds K rs : forall ws key,
  (1 <= K)%Z ->
  Forall (fun w => (0 <= w)%Q) ws ->
  Forall (fun results => NoDup (map result_key results)) rs ->
  (0 <= rrf_sum K rs ws key)%Q /\ (rrf_sum K rs ws key <= total_weight ws)%Q.
Proof.
  induction rs as [|results rs IH]; intros ws key HK Hws Hrs.
  - cbn. split; [apply Qle_refl|].
    induction Hws as [|w ws Hw Hws IHws]; cbn; [apply Qle_refl|].
    now apply Qplus_nonneg.
  - destruct ws as [|w ws]; [cbn; split; apply Qle_refl|].
    apply Forall_cons in Hws as [Hw Hws]. apply Forall_cons in Hrs as [Hr Hrs].
    destruct (rank_sum_bounds K w results 0 key HK Hw Hr) as [Hlo Hhi].
    destruct (IH ws key HK Hws Hrs) as [Hlo' Hhi'].
    cbn. split; [now apply Qplus_nonneg | now apply Qplus_le_compat].
Qed.

(** *** Sorting and wrapping *)

Lemma result_key_to_result e : result_key (to_result e) = node_key (e_node e).
Proof. reflexivity. Qed.

Lemma keys_of_entries d :
  well_keyed d -> map (fun e => node_key (e_node e)) (map snd d) = keys d.
Proof.
  intros Hwk. unfold keys. rewrite map_map. apply map_ext_in.
  intros [key e] Hin. cbn. now apply Hwk.
Qed.

Lemma StronglySorted_map {A B} (f : A -> B) (R : B -> B -> Prop) (l : list A) :
  StronglySorted (fun a b => R (f a) (f b)) l -> StronglySorted R (map f l).
Proof.
  induction 1 as [|x t Hst IH Hx]; cbn; constructor; [exact IH|].
  rewrite List.Forall_forall in Hx |- *. intros y Hy.
  apply in_map_iff in Hy as (a & <- & Ha). now apply Hx.
Qed.

(** [_fuse_results] in full: it returns, each seen key once, with the
    closed-form score, in stable descending order. *)
Lemma fuse_results_spec self rs :
  (0 < k self)%Z ->
  length (weights self) = length rs ->
  exists fused,
    _fuse_results md5_hexdigest self rs = Returned fused /\
    Permutation (map result_key fused) (seen_keys rs) /\
    (forall nws, In nws fused ->
       (score nws == rrf_sum (k self) rs (weights self) (result_key nws))%Q) /\
    StronglySorted (ranked_before md5_hexdigest (seen_keys rs)) fused.
Proof.
  intros HK Hlen. unfold _fuse_results.
  destruct rs as [|r rs'].
  { exists []. repeat split; try constructor. intros nws []. }
  set (rs := r :: rs') in *.
  assert (Hwk0 : well_keyed []) by (intros ? ? []).
  destruct (fuse_retrievers_spec (k self) rs (weights self) 0 [] HK Hlen Hwk0)
    as (d & E & Hkeys & Hwk & Hscore).
  rewrite E. unfold mbind, outcome_bind, Py.bind. eexists. split; [reflexivity|].
  assert (Hseen : keys d = seen_keys rs) by exact Hkeys.
  assert (Hnd : NoDup (keys d)) by (rewrite Hseen; apply NoDup_first_seen).
  pose proof (keys_of_entries d Hwk) as Hid.
  split; [|split].
  - rewrite map_map.
    rewrite (map_ext _ (fun e => node_key (e_node e)) result_key_to_result).
    rewrite <- Hseen, <- Hid. symmetry. apply Permutation_map, sorted_desc_perm.
  - intros nws Hin. apply in_map_iff in Hin as (e & <- & He).
    apply sorted_desc_In in He. apply in_map_iff in He as ([key e'] & <- & Hin).
    cbn [snd]. rewrite result_key_to_result. rewrite (Hwk _ _ Hin).
    rewrite <- (Qplus_0_l (rrf_sum _ _ _ _)).
    change 0%Q with (score_of [] key) at 1. rewrite <- Hscore.
    unfold score_of. now rewrite (get_member _ _ _ Hnd Hin).
  - apply StronglySorted_map. rewrite <- Hseen, <- Hid.
    apply (sorted_desc_stable e_score (fun e => node_key (e_node e))).
    now rewrite Hid.
Qed.

(** On the hybrid path the normalised range holds: with weights that are
    non-negative and sum to at most one (0.7 and 0.3 from the factory),
    [K >= 1] and sub-retrievers that return an item once, every fused
    score lies in [0,1]. *)
Lemma fused_scores_in_unit_interval self rs :
  (1 <= k self)%Z ->
  length (weights self) = length rs ->
  Forall (fun w => (0 <= w)%Q) (weights self) ->
  (total_weight (weights self) <= 1)%Q ->
  Forall (fun results => NoDup (map result_key results)) rs ->
  exists fused,
    _fuse_results md5_hexdigest self rs = Returned fused /\
    forall nws, In nws fused -> (0 <= score nws)%Q /\ (score nws <= 1)%Q.
Proof.
  intros HK Hlen Hws Htot Hrs.
  destruct (fuse_results_spec self rs ltac:(lia) Hlen) as (fused & E & _ & Hscore & _).
  exists fused. split; [exact E|]. intros nws Hin.
  destruct (rrf_sum_bounds (k self) rs (weights self) (result_key nws) HK Hws Hrs)
    as [Hlo Hhi].
  rewrite (Hscore nws Hin). split; [exact Hlo|].
  now apply Qle_trans with (total_weight (weights self)).
Qed.

(** *** Failing sub-retrievers *)

Lemma retrieve_loop invocations : forall acc,
  fold_left (fun acc result =>
               match result with
               | Returned results => acc ++ [results]
               | Raised _ => acc ++ [[]]
               end) invocations acc
  = acc ++ map processed invocations.
Proof.
  induction invocations as [|o rest IH]; intros acc; cbn.
  - now rewrite app_nil_r.
  - rewrite IH. destruct o; cbn; now rewrite <- app_assoc.
Qed.

Lemma retrieve_sync_async self invocations :
  _retrieve md5_hexdigest self invocations = _aretrieve md5_hexdigest self invocations.
Proof.
  unfold _retrieve, _aretrieve. destruct invocations as [|o rest]; [reflexivity|].
  now rewrite retrieve_loop.
Qed.

Lemma fuse_nothing K (es : list exn) : forall idx ws d,
  fuse_retrievers K idx (map (fun _ => []) es) ws d = Returned d.
Proof.
  induction es as [|e es IH]; intros idx ws d; [reflexivity|].
  cbn. destruct ws as [|w ws]; [reflexivity|]. cbn. apply IH.
Qed.

Lemma aretrieve_all_failed self (es : list exn) :
  _aretrieve md5_hexdigest self (map (@Raised (list NodeWithScore)) es) = Returned [].
Proof.
  unfold _aretrieve. destruct es as [|e es]; [reflexivity|].
  cbn [map]. rewrite map_map. cbn [processed].
  unfold _fuse_results.
  change ([] :: map (fun _ => []) es) with (map (fun _ : exn => @nil NodeWithScore) (e :: es)).
  rewrite fuse_nothing. cbn. now rewrite slice_to_nil.
Qed.

End WithHash.

Example init_factory :
  init 2 (Some [7 # 10; 3 # 10]) default_k default_top_k = Returned factory_retriever.
Proof. reflexivity. Qed.

Example init_default_weights :
  init 2 None default_k default_top_k
  = Returned {| weights := [1%Q; 1%Q]; k := 60; top_k := 10 |}.
Proof. reflexivity. Qed.

Example init_mismatch : init 2 (Some [1%Q]) default_k default_top_k = Raised ValueError.
Proof. reflexivity. Qed.

(** The shared chunk wins: 0.7/61 + 0.3/60 beats 0.7/60 and 0.3/61. *)
Example fused_sample_order :
  (fun o => match o with
            | Returned l => map (result_key sample_digest) l
            | Raised _ => []
            end)
    (_aretrieve sample_digest factory_retriever (map Returned sample_lists))
  = ["c2"; "c1"; "c3"]%string.
Proof. vm_compute. reflexivity. Qed.

End FusionFacts.

(** ** Weighted reciprocal rank fusion in float arithmetic *)

Module FusionFloatFacts.
Import Tokenizer.
Import Fusion.
Import PyFacts.
Import FusionFacts.
Import FusionFloat.

Section WithArithmetic.
Variable md5_hexdigest : str -> string.
Variable rnd : Q -> Q.

Abbreviation node_key := (Fusion.node_key md5_hexdigest).
Abbreviation result_key := (Fusion.result_key md5_hexdigest).
Abbreviation well_keyed := (Fusion.well_keyed md5_hexdigest).
Abbreviation seen_keys := (Fusion.seen_keys md5_hexdigest).
Abbreviation ranked_before := (Fusion.ranked_before md5_hexdigest).
Abbreviation rrf_sum := (Fusion.rrf_sum md5_hexdigest).
Abbreviation rank_sum := (Fusion.rank_sum md5_hexdigest).
Abbreviation rank_score := (FusionFloat.rank_score rnd).
Abbreviation fuse_one := (FusionFloat.fuse_one md5_hexdigest rnd).
Abbreviation fuse_ranked := (FusionFloat.fuse_ranked md5_hexdigest rnd).
Abbreviation fuse_retrievers := (FusionFloat.fuse_retrievers md5_hexdigest rnd).
Abbreviation _fuse_results := (FusionFloat._fuse_results md5_hexdigest rnd).
Abbreviation _aretrieve := (FusionFloat._aretrieve md5_hexdigest rnd).
Abbreviation _retrieve := (FusionFloat._retrieve md5_hexdigest rnd).
Abbreviation rank_acc := (FusionFloat.rank_acc md5_hexdigest rnd).
Abbreviation rrf_acc := (FusionFloat.rrf_acc md5_hexdigest rnd).

(** *** One step of the accumulation *)

Lemma fuse_one_acc K idx w d rnk nws :
  (Z.of_nat rnk + K <> 0)%Z ->
  well_keyed d ->
  exists d',
    fuse_one K idx w d rnk nws = Returned d' /\
    keys d' = first_seen_from (keys d) [result_key nws] /\
    well_keyed d' /\
    forall key,
      score_of d' key
      = if String.eqb key (result_key nws)
        then rnd (score_of d key + rank_score K w rnk)
        else score_of d key.
Proof.
  intros HK Hwk. unfold FusionFloat.fuse_one.
  apply Z.eqb_neq in HK. rewrite HK.
  fold (result_key nws). fold (rank_score K w rnk).
  set (key := result_key nws).
  set (e0 := {| e_node := node nws; e_score := 0; e_contributions := ∅ |}).
  set (d1 := if has_key key d then d else d ++ [(key, e0)]).
  assert (Hkeys1 : keys d1 = first_seen_from (keys d) [key]).
  { unfold d1. cbn. rewrite has_key_spec. case_bool_decide; [reflexivity|].
    unfold keys. now rewrite map_app. }
  assert (Hwk1 : well_keyed d1).
  { unfold d1. destruct (has_key key d); [exact Hwk|].
    intros k' e' Hin. apply in_app_or in Hin as [Hin|[[= <- <-]|[]]]; [now apply Hwk|].
    reflexivity. }
  assert (Hget1 : exists e1, get key d1 = Some e1 /\ e_score e1 = score_of d key).
  { unfold d1, score_of. rewrite has_key_spec. case_bool_decide as Hin.
    - destruct (get key d) as [e|] eqn:E; [eauto|].
      exfalso. clear -Hin E. induction d as [|[k' e'] t IH]; [inversion Hin|].
      cbn in *. destruct (String.eqb_spec key k') as [->|NE]; [discriminate|].
      apply elem_of_cons in Hin as [?|Hin]; [congruence|]. now apply IH.
    - rewrite get_app, (get_absent _ _ Hin). cbn. rewrite String.eqb_refl. eauto. }
  assert (Hother : forall key', key' <> key -> get key' d1 = get key' d).
  { intros key' NE. unfold d1. destruct (has_key key d); [reflexivity|].
    rewrite get_app. destruct (get key' d); [reflexivity|].
    cbn. apply String.eqb_neq in NE. now rewrite NE. }
  eexists. split; [reflexivity|]. split; [now rewrite keys_update|]. split.
  - intros k' e' Hin. apply In_update in Hin as [Hin|(e & Hin & ->)];
      [now apply Hwk1 | cbn; now apply (Hwk1 _ e)].
  - intros key'. unfold score_of at 1.
    destruct (String.eqb_spec key' key) as [->|NE].
    + rewrite get_update_eq. destruct Hget1 as (e1 & -> & <-). reflexivity.
    + rewrite get_update_ne by exact NE. rewrite Hother by exact NE. reflexivity.
Qed.

(** *** One ranked list *)

Lemma fuse_ranked_acc K idx w results : forall rnk d,
  (0 < K)%Z ->
  well_keyed d ->
  exists d',
    fuse_ranked K idx w rnk results d = Returned d' /\
    keys d' = first_seen_from (keys d) (map result_key results) /\
    well_keyed d' /\
    forall key, score_of d' key = rank_acc K w rnk results key (score_of d key).
Proof.
  induction results as [|nws rest IH]; intros rnk d HK Hwk.
  - exists d. cbn. repeat split; assumption.
  - destruct (fuse_one_acc K idx w d rnk nws ltac:(lia) Hwk) as (d1 & E1 & Hk1 & Hwk1 & Hs1).
    destruct (IH (S rnk) d1 HK Hwk1) as (d2 & E2 & Hk2 & Hwk2 & Hs2).
    exists d2. cbn [FusionFloat.fuse_ranked]. rewrite E1.
    unfold mbind, outcome_bind, Py.bind. split; [exact E2|].
    split; [|split; [exact Hwk2|]].
    + rewrite Hk2, Hk1. cbn [map]. symmetry.
      apply (first_seen_from_app (keys d) [result_key nws]).
    + intros key. rewrite Hs2, Hs1. reflexivity.
Qed.

(** *** All sub-retrievers *)

Lemma fuse_retrievers_acc K rs : forall ws idx d,
  (0 < K)%Z ->
  length ws = length rs ->
  well_keyed d ->
  exists d',
    fuse_retrievers K idx rs ws d = Returned d' /\
    keys d' = first_seen_from (keys d) (map result_key (concat rs)) /\
    well_keyed d' /\
    forall key, score_of d' key = rrf_acc K (combine rs ws) key (score_of d key).
Proof.
  induction rs as [|results rs IH]; intros ws idx d HK Hlen Hwk.
  - exists d. cbn. repeat split; assumption.
  - destruct ws as [|w ws]; [discriminate|]. injection Hlen as Hlen.
    destruct (fuse_ranked_acc K idx w results 0 d HK Hwk) as (d1 & E1 & Hk1 & Hwk1 & Hs1).
    destruct (IH ws (S idx) d1 HK Hlen Hwk1) as (d2 & E2 & Hk2 & Hwk2 & Hs2).
    exists d2. cbn [FusionFloat.fuse_retrievers]. rewrite E1.
    unfold mbind, outcome_bind, Py.bind. split; [exact E2|].
    split; [|split; [exact Hwk2|]].
    + rewrite Hk2, Hk1. cbn [concat]. rewrite map_app. symmetry.
      apply first_seen_from_app.
    + intros key. rewrite Hs2, Hs1. reflexivity.
Qed.

(** [_fuse_results] in full: each seen key once, with the sum as the
    program forms it, in stable descending order. *)
Lemma fuse_results_acc self rs :
  (0 < k self)%Z ->
  length (weights self) = length rs ->
  exists fused,
    _fuse_results self rs = Returned fused /\
    Permutation (map result_key fused) (seen_keys rs) /\
    (forall nws, In nws fused ->
       score nws = rrf_acc (k self) (combine rs (weights self)) (result_key nws) 0) /\
    StronglySorted (ranked_before (seen_keys rs)) fused.
Proof.
  intros HK Hlen. unfold FusionFloat._fuse_results.
  destruct rs as [|r rs'].
  { exists []. repeat split; try constructor. intros nws []. }
  set (rs := r :: rs') in *.
  assert (Hwk0 : well_keyed []) by (intros ? ? []).
  destruct (fuse_retrievers_acc (k self) rs (weights self) 0 [] HK Hlen Hwk0)
    as (d & E & Hkeys & Hwk & Hscore).
  rewrite E. unfold mbind, outcome_bind, Py.bind. eexists. split; [reflexivity|].
  assert (Hseen : keys d = seen_keys rs) by exact Hkeys.
  assert (Hnd : NoDup (keys d)) by (rewrite Hseen; apply NoDup_first_seen).
  pose proof (keys_of_entries md5_hexdigest d Hwk) as Hid.
  split; [|split].
  - rewrite map_map.
    rewrite (map_ext _ (fun e => node_key (e_node e)) (result_key_to_result md5_hexdigest)).
    rewrite <- Hseen, <- Hid. symmetry. apply Permutation_map, sorted_desc_perm.
  - intros nws Hin. apply in_map_iff in Hin as (e & <- & He).
    apply sorted_desc_In in He. apply in_map_iff in He as ([key e'] & <- & Hin).
    cbn [snd]. rewrite result_key_to_result. rewrite (Hwk _ _ Hin).
    change 0%Q with (score_of [] key). rewrite <- Hscore.
    unfold score_of. now rewrite (get_member _ _ _ Hnd Hin).
  - apply StronglySorted_map. rewrite <- Hseen, <- Hid.
    apply (sorted_desc_stable e_score (fun e => node_key (e_node e))).
    now rewrite Hid.
Qed.

(** *** Exact arithmetic: the sum of the formula *)

Lemma rank_acc_exact K w results :
  (forall q, rnd q = q) ->
  forall rnk key acc,
    (rank_acc K w rnk results key acc == acc + rank_sum K w rnk results key)%Q.
Proof.
  intros Hid. induction results as [|nws rest IH]; intros rnk key acc.
  - cbn. now rewrite Qplus_0_r.
  - cbn [FusionFloat.rank_acc Fusion.rank_sum]. rewrite IH.
    destruct (String.eqb key (result_key nws)).
    + unfold FusionFloat.rank_score, rrf_term. rewrite !Hid. now rewrite Qplus_assoc.
    + now rewrite Qplus_0_l.
Qed.

Lemma rrf_acc_exact K rs :
  (forall q, rnd q = q) ->
  forall ws key acc,
    (rrf_acc K (combine rs ws) key acc == acc + rrf_sum K rs ws key)%Q.
Proof.
  intros Hid. induction rs as [|results rs IH]; intros ws key acc.
  - cbn. now rewrite Qplus_0_r.
  - destruct ws as [|w ws]; [cbn; now rewrite Qplus_0_r|].
    cbn [combine FusionFloat.rrf_acc Fusion.rrf_sum]. rewrite IH.
    rewrite (rank_acc_exact K w results Hid). now rewrite Qplus_assoc.
Qed.

(** *** Failing sub-retrievers *)

Lemma retrieve_sync_async_float self invocations :
  _retrieve self invocations = _aretrieve self invocations.
Proof.
  unfold FusionFloat._retrieve, FusionFloat._aretrieve.
  destruct invocations as [|o rest]; [reflexivity|].
  now rewrite retrieve_loop.
Qed.

Lemma fuse_nothing_float K (es : list exn) : forall idx ws d,
  fuse_retrievers K idx (map (fun _ => []) es) ws d = Returned d.
Proof.
  induction es as [|e es IH]; intros idx ws d; [reflexivity|].
  cbn. destruct ws as [|w ws]; [reflexivity|]. cbn. apply IH.
Qed.

Lemma aretrieve_all_failed_float self (es : list exn) :
  _aretrieve self (map (@Raised (list NodeWithScore)) es) = Returned [].
Proof.
  unfold FusionFloat._aretrieve. destruct es as [|e es]; [reflexivity|].
  cbn [map]. rewrite map_map. cbn [processed].
  unfold FusionFloat._fuse_results.
  change ([] :: map (fun _ => []) es) with (map (fun _ : exn => @nil NodeWithScore) (e :: es)).
  rewrite fuse_nothing_float. cbn. now rewrite slice_to_nil.
Qed.

(** A failed sub-retriever adds nothing to any sum. *)
Lemma rrf_acc_survivors K invocations : forall ws key acc,
  rrf_acc K (combine (map processed invocations) ws) key acc
  = rrf_acc K (survivors invocations ws) key acc.
Proof.
  induction invocations as [|o rest IH]; intros ws key acc; [reflexivity|].
  destruct ws as [|w ws]; [now destruct o|].
  destruct o as [results|e]; cbn; apply IH.
Qed.

Lemma concat_survivors invocations : forall ws,
  length ws = length invocations ->
  concat (map fst (survivors invocations ws)) = concat (map processed invocations).
Proof.
  induction invocations as [|o rest IH]; intros ws Hlen; [now destruct ws|].
  destruct ws as [|w ws]; [discriminate|]. injection Hlen as Hlen.
  destruct o as [results|e]; cbn; rewrite (IH ws Hlen); reflexivity.
Qed.



End WithArithmetic.



(** *** The exact reading

    With a rounding that changes nothing the functions of this module are
    those of [Fusion]. *)

Lemma exact_fuse_ranked md5_hexdigest K idx w results : forall rnk d,
  FusionFloat.fuse_ranked md5_hexdigest (fun q => q) K idx w rnk results d
  = Fusion.fuse_ranked md5_hexdigest K idx w rnk results d.
Proof.
  induction results as [|nws rest IH]; intros rnk d; [reflexivity|].
  cbn [FusionFloat.fuse_ranked Fusion.fuse_ranked].
  change (FusionFloat.fuse_one md5_hexdigest (fun q => q) K idx w d rnk nws)
    with (Fusion.fuse_one md5_hexdigest K idx w d rnk nws).
  destruct (Fusion.fuse_one md5_hexdigest K idx w d rnk nws) as [d'|e]; [|reflexivity].
  apply IH.
Qed.

Lemma exact_fuse_retrievers md5_hexdigest K rs : forall idx ws d,
  FusionFloat.fuse_retrievers md5_hexdigest (fun q => q) K idx rs ws d
  = Fusion.fuse_retrievers md5_hexdigest K idx rs ws d.
Proof.
  induction rs as [|results rs IH]; intros idx ws d; [reflexivity|].
  destruct ws as [|w ws]; [reflexivity|].
  cbn [FusionFloat.fuse_retrievers Fusion.fuse_retrievers].
  rewrite exact_fuse_ranked.
  destruct (Fusion.fuse_ranked md5_hexdigest K idx w 0 results d) as [d'|e]; [|reflexivity].
  apply IH.
Qed.

Lemma exact_aretrieve md5_hexdigest self invocations :
  FusionFloat._aretrieve md5_hexdigest (fun q => q) self invocations
  = Fusion._aretrieve md5_hexdigest self invocations /\
  FusionFloat._retrieve md5_hexdigest (fun q => q) self invocations
  = Fusion._retrieve md5_hexdigest self invocations.
Proof.
  assert (Hf : forall rs, FusionFloat._fuse_results md5_hexdigest (fun q => q) self rs
                          = Fusion._fuse_results md5_hexdigest self rs).
  { intros rs. unfold FusionFloat._fuse_results, Fusion._fuse_results.
    destruct rs as [|r rs']; [reflexivity|]. now rewrite exact_fuse_retrievers. }
  unfold FusionFloat._aretrieve, Fusion._aretrieve,
         FusionFloat._retrieve, Fusion._retrieve.
  destruct invocations as [|o rest]; [split; reflexivity|].
  now rewrite !Hf.
Qed.

(** The rounding decides between two items whose exact sums are equal:
    in doubles ["B"] collects 0.7833333333333333 and ["A"]
    0.7833333333333332, so ["B"] is ranked first; in exact arithmetic the
    two tie and ["A"], seen first, leads. *)
Example rounding_decides_a_tie :
  (fun o => match o with
            | Returned l => map (result_key sample_digest) l
            | Raised _ => []
            end)
    (FusionFloat._aretrieve sample_digest double rotated_retriever
                            (map Returned rotated_lists))
  = ["B"%string] /\
  (fun o => match o with
            | Returned l => map (result_key sample_digest) l
            | Raised _ => []
            end)
    (Fusion._aretrieve sample_digest rotated_retriever (map Returned rotated_lists))
  = ["A"%string].
Proof. split; vm_compute; reflexivity. Qed.

Example double_of_one_tenth :
  double (1 # 10) = 3602879701896397 # 36028797018963968.
Proof. vm_compute. reflexivity. Qed.

(** The survivor alone is fused when the lexical retriever raised. *)
Example one_failed_sample :
  (fun o => match o with
            | Returned l => map (result_key sample_digest) l
            | Raised _ => []
            end)
    (FusionFloat._aretrieve sample_digest double float_factory_retriever one_failed)
  = ["c1"; "c2"]%string.
Proof. vm_compute. reflexivity. Qed.

End FusionFloatFacts.

(** ** The query engine *)

Module EngineFacts.
Import Tokenizer.
Import Fusion.
Import Engine.
Import PyFacts.
Import MergeFacts.

Lemma collect_app r1 r2 : collect (r1 ++ r2) = collect r1 ++ collect r2.
Proof. unfold collect. apply flat_map_app. Qed.

(** What one task delivers and what it leaves in the cache. *)
Lemma task_spec env cache name m :
  exists o,
    _query_single_collection_interface env cache name m = (o, cache_after env cache name) /\
    collect [o] = match retrieved env cache name with
                  | Some l => List.filter (meets m) l
                  | None => []
                  end.
Proof.
  unfold _query_single_collection_interface, _query_single_collection,
    cache_after, retrieved.
  destruct (cache !! name) as [cached|] eqn:Ec.
  { eexists. split; [reflexivity|]. cbn. now rewrite app_nil_r. }
  destruct (hybrid_retrieve env name) as [raw|e].
  { eexists. split; [reflexivity|]. cbn. now rewrite app_nil_r. }
  destruct e; try (eexists; split; reflexivity);
    destruct (vector_only env name) as [l|e'];
    try (eexists; split; [reflexivity|]; cbn; now rewrite app_nil_r);
    destruct e'; eexists; split; reflexivity.
Qed.

Lemma task_failed env cache name m :
  failed env cache name = true ->
  exists o,
    _query_single_collection_interface env cache name m = (o, cache) /\ collect [o] = [].
Proof.
  intros Hf. destruct (task_spec env cache name m) as (o & E & Hc).
  exists o. unfold failed in Hf. unfold cache_after in E.
  destruct (retrieved env cache name) eqn:Er; [discriminate|].
  split; [|exact Hc]. destruct (cache !! name); exact E.
Qed.

Lemma gather_app env m l1 : forall cache l2,
  gather env cache (l1 ++ l2) m
  = (fst (gather env cache l1 m) ++ fst (gather env (snd (gather env cache l1 m)) l2 m),
     snd (gather env (snd (gather env cache l1 m)) l2 m)).
Proof.
  induction l1 as [|name l1 IH]; intros cache l2.
  - cbn. now destruct (gather env cache l2 m).
  - cbn [app gather].
    destruct (_query_single_collection_interface env cache name m) as [o c1].
    rewrite IH. destruct (gather env c1 l1 m) as [r1 c2]. cbn.
    now destruct (gather env c2 l2 m).
Qed.

Lemma gather_unfiltered env m names : forall cache,
  collect (fst (gather env cache names m))
  = flat_map (List.filter (meets m)) (unfiltered env cache names).
Proof.
  induction names as [|name rest IH]; intros cache; [reflexivity|].
  cbn [gather unfiltered].
  destruct (task_spec env cache name m) as (o & E & Hc). rewrite E.
  specialize (IH (cache_after env cache name)).
  destruct (gather env (cache_after env cache name) rest m) as [rs c2].
  cbn [fst] in *. change (o :: rs) with ([o] ++ rs). rewrite collect_app, Hc, IH.
  destruct (retrieved env cache name); reflexivity.
Qed.

(** With client and embeddings in place and explicit targets, [query]
    is the merge of what the tasks delivered. *)
Lemma query_targets env cache names config :
  has_client env = true -> has_embeddings env = true -> names <> [] ->
  query env cache (Some names) config
  = (Returned (_merge_results
                 (collect (fst (gather env cache names (min_relevance config))))
                 (n_results config) (merge_strategy config)),
     snd (gather env cache names (min_relevance config))).
Proof.
  intros Hc He Hne. unfold query. rewrite Hc, He. cbn [negb orb].
  destruct names as [|name rest]; [congruence|].
  now destruct (gather env cache (name :: rest) (min_relevance config)).
Qed.

Lemma meets_spec m r : meets m r = true <-> (m <= relevance_score r)%Q.
Proof. apply Qle_bool_iff. Qed.

(** C2, as amended. With client and embeddings in place and explicit
    targets, [query] returns the merge -- with [resultCount] applied -- of
    the per-collection lists each already restricted to the results with
    [relevance_score >= minRelevance]; the floor is applied per collection
    before the merge, and every result returned meets it. *)
Theorem relevance_floor_is_applied_before_merge
        (env : Collaborators) (cache : QueryCache) (names : list string)
        (config : QueryConfig) :
  has_client env = true ->
  has_embeddings env = true ->
  names <> [] ->
  exists out,
    fst (query env cache (Some names) config) = Returned out /\
    out = _merge_results
            (flat_map (List.filter (meets (min_relevance config)))
                      (unfiltered env cache names))
            (n_results config) (merge_strategy config) /\
    Forall (fun r => (min_relevance config <= relevance_score r)%Q) out.
Proof.
  intros Hc He Hne. rewrite (query_targets env cache names config Hc He Hne).
  cbn [fst]. rewrite gather_unfiltered. eexists. split; [reflexivity|].
  split; [reflexivity|].
  rewrite List.Forall_forall. intros r Hr. apply merge_results_incl in Hr.
  apply in_flat_map in Hr as (l & _ & Hr). apply List.filter_In in Hr as [_ Hr].
  now apply meets_spec.
Qed.

Lemma relevance_floor_is_applied_before_merge_witness :
  exists out,
    fst (query two_collections ∅ (Some ["A"; "B"]%string) floor_config) = Returned out /\
    out = _merge_results
            (flat_map (List.filter (meets (1 # 100)))
                      (unfiltered two_collections ∅ ["A"; "B"]%string))
            2 "interleave" /\
    Forall (fun r => (1 # 100 <= relevance_score r)%Q) out.
Proof.
  apply (relevance_floor_is_applied_before_merge
           two_collections ∅ ["A"; "B"]%string floor_config);
    [reflexivity | reflexivity | discriminate].
Defined.

(** C2, as stated, fails: with A = [a1, a2] (scores 1/60, 1/61), B = [b1]
    (score 1/200), a floor of 1/100 and a result count of 2, the engine
    returns [a1, a2], whereas merging first and filtering last would give
    [a1] only. *)
Lemma floor_after_merge_refuted :
  fst (query two_collections ∅ (Some ["A"; "B"]%string) floor_config)
  <> Returned (List.filter (meets (min_relevance floor_config))
                 (_merge_results (concat (unfiltered two_collections ∅ ["A"; "B"]%string))
                                 (n_results floor_config) (merge_strategy floor_config))).
Proof. vm_compute. discriminate. Qed.

Example floor_sample_engine :
  fst (query two_collections ∅ (Some ["A"; "B"]%string) floor_config) = Returned [a1; a2].
Proof. vm_compute. reflexivity. Qed.

Example floor_sample_claimed :
  List.filter (meets (min_relevance floor_config))
    (_merge_results (concat (unfiltered two_collections ∅ ["A"; "B"]%string))
                    (n_results floor_config) (merge_strategy floor_config))
  = [a1].
Proof. vm_compute. reflexivity. Qed.

(** A target whose retrieval fails leaves no trace: the query returns
    the same list and the same cache as the query without that target. *)
Lemma query_without_failed_target
      (env : Collaborators) (cache : QueryCache)
      (before : list string) (bad : string) (after : list string)
      (config : QueryConfig) :
  has_client env = true ->
  has_embeddings env = true ->
  failed env (snd (gather env cache before (min_relevance config))) bad = true ->
  exists out,
    fst (query env cache (Some (before ++ bad :: after)) config) = Returned out /\
    out = _merge_results
            (collect (fst (gather env cache (before ++ after) (min_relevance config))))
            (n_results config) (merge_strategy config) /\
    (before ++ after <> [] ->
     query env cache (Some (before ++ bad :: after)) config
     = query env cache (Some (before ++ after)) config).
Proof.
  intros Hc He Hbad. set (m := min_relevance config) in *.
  assert (Hne : before ++ bad :: after <> []) by (destruct before; discriminate).
  assert (Hsame : collect (fst (gather env cache (before ++ bad :: after) m))
                  = collect (fst (gather env cache (before ++ after) m))
                  /\ snd (gather env cache (before ++ bad :: after) m)
                     = snd (gather env cache (before ++ after) m)).
  { rewrite !gather_app. cbn [fst snd gather].
    destruct (task_failed env _ bad m Hbad) as (o & E & Ho). rewrite E.
    destruct (gather env (snd (gather env cache before m)) after m) as [r2 c2].
    cbn [fst snd]. split; [|reflexivity].
    change (o :: r2) with ([o] ++ r2). rewrite !collect_app, Ho. reflexivity. }
  destruct Hsame as [Hres Hcache].
  rewrite (query_targets env cache _ config Hc He Hne). cbn [fst]. fold m.
  eexists. split; [reflexivity|]. split; [now rewrite Hres|].
  intros Hne'. rewrite (query_targets env cache _ config Hc He Hne'). fold m.
  now rewrite Hres, Hcache.
Qed.

Example partial_failure_sample :
  fst (query two_collections ∅ (Some ["A"; "missing"; "B"]%string) default_config)
  = Returned [a1; b1; a2].
Proof. vm_compute. reflexivity. Qed.

(** C5. On the vector-only fallback a hit at distance 1.5 becomes a
    result with relevance 1 - 1.5 = -1/2, below the interval [0,1]: it is
    returned to a caller whose floor lies below it, it is stored in the
    cache when the default floor of 0 keeps it out of the returned list,
    and it is served again from the cache. *)
Theorem fallback_relevance_leaves_unit_interval :
  let r := of_hit "A" (lit "far", 3 # 2) in
  (relevance_score r < 0)%Q /\
  fst (query far_hit ∅ (Some ["A"%string]) lenient_config) = Returned [r] /\
  fst (query far_hit ∅ (Some ["A"%string]) default_config) = Returned [] /\
  snd (query far_hit ∅ (Some ["A"%string]) default_config) !! "A"%string = Some [r] /\
  fst (query far_hit (snd (query far_hit ∅ (Some ["A"%string]) default_config))
             (Some ["A"%string]) lenient_config) = Returned [r].
Proof.
  cbv zeta. split; [reflexivity|].
  repeat split; vm_compute; reflexivity.
Qed.

End EngineFacts.

(** ** More on the tokenizer *)

Module TokenizerLaws.
Import Tokenizer.
Import TokenizerFacts.

Lemma lower_char_lowered c : lowered (lower_char c) = true.
Proof. by_cases_on c. Qed.

Lemma sigil_lowered : lowered sigil = true.
Proof. reflexivity. Qed.

Lemma sigil_not_word c : is_sigil c = true -> re_w c = false.
Proof. by_cases_on c. Qed.

Lemma isdigit_char_is_word c : isdigit_char c = true -> re_w c = true.
Proof. by_cases_on c. Qed.

Lemma span_forallb p (s : str) : forallb p (span p s) = true.
Proof.
  induction s as [|c s IH]; [reflexivity|]. cbn.
  destruct (p c) eqn:E; [|reflexivity]. cbn. now rewrite E.
Qed.

Lemma span_Forall p (Q : ascii -> Prop) (s : str) : Forall Q s -> Forall Q (span p s).
Proof.
  induction 1 as [|c s Hc Hs IH]; cbn; [constructor|].
  destruct (p c); [now constructor | constructor].
Qed.

Lemma skipn_Forall {A} (Q : A -> Prop) n (s : list A) : Forall Q s -> Forall Q (skipn n s).
Proof.
  revert s. induction n as [|n IH]; intros s H; [exact H|].
  destruct H; cbn; [constructor | now apply IH].
Qed.

(** Whatever the scan emits comes from a match or from a skipped
    character. *)
Lemma re_scan_Forall {B} (m : str -> option (list B * nat)) (u : ascii -> list B)
      (Q : ascii -> Prop) (P : B -> Prop) :
  (forall s out len, Forall Q s -> m s = Some (out, len) -> Forall P out) ->
  (forall c, Q c -> Forall P (u c)) ->
  forall s skip, Forall Q s -> Forall P (re_scan m u skip s).
Proof.
  intros Hm Hu s. induction s as [|c rest IH]; intros skip HQ; [constructor|].
  pose proof HQ as HQ'. apply Forall_cons in HQ' as [Hc Hrest].
  destruct skip as [|n]; [|now apply IH].
  cbn [re_scan]. destruct (m (c :: rest)) as [[out len]|] eqn:E.
  - apply Forall_app. split; [now apply (Hm _ _ _ HQ E) | now apply IH].
  - apply Forall_app. split; [now apply Hu | now apply IH].
Qed.

Lemma lower_Forall text : Forall is_lowered (lower text).
Proof.
  unfold lower. induction text as [|c t IH]; cbn; constructor; [|exact IH].
  apply lower_char_lowered.
Qed.

Lemma join_sigil_Forall text : Forall is_lowered text -> Forall is_lowered (join_sigil text).
Proof.
  unfold join_sigil. apply re_scan_Forall.
  - intros s out len Hs. unfold match_sigil_ws_digits.
    destruct s as [|c rest]; [discriminate|]. destruct (is_sigil c); [|discriminate].
    apply Forall_cons in Hs as [_ Hrest].
    destruct (span re_s rest); [discriminate|].
    destruct (span re_d _) eqn:E; [discriminate|]. intros [= <- _].
    constructor; [exact sigil_lowered|]. rewrite <- E.
    now apply span_Forall, skipn_Forall.
  - intros c Hc. now repeat constructor.
Qed.

Lemma raw_tokens_ok text :
  Forall is_lowered text -> Forall token_ok (raw_tokens text).
Proof.
  unfold raw_tokens. apply re_scan_Forall; [|constructor].
  intros s out len Hs. unfold match_token, match_sigil_digits, match_word.
  destruct s as [|c rest]; [discriminate|].
  pose proof Hs as Hs'. apply Forall_cons in Hs' as [Hc Hrest].
  assert (Hword : forall w, span re_w (c :: rest) = w -> w <> [] -> token_ok w).
  { intros w <- Hne. split; [|now apply span_Forall].
    apply orb_true_iff. right. unfold word_token.
    destruct (span re_w (c :: rest)) eqn:E; [congruence|]. rewrite <- E.
    apply span_forallb. }
  destruct (is_sigil c) eqn:Ec.
  - destruct (span re_d rest) as [|d ds] eqn:Ed.
    + destruct (span re_w (c :: rest)) as [|w ws] eqn:Ew; [discriminate|].
      intros [= <- _]. constructor; [|constructor]. now apply Hword.
    + intros [= <- _]. constructor; [|constructor]. split.
      * apply orb_true_iff. left. cbn [sigil_token]. rewrite Ec. cbn [andb].
        rewrite <- Ed. apply span_forallb.
      * constructor; [exact Hc|]. rewrite <- Ed. now apply span_Forall.
  - destruct (span re_w (c :: rest)) as [|w ws] eqn:Ew; [discriminate|].
    intros [= <- _]. constructor; [|constructor]. now apply Hword.
Qed.

Lemma forallb_Forall_In {A} (p : A -> bool) (l : list A) x :
  forallb p l = true -> In x l -> p x = true.
Proof. intros H Hin. rewrite forallb_forall in H. now apply H. Qed.

Lemma expand_token_ok tok : token_ok tok -> Forall token_ok (expand_token tok).
Proof.
  intros [Hshape Hlow]. unfold expand_token.
  constructor; [now split|].
  destruct tok as [|c number]; [constructor|].
  pose proof Hlow as Hlow'. apply Forall_cons in Hlow' as [Hc Hnum].
  destruct (is_sigil c) eqn:Ec.
  - destruct (isdigit number) eqn:Ed; [|constructor].
    constructor; [|constructor]. split; [|exact Hnum].
    apply orb_true_iff. right. unfold word_token, isdigit in *.
    destruct number as [|d ds]; [discriminate|].
    revert Ed. apply forallb_impl, isdigit_char_is_word.
  - destruct (isdigit (c :: number) && (1 <? length (c :: number))) eqn:Ed; [|constructor].
    apply andb_prop in Ed as [Ed _]. unfold isdigit in Ed.
    apply Forall_map. apply List.Forall_forall. intros d Hd.
    apply List.filter_In in Hd as [Hd _]. split.
    + apply orb_true_iff. right. cbn. rewrite andb_true_r.
      apply isdigit_char_is_word. now apply (forallb_Forall_In _ _ _ Ed).
    + constructor; [|constructor].
      rewrite List.Forall_forall in Hlow. now apply Hlow.
Qed.

(** X1. Every token the tokenizer emits is either the sigil followed by
    one or more decimal digits or a non-empty run of word characters, and
    lower-casing leaves every one of its characters as it is: no token is
    empty, none holds white space or punctuation, and a token that is
    lower-cased again is the same token.  (Nothing is said about letter
    categories: a character that [str.lower] leaves alone stays, whatever
    its category.) *)
Theorem tokens_are_words_or_sigil_numbers_fixed_by_lower (text tok : str) :
  In tok (_tokenize_text text) ->
  (sigil_token tok || word_token tok) = true /\
  forallb lowered tok = true.
Proof.
  intros Hin. unfold _tokenize_text in Hin. apply in_flat_map in Hin as (raw & Hraw & Hin).
  pose proof (raw_tokens_ok _ (join_sigil_Forall _ (lower_Forall text))) as Hall.
  rewrite List.Forall_forall in Hall. specialize (Hall raw Hraw).
  pose proof (expand_token_ok raw Hall) as Hexp.
  rewrite List.Forall_forall in Hexp. destruct (Hexp tok Hin) as [Hshape Hlow].
  split; [exact Hshape|]. apply forallb_forall. intros c Hc.
  rewrite List.Forall_forall in Hlow. now apply Hlow.
Qed.

Lemma tokens_are_words_or_sigil_numbers_fixed_by_lower_witness :
  (sigil_token (lit "bgb") || word_token (lit "bgb")) = true /\
  forallb lowered (lit "bgb") = true.
Proof.
  apply (tokens_are_words_or_sigil_numbers_fixed_by_lower (sigil :: lit " 230 BGB") (lit "bgb")).
  vm_compute. tauto.
Defined.

(** *** The spaced and the joined form *)

Lemma span_stop p (A R : str) c : p c = false -> span p (A ++ c :: R) = span p A.
Proof.
  intros Hc. induction A as [|a A IH]; cbn; [now rewrite Hc|].
  destruct (p a); [now f_equal | reflexivity].
Qed.

Lemma span_length_le p (s : str) : length (span p s) <= length s.
Proof.
  induction s as [|c s IH]; cbn; [lia|]. destruct (p c); cbn; lia.
Qed.

Lemma span_split p (s : str) : exists r, s = span p s ++ r /\ stops p r.
Proof.
  induction s as [|c s IH]; cbn.
  - now exists [].
  - destruct (p c) eqn:E.
    + destruct IH as (r & Hs & Hr). exists r. split; [cbn; now f_equal | exact Hr].
    + exists (c :: s). split; [reflexivity | exact E].
Qed.

Lemma sub_blind_past_sigil R1 R2 :
  blind_past match_sigil_ws_digits (sigil :: R1) (sigil :: R2).
Proof.
  intros a A. unfold match_sigil_ws_digits. destruct (is_sigil a); [|reflexivity].
  rewrite !(span_stop re_s A _ sigil eq_refl).
  pose proof (span_length_le re_s A) as Hle.
  rewrite !skipn_app.
  replace (length (span re_s A) - length A) with 0 by lia. cbn [skipn].
  now rewrite !(span_stop re_d _ _ sigil eq_refl).
Qed.

Lemma re_scan_prefix_local {B} (m : str -> option (list B * nat)) (u : ascii -> list B)
      (T1 T2 : str) :
  blind_past m T1 T2 -> ends_before m T1 ->
  forall X skip, skip <= length X ->
    exists out,
      re_scan m u skip (X ++ T1) = out ++ re_scan m u 0 T1 /\
      re_scan m u skip (X ++ T2) = out ++ re_scan m u 0 T2.
Proof.
  intros Hblind Hend X. induction X as [|a X IH]; intros skip Hs; cbn [app length] in *.
  - assert (skip = 0) as -> by lia. now exists [].
  - destruct skip as [|n]; cbn [re_scan].
    + rewrite <- (Hblind a X).
      destruct (m (a :: X ++ T1)) as [[out len]|] eqn:E.
      * apply Hend in E. destruct (IH (len - 1)) as (o & H1 & H2); [lia|].
        exists (out ++ o). rewrite H1, H2. now rewrite <- !app_assoc.
      * destruct (IH 0) as (o & H1 & H2); [lia|].
        exists (u a ++ o). rewrite H1, H2. now rewrite <- !app_assoc.
    + apply IH. lia.
Qed.

Lemma join_spaced_like_joined (ws ds Y : str) :
  forallb re_s ws = true -> forallb re_d ds = true -> ds <> [] ->
  re_scan match_sigil_ws_digits (fun c => [c]) 0 (sigil :: ws ++ ds ++ Y)
  = re_scan match_sigil_ws_digits (fun c => [c]) 0 (sigil :: ds ++ Y).
Proof.
  intros Hws Hds Hne.
  destruct (span_split re_d Y) as (Y' & HY & Hstop).
  set (dz := span re_d Y) in *.
  assert (Hall : forallb re_d (ds ++ dz) = true).
  { rewrite forallb_app, Hds. apply span_forallb. }
  assert (Hne' : ds ++ dz <> []) by (destruct ds; [congruence | discriminate]).
  rewrite HY. rewrite !(app_assoc ds dz Y').
  rewrite (join_sigil_at_pattern ws (ds ++ dz) Y' Hws Hall Hne' Hstop).
  pose proof (join_sigil_at_pattern [] (ds ++ dz) Y' eq_refl Hall Hne' Hstop) as H.
  cbn [app] in H. now rewrite H.
Qed.

(** X2. White space between the sigil and its digits makes no difference
    to the tokens: a text with the spaced form and the same text with the
    joined form are tokenized alike. *)
Theorem spaced_sigil_tokenizes_like_joined (pre ws ds post : str) :
  forallb re_s ws = true ->
  forallb re_d ds = true ->
  ds <> [] ->
  _tokenize_text (pre ++ sigil :: ws ++ ds ++ post)
  = _tokenize_text (pre ++ sigil :: ds ++ post).
Proof.
  intros Hws Hds Hne. unfold _tokenize_text. f_equal. f_equal.
  rewrite (lower_pattern pre ws ds post Hws Hds).
  pose proof (lower_pattern pre [] ds post eq_refl Hds) as Hlow.
  cbn [app] in Hlow. rewrite Hlow.
  unfold join_sigil.
  destruct (re_scan_prefix_local match_sigil_ws_digits (fun c => [c])
              (sigil :: ws ++ ds ++ lower post) (sigil :: ds ++ lower post)
              (sub_blind_past_sigil _ _) (sub_ends_before_sigil _)
              (lower pre) 0 ltac:(lia)) as (out & -> & ->).
  f_equal. now apply join_spaced_like_joined.
Qed.

Lemma spaced_sigil_tokenizes_like_joined_witness :
  _tokenize_text (lit "nach " ++ sigil :: lit "  " ++ lit "12" ++ lit "3 StGB")
  = _tokenize_text (lit "nach " ++ sigil :: lit "12" ++ lit "3 StGB").
Proof.
  apply (spaced_sigil_tokenizes_like_joined (lit "nach ") (lit "  ") (lit "12") (lit "3 StGB"));
    [reflexivity | reflexivity | discriminate].
Defined.

End TokenizerLaws.

(** ** More on the lexical index *)

Module IndexLaws.
Import Tokenizer.
Import BM25.
Import BM25Facts.

(** *** Rebuilding from the vector store *)

Lemma sync_loop_nodes results doc_ids : forall i self,
  nodes (sync_loop results i doc_ids self) = nodes self ++ fresh_nodes results i doc_ids.
Proof.
  induction doc_ids as [|d rest IH]; intros i self; cbn.
  - now rewrite app_nil_r.
  - rewrite IH. unfold sync_step. destruct (is_blank (document_at results i)); cbn.
    + reflexivity.
    + now rewrite <- app_assoc.
Qed.

(** A step with an identifier that is not indexed yet is an upsert. *)
Lemma sync_step_upsert results i d self :
  node_id_map self !! d = None ->
  is_blank (document_at results i) = false ->
  upsert self (node_at results i d) = Returned (sync_step results i d self).
Proof.
  intros Hfresh Hb. unfold upsert, sync_step. cbn [id_ node_at].
  now rewrite Hfresh, Hb.
Qed.

Lemma sync_step_map_other results i d d' self :
  d' <> d -> node_id_map (sync_step results i d self) !! d' = node_id_map self !! d'.
Proof.
  intros NE. unfold sync_step. destruct (is_blank _); [reflexivity|].
  cbn. now rewrite lookup_insert_ne.
Qed.

Lemma sync_loop_consistent results doc_ids : forall i self,
  consistent self ->
  NoDup doc_ids ->
  (forall d, d ∈ doc_ids -> node_id_map self !! d = None) ->
  consistent (sync_loop results i doc_ids self).
Proof.
  induction doc_ids as [|d rest IH]; intros i self Hc Hnd Hfresh; [exact Hc|].
  apply NoDup_cons in Hnd as [Hd Hnd]. cbn [sync_loop]. apply IH; [|exact Hnd|].
  - destruct (is_blank (document_at results i)) eqn:Hb.
    + unfold sync_step. now rewrite Hb.
    + destruct (upsert_consistent self (node_at results i d) Hc) as (s' & E & Hc' & _).
      rewrite (sync_step_upsert results i d self) in E by (auto; apply Hfresh; left).
      now injection E as <-.
  - intros d' Hd'. rewrite sync_step_map_other.
    + apply Hfresh. now right.
    + intros ->. contradiction.
Qed.

Lemma fresh_nodes_In results doc_ids : forall i node,
  In node (fresh_nodes results i doc_ids) <->
  exists j d, doc_ids !! j = Some d /\
              node = node_at results (i + j) d /\
              is_blank (document_at results (i + j)) = false.
Proof.
  induction doc_ids as [|d rest IH]; intros i node; cbn [fresh_nodes].
  - split; [intros [] | intros (j & d & H & _); discriminate].
  - rewrite in_app_iff, IH. split.
    + intros [H|(j & d' & Hj & Hn & Hb)].
      * destruct (is_blank (document_at results i)) eqn:Hb; [contradiction|].
        destruct H as [<-|[]]. exists 0, d. rewrite Nat.add_0_r. auto.
      * exists (S j), d'. rewrite Nat.add_succ_r. auto.
    + intros (j & d' & Hj & Hn & Hb). destruct j as [|j].
      * left. rewrite Nat.add_0_r in *. cbn in Hj. injection Hj as <-.
        rewrite Hb. now left.
      * right. exists j, d'. rewrite Nat.add_succ_r in *. auto.
Qed.

Lemma fresh_nodes_sublist results doc_ids : forall i,
  sublist (map id_ (fresh_nodes results i doc_ids)) doc_ids.
Proof.
  induction doc_ids as [|d rest IH]; intros i; cbn [fresh_nodes]; [constructor|].
  destruct (is_blank (document_at results i)); cbn.
  - apply sublist_cons, IH.
  - apply sublist_skip, IH.
Qed.

Lemma fresh_nodes_nonblank results doc_ids : forall i,
  Forall (fun node => is_blank (text node) = false) (fresh_nodes results i doc_ids).
Proof.
  induction doc_ids as [|d rest IH]; intros i; cbn [fresh_nodes]; [constructor|].
  apply Forall_app. split; [|apply IH].
  destruct (is_blank (document_at results i)) eqn:Hb; constructor; [exact Hb | constructor].
Qed.

(** X3. Rebuilding from a store whose identifiers are distinct and which
    holds at least one document that is not blank and yields a token
    returns and leaves a consistent index, whatever the index held before:
    its chunks are exactly the store's documents whose text is not blank,
    each under its own identifier and in the store's order, and the
    scoring structure is rebuilt from their tokens.  (When no document
    that is kept yields a token, the scoring library's constructor raises
    and the call raises with it.) *)
Theorem rebuild_from_store_keeps_nonblank_documents
        (io_ok : bool) (file : IndexFile) (self : BM25IndexManager) (results : GetResult) :
  NoDup (ids results) ->
  (exists i d, ids results !! i = Some d /\
               is_blank (document_at results i) = false /\
               _tokenize_text (document_at results i) <> []) ->
  exists self' file',
    update_with_chroma_results io_ok file self (Returned (Some results))
    = Returned (self', file') /\
    consistent self' /\
    (forall node, In node (nodes self') <->
       exists i d, ids results !! i = Some d /\
                   node = node_at results i d /\
                   is_blank (document_at results i) = false) /\
    sublist (map id_ (nodes self')) (ids results) /\
    Forall (fun node => is_blank (text node) = false) (nodes self') /\
    bm25_index self' = Some (map (fun node => _tokenize_text (text node)) (nodes self')).
Proof.
  intros Hnd (i0 & d0 & Hi0 & Hb0 & Ht0). unfold update_with_chroma_results.
  set (cleared := {| bm25_index := bm25_index self; nodes := []; node_id_map := ∅ |}).
  assert (Hnodes : nodes (sync_loop results 0 (ids results) cleared)
                   = fresh_nodes results 0 (ids results)).
  { now rewrite sync_loop_nodes. }
  assert (Hsome : In (node_at results i0 d0) (fresh_nodes results 0 (ids results))).
  { apply fresh_nodes_In. exists i0, d0. auto. }
  rewrite Hnodes.
  assert (Htok : tokenless (map (fun node => _tokenize_text (text node))
                                (fresh_nodes results 0 (ids results))) = false).
  { apply BM25Facts.tokenless_false. exists (_tokenize_text (document_at results i0)).
    split; [|exact Ht0].
    exact (in_map (fun node => _tokenize_text (text node)) _ _ Hsome). }
  unfold bm25_okapi. rewrite Htok. cbn [mbind outcome_bind Py.bind].
  eexists _, _. split; [reflexivity|]. cbn [nodes bm25_index node_id_map].
  split; [|split; [|split; [|split]]].
  - assert (Hc : consistent (sync_loop results 0 (ids results) cleared)).
    { apply sync_loop_consistent; [|exact Hnd|].
      - intros i idx. cbn. rewrite lookup_empty. split; [discriminate|].
        intros (n & Hn & _). discriminate.
      - intros d _. apply lookup_empty. }
    intros i idx. cbn [nodes node_id_map]. rewrite <- Hnodes. apply Hc.
  - intros node. apply fresh_nodes_In.
  - apply fresh_nodes_sublist.
  - apply fresh_nodes_nonblank.
  - reflexivity.
Qed.

Lemma rebuild_from_store_keeps_nonblank_documents_witness :
  exists self' file',
    update_with_chroma_results true Absent two_docs (Returned (Some three_stored))
    = Returned (self', file') /\
    consistent self' /\
    (forall node, In node (nodes self') <->
       exists i d, ids three_stored !! i = Some d /\
                   node = node_at three_stored i d /\
                   is_blank (document_at three_stored i) = false) /\
    sublist (map id_ (nodes self')) (ids three_stored) /\
    Forall (fun node => is_blank (text node) = false) (nodes self') /\
    bm25_index self' = Some (map (fun node => _tokenize_text (text node)) (nodes self')).
Proof.
  apply (rebuild_from_store_keeps_nonblank_documents true Absent two_docs three_stored).
  - unfold three_stored. cbn. repeat (apply NoDup_cons; split; [set_solver|]). constructor.
  - exists 0, "x"%string. split; [reflexivity|]. split; [reflexivity|].
    vm_compute. discriminate.
Defined.

(** A store whose only document is punctuation: the document is kept,
    no token comes of it, and the rebuild raises. *)
Example rebuild_tokenless_raises :
  update_with_chroma_results true Absent two_docs
    (Returned (Some {| ids := ["p"%string]; documents := [lit "!!!"]; metadatas := [[]] |}))
  = Raised ZeroDivisionError.
Proof. vm_compute. reflexivity. Qed.

Example rebuild_sample :
  (fun o => match o with
            | Returned (s, _) => map id_ (nodes s)
            | Raised _ => []
            end)
    (update_with_chroma_results true Absent two_docs (Returned (Some three_stored)))
  = ["x"; "z"]%string.
Proof. vm_compute. reflexivity. Qed.

(** *** Adding the same chunks again *)

Lemma consistent_injective self i j idx :
  consistent self ->
  node_id_map self !! i = Some idx -> node_id_map self !! j = Some idx -> i = j.
Proof.
  intros Hc Hi Hj. apply Hc in Hi as (n1 & H1 & <-). apply Hc in Hj as (n2 & H2 & <-).
  congruence.
Qed.

Lemma upsert_map_extends self node self' i idx :
  upsert self node = Returned self' ->
  node_id_map self !! i = Some idx -> node_id_map self' !! i = Some idx.
Proof.
  unfold upsert. destruct (node_id_map self !! id_ node) as [idx0|] eqn:E.
  - destruct (idx0 <? length (nodes self)); [|discriminate]. now intros [= <-].
  - intros [= <-] Hi. cbn. rewrite lookup_insert_ne; [exact Hi | congruence].
Qed.

(** The loop leaves, at the position of every identifier, the last chunk
    of the batch that carries it, and what was there before when the
    batch has none. *)
Lemma upsert_all_last new_nodes : forall self,
  consistent self ->
  exists self',
    upsert_all self new_nodes = Returned self' /\
    consistent self' /\
    (forall i idx, node_id_map self !! i = Some idx -> node_id_map self' !! i = Some idx) /\
    (forall node, In node new_nodes -> is_Some (node_id_map self' !! id_ node)) /\
    (forall i idx, node_id_map self' !! i = Some idx ->
       nodes self' !! idx = match last_with i new_nodes with
                            | Some node => Some node
                            | None => nodes self !! idx
                            end) /\
    ((forall node, In node new_nodes -> is_Some (node_id_map self !! id_ node)) ->
     node_id_map self' = node_id_map self /\ length (nodes self') = length (nodes self)).
Proof.
  induction new_nodes as [|node rest IH]; intros self Hc.
  - exists self. split; [reflexivity|]. split; [exact Hc|]. split; [auto|].
    split; [intros n []|]. split; [intros i idx _; reflexivity | auto].
  - destruct (upsert_consistent self node Hc) as (s1 & E1 & Hc1 & _ & Hshape).
    destruct (IH s1 Hc1) as (s' & E' & Hc' & Hext & Hin & Hlast & Hsame).
    exists s'. cbn [upsert_all]. rewrite E1. cbn. split; [exact E'|].
    split; [exact Hc'|].
    assert (Hext1 : forall i idx, node_id_map self !! i = Some idx ->
                                  node_id_map s1 !! i = Some idx)
      by (intros i idx; now apply upsert_map_extends with (node := node)).
    assert (Hnode1 : exists idx1, node_id_map s1 !! id_ node = Some idx1 /\
                                  nodes s1 !! idx1 = Some node).
    { destruct (node_id_map self !! id_ node) as [idx0|] eqn:E0.
      - destruct Hshape as (_ & Hat & _ & Hmap). exists idx0. rewrite Hmap. auto.
      - destruct Hshape as (Hn & Hmap). exists (length (nodes self)).
        rewrite Hmap, Hn, lookup_insert_eq. split; [reflexivity|].
        rewrite lookup_app_r by lia. now rewrite Nat.sub_diag. }
    destruct Hnode1 as (idx1 & Hidx1 & Hat1).
    split; [auto|]. split.
    { intros n [<-|Hn]; [|now apply Hin]. exists idx1. now apply Hext. }
    split.
    + intros i idx Hi. rewrite (Hlast i idx Hi). cbn [last_with].
      destruct (last_with i rest); [reflexivity|].
      destruct (String.eqb_spec (id_ node) i) as [<-|NE].
      * assert (idx = idx1) as -> by (apply Hext in Hidx1; congruence). exact Hat1.
      * assert (Hne : idx <> idx1).
        { intros ->. apply NE. apply Hext in Hidx1.
          now apply (consistent_injective s' _ _ idx1 Hc'). }
        destruct (node_id_map self !! id_ node) as [idx0|] eqn:E0.
        -- destruct Hshape as (_ & _ & Hother & Hmap).
           apply Hother. rewrite Hmap in Hidx1. congruence.
        -- destruct Hshape as (Hn & Hmap). rewrite Hn.
           rewrite Hmap, lookup_insert_eq in Hidx1. injection Hidx1 as <-.
           destruct (decide (idx < length (nodes self))) as [Hlt|Hge].
           ++ now rewrite lookup_app_l.
           ++ rewrite !lookup_ge_None_2; [reflexivity | lia |].
              rewrite length_app. cbn. lia.
    + intros Hall.
      destruct (Hall node (or_introl eq_refl)) as [idx0 E0]. rewrite E0 in Hshape.
      destruct Hshape as (Hlen & _ & _ & Hmap).
      destruct Hsame as [Hm Hl].
      * intros n Hn. rewrite Hmap. apply Hall. now right.
      * split; congruence.
Qed.

(** X4. Adding a batch of chunks a second time changes nothing: when
    [add_nodes] on a consistent index has returned, a second [add_nodes]
    with the same batch returns the very state the first one left, corpus,
    identifier map and scoring structure alike. *)
Theorem adding_the_same_chunks_again_changes_nothing
        (io_ok io_ok' : bool) (file file1 : IndexFile) (self self1 : BM25IndexManager)
        (new_nodes : list TextNode) :
  consistent (loaded file self) ->
  add_nodes io_ok file self new_nodes = Returned (self1, file1) ->
  exists file2,
    add_nodes io_ok' file1 self1 new_nodes = Returned (self1, file2).
Proof.
  intros Hc. unfold add_nodes.
  destruct new_nodes as [|node rest]; [intros [= <- <-]; now exists file|].
  set (batch := node :: rest).
  destruct (upsert_all_last batch _ Hc) as (s1 & E1 & Hc1 & _ & Hin1 & Hlast1 & _).
  rewrite E1. cbn [mbind outcome_bind Py.bind].
  destruct (rebuild s1) as [r1|] eqn:Er1; [|discriminate].
  intros [= <- <-].
  pose proof (BM25Facts.rebuild_returned s1 r1 Er1) as (Htok & Hidx & Hn1 & Hm1).
  assert (Hloaded : loaded (save io_ok r1 file) r1 = r1)
    by (unfold loaded; now rewrite Hidx).
  rewrite Hloaded.
  assert (Hcr : consistent r1) by exact (BM25Facts.rebuild_consistent s1 r1 Hc1 Er1).
  destruct (upsert_all_last batch _ Hcr) as (s2 & E2 & Hc2 & _ & _ & Hlast2 & Hsame2).
  rewrite E2. cbn [mbind outcome_bind Py.bind].
  destruct Hsame2 as [Hmap Hlen].
  { intros n Hn. rewrite Hm1. now apply Hin1. }
  assert (Hnodes : nodes s2 = nodes r1).
  { apply list_eq. intros idx. rewrite Hn1.
    destruct (nodes s1 !! idx) as [n1|] eqn:En1.
    - assert (Hi : node_id_map s1 !! id_ n1 = Some idx) by (apply Hc1; eauto).
      rewrite (Hlast2 (id_ n1) idx) by (rewrite Hmap, Hm1; exact Hi).
      pose proof (Hlast1 _ idx Hi) as H1. rewrite En1 in H1. rewrite Hn1.
      destruct (last_with (id_ n1) batch); [now symmetry | exact En1].
    - apply lookup_ge_None in En1. apply lookup_ge_None. rewrite Hn1 in Hlen. lia. }
  assert (Hcorpus : corpus_of s2 = corpus_of s1)
    by (unfold corpus_of; now rewrite Hnodes, Hn1).
  rewrite BM25Facts.rebuild_spec, Hcorpus, Htok.
  assert (Hr : {| bm25_index := Some (corpus_of s1);
                  nodes := nodes s2;
                  node_id_map := node_id_map s2 |} = r1).
  { rewrite Hnodes, Hmap, <- Hidx. now destruct r1. }
  rewrite Hr. eexists. reflexivity.
Qed.

Lemma adding_the_same_chunks_again_changes_nothing_witness :
  exists file2,
    add_nodes true (Pickled three_docs) three_docs [doc "b" "gamma"; doc "c" "delta"]
    = Returned (three_docs, file2).
Proof.
  apply (adding_the_same_chunks_again_changes_nothing
           true true Absent (Pickled three_docs) two_docs three_docs
           [doc "b" "gamma"; doc "c" "delta"]);
    [exact BM25Facts.two_docs_consistent | vm_compute; reflexivity].
Defined.

(** X5. A manager created afresh picks up where the last one stopped:
    after an [add_nodes] whose save succeeded, adding a further batch
    through a new, empty manager gives the same index and the same file
    as adding it through the manager that is still in memory. *)
Theorem fresh_manager_continues_from_saved_index
        (io_ok : bool) (file file1 : IndexFile) (self self1 : BM25IndexManager)
        (first more : list TextNode) :
  first <> [] ->
  more <> [] ->
  add_nodes true file self first = Returned (self1, file1) ->
  add_nodes io_ok file1 empty_manager more = add_nodes io_ok file1 self1 more.
Proof.
  intros Hfirst Hmore. unfold add_nodes.
  destruct first as [|n ns]; [congruence|].
  destruct (upsert_all (loaded file self) (n :: ns)) as [s1|e]; [|discriminate].
  cbn [mbind outcome_bind Py.bind].
  destruct (rebuild s1) as [r1|] eqn:Er1; [|discriminate].
  intros [= <- <-].
  apply BM25Facts.rebuild_returned in Er1 as (_ & Hidx & _ & _).
  destruct more as [|m ms]; [congruence|].
  assert (Hfresh : loaded (Pickled r1) empty_manager = r1) by reflexivity.
  assert (Hkept : loaded (Pickled r1) r1 = r1)
    by (unfold loaded; now rewrite Hidx).
  now rewrite Hfresh, Hkept.
Qed.

Lemma fresh_manager_continues_from_saved_index_witness :
  add_nodes true (Pickled two_docs) empty_manager [doc "c" "delta"]
  = add_nodes true (Pickled two_docs) two_docs [doc "c" "delta"].
Proof.
  apply (fresh_manager_continues_from_saved_index
           true Absent (Pickled two_docs) two_docs two_docs
           [doc "a" "alpha"] [doc "c" "delta"]);
    [discriminate | discriminate | vm_compute; reflexivity].
Defined.

End IndexLaws.

(** ** More on the fusion retriever *)

Module FusionLaws.
Import Tokenizer.
Import Fusion.
Import PyFacts.
Import FusionFacts.

Lemma init_spec n weights_arg K t self :
  init n weights_arg K t = Returned self ->
  length (weights self) = n /\ k self = K /\ top_k self = t.
Proof.
  unfold init.
  set (ws := match weights_arg with Some (w :: ws') => w :: ws' | _ => repeat 1%Q n end).
  destruct (Nat.eqb_spec (length ws) n) as [E|]; [|discriminate].
  intros [= <-]. auto.
Qed.

Lemma fuse_ranked_nil_result (md5_hexdigest : str -> string) K idx w rnk d :
  fuse_ranked md5_hexdigest K idx w rnk [] d = Returned d.
Proof. reflexivity. Qed.

Section WithHash.
Variable md5_hexdigest : str -> string.

Abbreviation node_key := (node_key md5_hexdigest).
Abbreviation result_key := (result_key md5_hexdigest).
Abbreviation fuse_one := (fuse_one md5_hexdigest).
Abbreviation fuse_ranked := (fuse_ranked md5_hexdigest).
Abbreviation fuse_retrievers := (fuse_retrievers md5_hexdigest).
Abbreviation fresh_entries := (fresh_entries md5_hexdigest).


Lemma fuse_one_returns K idx w d rnk nws :
  (Z.of_nat rnk + K <> 0)%Z -> exists d', fuse_one K idx w d rnk nws = Returned d'.
Proof.
  intros H. unfold Fusion.fuse_one. apply Z.eqb_neq in H. rewrite H. eauto.
Qed.

Lemma fuse_one_raises K idx w d rnk nws :
  (Z.of_nat rnk + K = 0)%Z -> fuse_one K idx w d rnk nws = Raised ZeroDivisionError.
Proof.
  intros H. unfold Fusion.fuse_one. apply Z.eqb_eq in H. now rewrite H.
Qed.

Lemma fuse_ranked_raises K idx w results : forall rnk d,
  (Z.of_nat rnk <= - K)%Z ->
  (- K < Z.of_nat (rnk + length results))%Z ->
  fuse_ranked K idx w rnk results d = Raised ZeroDivisionError.
Proof.
  induction results as [|nws rest IH]; intros rnk d Hlo Hhi.
  - cbn in Hhi. lia.
  - cbn [Fusion.fuse_ranked].
    destruct (Z.eq_dec (Z.of_nat rnk + K)%Z 0%Z) as [E|NE].
    + now rewrite fuse_one_raises.
    + destruct (fuse_one_returns K idx w d rnk nws NE) as [d' ->].
      cbn [mbind outcome_bind Py.bind]. apply IH; [lia|].
      cbn [length] in Hhi. lia.
Qed.

(** X7. With a [k] that is zero or negative, retrieval raises
    [ZeroDivisionError] as soon as the first sub-retriever returns more
    than [-k] results: the divisor [rank + k] reaches zero. *)
Theorem nonpositive_k_divides_by_zero
        (self : EnhancedHybridRetriever) (first : list NodeWithScore)
        (others : list (Outcome (list NodeWithScore))) :
  (k self <= 0)%Z ->
  weights self <> [] ->
  (- k self < Z.of_nat (length first))%Z ->
  _aretrieve md5_hexdigest self (Returned first :: others) = Raised ZeroDivisionError /\
  _retrieve md5_hexdigest self (Returned first :: others) = Raised ZeroDivisionError.
Proof.
  intros HK Hw Hlen. rewrite retrieve_sync_async.
  cut (_aretrieve md5_hexdigest self (Returned first :: others) = Raised ZeroDivisionError);
    [now split|].
  unfold _aretrieve, _fuse_results. cbn [map processed].
  destruct (weights self) as [|w ws]; [congruence|].
  cbn [Fusion.fuse_retrievers].
  rewrite (fuse_ranked_raises (k self) 0 w first 0 []); [reflexivity | lia | cbn; lia].
Qed.

(** *** A single list that returns *)

Lemma update_app_fresh key f d e :
  key ∉ keys d -> update key f (d ++ [(key, e)]) = d ++ [(key, f e)].
Proof.
  induction d as [|[k' e'] t IH]; intros Hn; cbn.
  - now rewrite String.eqb_refl.
  - cbn in Hn. apply not_elem_of_cons in Hn as [NE Hn].
    apply String.eqb_neq in NE. rewrite NE. f_equal. now apply IH.
Qed.

Lemma fuse_one_fresh K idx w d rnk nws :
  (Z.of_nat rnk + K <> 0)%Z ->
  result_key nws ∉ keys d ->
  fuse_one K idx w d rnk nws
  = Returned (d ++ [(result_key nws, entry_for K idx w rnk nws)]).
Proof.
  intros HK Hn. unfold Fusion.fuse_one. apply Z.eqb_neq in HK. rewrite HK.
  fold (result_key nws). rewrite has_key_spec, bool_decide_eq_false_2 by exact Hn.
  now rewrite update_app_fresh.
Qed.

Lemma keys_fresh_entries K idx w results : forall rnk,
  keys (fresh_entries K idx w rnk results) = map result_key results.
Proof.
  induction results as [|nws rest IH]; intros rnk; cbn; [reflexivity|]. f_equal. apply IH.
Qed.

Lemma fuse_ranked_fresh K idx w results : forall rnk d,
  (0 < K)%Z ->
  NoDup (map result_key results) ->
  (forall key, key ∈ map result_key results -> key ∉ keys d) ->
  fuse_ranked K idx w rnk results d = Returned (d ++ fresh_entries K idx w rnk results).
Proof.
  induction results as [|nws rest IH]; intros rnk d HK Hnd Hfresh.
  - cbn. now rewrite app_nil_r.
  - cbn [map] in Hnd. apply NoDup_cons in Hnd as [Hhead Hnd].
    cbn [Fusion.fuse_ranked].
    rewrite fuse_one_fresh; [|lia | apply Hfresh; left].
    cbn [mbind outcome_bind Py.bind]. rewrite IH; [|exact HK | exact Hnd|].
    + cbn [Fusion.fresh_entries]. now rewrite <- app_assoc.
    + intros key Hkey. unfold keys. rewrite map_app. cbn.
      rewrite elem_of_app, list_elem_of_singleton. intros [Hd| ->].
      * apply (Hfresh key); [now right | exact Hd].
      * contradiction.
Qed.

(** Sub-retrievers that returned nothing leave the dict as it is. *)
Lemma fuse_retrievers_skip_empty K (es : list exn) : forall idx ws1 rs ws d,
  length ws1 = length es ->
  fuse_retrievers K idx (map (fun _ => []) es ++ rs) (ws1 ++ ws) d
  = fuse_retrievers K (idx + length es) rs ws d.
Proof.
  induction es as [|e es IH]; intros idx ws1 rs ws d Hlen.
  - destruct ws1; [|discriminate]. cbn. now rewrite Nat.add_0_r.
  - destruct ws1 as [|w ws1]; [discriminate|]. injection Hlen as Hlen.
    cbn. rewrite IH by exact Hlen. f_equal. lia.
Qed.

Lemma sorted_desc_of_sorted {A} (key : A -> Q) (l : list A) :
  StronglySorted (fun a b => (key b <= key a)%Q) l -> sorted_desc key l = l.
Proof.
  induction 1 as [|x t Hst IH Hx]; [reflexivity|].
  cbn [sorted_desc fold_right]. fold (sorted_desc key t). rewrite IH.
  destruct t as [|y t']; [reflexivity|]. cbn.
  apply Forall_cons in Hx as [Hy _]. apply Qle_bool_iff in Hy. now rewrite Hy.
Qed.

Lemma reciprocal_antitone (a b : Q) :
  (0 < a)%Q -> (a <= b)%Q -> (1 / b <= 1 / a)%Q.
Proof.
  intros Ha Hab. assert (Hb : (0 < b)%Q) by (eapply Qlt_le_trans; eauto).
  apply Qle_shift_div_r; [exact Hb|].
  assert (H : (1 <= b / a)%Q) by (apply Qle_shift_div_l; [exact Ha | now rewrite Qmult_1_l]).
  assert (E : (1 / a * b == b / a)%Q) by (unfold Qdiv; ring).
  now rewrite E.
Qed.

Lemma fresh_entries_score_le K idx w results : forall rnk key e,
  (0 < K)%Z -> (0 <= w)%Q ->
  In (key, e) (fresh_entries K idx w rnk results) ->
  (e_score e <= 0 + w * (1 / inject_Z (Z.of_nat rnk + K)))%Q.
Proof.
  induction results as [|nws rest IH]; intros rnk key e HK Hw Hin; [contradiction|].
  cbn in Hin. destruct Hin as [[= <- <-]|Hin]; [apply Qle_refl|].
  eapply Qle_trans; [apply (IH (S rnk) key e HK Hw Hin)|].
  apply Qplus_le_compat; [apply Qle_refl|].
  rewrite !(Qmult_comm w). apply Qmult_le_compat_r; [|exact Hw].
  apply reciprocal_antitone.
  - change 0%Q with (inject_Z 0). rewrite <- Zlt_Qlt. lia.
  - rewrite <- Zle_Qle. lia.
Qed.

Lemma fresh_entries_descending K idx w results : forall rnk,
  (0 < K)%Z -> (0 <= w)%Q ->
  StronglySorted (fun a b => (e_score b <= e_score a)%Q)
                 (map snd (fresh_entries K idx w rnk results)).
Proof.
  induction results as [|nws rest IH]; intros rnk HK Hw; cbn; constructor.
  - now apply IH.
  - rewrite List.Forall_forall. intros e He. apply in_map_iff in He as ([key e'] & <- & He).
    cbn [snd]. eapply Qle_trans; [apply (fresh_entries_score_le _ _ _ _ _ _ _ HK Hw He)|].
    cbn. apply Qplus_le_compat; [apply Qle_refl|].
    rewrite !(Qmult_comm w). apply Qmult_le_compat_r; [|exact Hw].
    apply reciprocal_antitone.
    + change 0%Q with (inject_Z 0). rewrite <- Zlt_Qlt. lia.
    + rewrite <- Zle_Qle. lia.
Qed.

Lemma result_keys_of_entries K idx w results : forall rnk,
  map result_key (map to_result (map snd (fresh_entries K idx w rnk results)))
  = map result_key results.
Proof.
  induction results as [|nws rest IH]; intros rnk; cbn; [reflexivity|]. f_equal. apply IH.
Qed.

Lemma fresh_entries_lookup_score K idx w results : forall rnk i nws,
  to_result <$> (snd <$> fresh_entries K idx w rnk results !! i) = Some nws ->
  score nws = (0 + w * (1 / inject_Z (Z.of_nat (rnk + i) + K)))%Q.
Proof.
  induction results as [|r rest IH]; intros rnk i nws Hi; [destruct i; discriminate|].
  destruct i as [|i]; cbn in Hi.
  - injection Hi as <-. cbn. now rewrite Nat.add_0_r.
  - rewrite (IH (S rnk) i nws Hi). do 5 f_equal. lia.
Qed.


End WithHash.

Lemma nonpositive_k_divides_by_zero_witness :
  _aretrieve sample_digest {| weights := [1%Q]; k := 0; top_k := 10 |}
             [Returned [hit "c1" 1]] = Raised ZeroDivisionError /\
  _retrieve sample_digest {| weights := [1%Q]; k := 0; top_k := 10 |}
            [Returned [hit "c1" 1]] = Raised ZeroDivisionError.
Proof.
  apply (nonpositive_k_divides_by_zero sample_digest
           {| weights := [1%Q]; k := 0; top_k := 10 |} [hit "c1" 1] []);
    [cbn; lia | discriminate | cbn; lia].
Defined.



End FusionLaws.

(** ** The hybrid path: factory, fusion, conversion *)

Module HybridPathLaws.
Import Tokenizer.
Import Fusion.
Import Factory.
Import Engine.
Import PyFacts.
Import FusionFacts.
Import FusionLaws.

Lemma is_Some_insert (m : gmap nat Contribution) (idx i : nat) (c : Contribution) :
  is_Some (<[idx := c]> m !! i) <-> i = idx \/ is_Some (m !! i).
Proof.
  destruct (decide (idx = i)) as [->|NE].
  - rewrite lookup_insert_eq. split; [now left | eauto].
  - rewrite lookup_insert_ne by exact NE. split; [now right|]. intros [->|H]; [congruence | exact H].
Qed.

Lemma get_present key d : key ∈ keys d -> exists e, get key d = Some e.
Proof.
  induction d as [|[k' e'] t IH]; intros Hin; [inversion Hin|]. cbn in *.
  destruct (String.eqb_spec key k') as [->|NE]; [eauto|].
  apply elem_of_cons in Hin as [?|Hin]; [congruence | now apply IH].
Qed.

Section WithHash.
Variable md5_hexdigest : str -> string.

Abbreviation result_key := (result_key md5_hexdigest).
Abbreviation fuse_one := (fuse_one md5_hexdigest).
Abbreviation fuse_ranked := (fuse_ranked md5_hexdigest).
Abbreviation fuse_retrievers := (fuse_retrievers md5_hexdigest).
Abbreviation returned_by := (returned_by md5_hexdigest).

(** *** Which sub-retrievers a result records *)

Lemma fuse_one_contributed K idx w d rnk nws d' :
  fuse_one K idx w d rnk nws = Returned d' ->
  forall key i,
    contributed d' key i <-> contributed d key i \/ (key = result_key nws /\ i = idx).
Proof.
  unfold Fusion.fuse_one. destruct (Z.of_nat rnk + K =? 0)%Z; [discriminate|].
  fold (result_key nws). set (key0 := result_key nws).
  set (e0 := {| e_node := node nws; e_score := 0; e_contributions := ∅ |}).
  set (d1 := if has_key key0 d then d else d ++ [(key0, e0)]).
  intros [= <-] key i.
  assert (Hget1 : get key0 d1 = match get key0 d with Some e => Some e | None => Some e0 end).
  { unfold d1. rewrite has_key_spec. case_bool_decide as Hin.
    - destruct (get_present _ _ Hin) as [e ->]. reflexivity.
    - rewrite get_app, (get_absent _ _ Hin). cbn. now rewrite String.eqb_refl. }
  assert (Hother : forall key', key' <> key0 -> get key' d1 = get key' d).
  { intros key' NE. unfold d1. destruct (has_key key0 d); [reflexivity|].
    rewrite get_app. destruct (get key' d); [reflexivity|].
    cbn. apply String.eqb_neq in NE. now rewrite NE. }
  unfold contributed. destruct (String.eqb_spec key key0) as [->|NE].
  - rewrite get_update_eq, Hget1. destruct (get key0 d) as [e|]; cbn.
    + split.
      * intros (e' & [= <-] & Hs). cbn in Hs. apply is_Some_insert in Hs as [->|Hs]; eauto.
      * intros [(e' & [= <-] & Hs)|[_ ->]]; eexists; (split; [reflexivity|]); cbn;
          apply is_Some_insert; auto.
    + split.
      * intros (e' & [= <-] & Hs). cbn in Hs. apply is_Some_insert in Hs as [->|Hs]; [auto|].
        rewrite lookup_empty in Hs. now destruct Hs.
      * intros [(e' & [=] & _)|[_ ->]]. eexists. split; [reflexivity|]. cbn.
        apply is_Some_insert. auto.
  - rewrite get_update_ne, Hother by exact NE. split; [auto|]. intros [H|[? _]]; [exact H | congruence].
Qed.

Lemma fuse_ranked_contributed K idx w results : forall rnk d d',
  fuse_ranked K idx w rnk results d = Returned d' ->
  forall key i,
    contributed d' key i <->
    contributed d key i \/ (i = idx /\ key ∈ map result_key results).
Proof.
  induction results as [|nws rest IH]; intros rnk d d' E key i.
  - injection E as <-. split; [auto|]. intros [H|[_ H]]; [exact H | inversion H].
  - cbn [Fusion.fuse_ranked] in E.
    destruct (fuse_one K idx w d rnk nws) as [d1|e] eqn:E1; [|discriminate].
    cbn [mbind outcome_bind Py.bind] in E.
    rewrite (IH _ _ _ E key i), (fuse_one_contributed _ _ _ _ _ _ _ E1 key i).
    cbn [map]. rewrite elem_of_cons. tauto.
Qed.

Lemma fuse_retrievers_contributed K rs : forall ws idx d d',
  fuse_retrievers K idx rs ws d = Returned d' ->
  forall key i,
    contributed d' key i <->
    contributed d key i \/ (exists j, i = idx + j /\ returned_by rs ws j key).
Proof.
  induction rs as [|results rs IH]; intros ws idx d d' E key i.
  - injection E as <-. split; [auto|].
    intros [H|(j & _ & (r & Hr & _))]; [exact H | discriminate].
  - destruct ws as [|w ws].
    { injection E as <-. split; [auto|].
      intros [H|(j & _ & (r & _ & Hlt & _))]; [exact H | cbn in Hlt; lia]. }
    cbn [Fusion.fuse_retrievers] in E.
    destruct (fuse_ranked K idx w 0 results d) as [d1|e] eqn:E1; [|discriminate].
    cbn [mbind outcome_bind Py.bind] in E.
    rewrite (IH _ _ _ _ E key i), (fuse_ranked_contributed _ _ _ _ _ _ _ E1 key i).
    split.
    + intros [[H|[-> Hin]]|(j & -> & (r & Hr & Hlt & Hin))].
      * now left.
      * right. exists 0. split; [lia|]. exists results. cbn. split; [reflexivity|].
        split; [lia | exact Hin].
      * right. exists (S j). split; [lia|]. exists r. cbn. split; [exact Hr|].
        split; [lia | exact Hin].
    + intros [H|(j & -> & (r & Hr & Hlt & Hin))]; [now left; left|].
      destruct j as [|j]; cbn in Hr, Hlt.
      * injection Hr as <-. left. right. split; [lia | exact Hin].
      * right. exists j. split; [lia|]. exists r. split; [exact Hr|]. split; [lia | exact Hin].
Qed.

(** X9. The provenance tag of a converted hybrid result says whether the
    second sub-retriever -- the lexical one, ['ranker_1'] -- returned the
    item: the tag is [hybrid] when it did, also when it alone did, and
    [vector] when it did not. *)
Theorem source_type_tells_whether_lexical_retriever_returned_it
        (self : EnhancedHybridRetriever) (rs : list (list NodeWithScore))
        (fused : list NodeWithScore) (name : string) (nws : NodeWithScore) :
  (0 < k self)%Z ->
  length (weights self) = length rs ->
  _fuse_results md5_hexdigest self rs = Returned fused ->
  In nws fused ->
  (returned_by rs (weights self) 1 (result_key nws) ->
   source_type (of_node name nws) = hybrid) /\
  (~ returned_by rs (weights self) 1 (result_key nws) ->
   source_type (of_node name nws) = vector).
Proof.
  intros HK Hlen E Hin. unfold _fuse_results in E.
  destruct rs as [|r0 rs']; [injection E as <-; contradiction|].
  set (rs := r0 :: rs') in *.
  assert (Hwk0 : well_keyed md5_hexdigest []) by (intros ? ? []).
  destruct (fuse_retrievers_spec md5_hexdigest (k self) rs (weights self) 0 [] HK Hlen Hwk0)
    as (d & Ed & Hkeys & Hwk & _).
  rewrite Ed in E. cbn [mbind outcome_bind Py.bind] in E. injection E as <-.
  apply in_map_iff in Hin as (e & <- & He). apply sorted_desc_In in He.
  apply in_map_iff in He as ([key e'] & Hsnd & Hd). cbn in Hsnd. subst e'.
  assert (Hnd : NoDup (keys d)) by (rewrite Hkeys; apply NoDup_first_seen_from; constructor).
  pose proof (get_member _ _ _ Hnd Hd) as Hget.
  pose proof (Hwk _ _ Hd) as Hkey.
  assert (Hiff : is_Some (e_contributions e !! 1) <-> returned_by rs (weights self) 1 key).
  { pose proof (fuse_retrievers_contributed _ _ _ _ _ _ Ed key 1) as H.
    split.
    - intros Hs. destruct H as [H _]. destruct H as [(e0 & He0 & _)|(j & Hj & Hr)].
      + exists e. auto.
      + discriminate.
      + now replace 1 with j by lia.
    - intros Hr. destruct H as [_ H]. destruct H as (e1 & He1 & Hs).
      + right. exists 1. auto.
      + congruence. }
  change (result_key (to_result e)) with (node_key md5_hexdigest (e_node e)).
  rewrite Hkey. unfold of_node. cbn [source_type to_result node retriever_contributions].
  split.
  - intros Hr. apply Hiff in Hr as [c ->]. reflexivity.
  - intros Hn. destruct (e_contributions e !! 1) eqn:Ec; [|reflexivity].
    exfalso. apply Hn, Hiff. eauto.
Qed.

(** *** How large a fused score can get *)

Lemma rrf_term_le_first K w rnk :
  (1 <= K)%Z -> (0 <= w)%Q -> (rrf_term K w rnk <= w * (1 / inject_Z K))%Q.
Proof.
  intros HK Hw. unfold rrf_term. rewrite !(Qmult_comm w).
  apply Qmult_le_compat_r; [|exact Hw]. apply reciprocal_antitone.
  - change 0%Q with (inject_Z 0). rewrite <- Zlt_Qlt. lia.
  - rewrite <- Zle_Qle. lia.
Qed.

Lemma rank_sum_le_first K w results : forall rnk key,
  (1 <= K)%Z -> (0 <= w)%Q -> NoDup (map result_key results) ->
  (rank_sum md5_hexdigest K w rnk results key <= w * (1 / inject_Z K))%Q.
Proof.
  induction results as [|nws rest IH]; intros rnk key HK Hw Hnd.
  - cbn. pose proof (rrf_term_bounds K w 0 HK Hw) as [H0 _].
    eapply Qle_trans; [exact H0|]. now apply rrf_term_le_first.
  - cbn in Hnd |- *. apply NoDup_cons in Hnd as [Hhead Hnd].
    destruct (String.eqb_spec key (result_key nws)) as [->|NE].
    + rewrite rank_sum_absent by exact Hhead. rewrite Qplus_0_r.
      now apply rrf_term_le_first.
    + rewrite Qplus_0_l. now apply IH.
Qed.

Lemma rrf_sum_le_first K rs : forall ws key,
  (1 <= K)%Z ->
  Forall (fun w => (0 <= w)%Q) ws ->
  Forall (fun results => NoDup (map result_key results)) rs ->
  (rrf_sum md5_hexdigest K rs ws key <= total_weight ws * (1 / inject_Z K))%Q.
Proof.
  assert (Hinv : (1 <= K)%Z -> (0 <= 1 / inject_Z K)%Q).
  { intros HK. apply Qle_shift_div_l.
    - change 0%Q with (inject_Z 0). rewrite <- Zlt_Qlt. lia.
    - rewrite Qmult_0_l. discriminate. }
  induction rs as [|results rs IH]; intros ws key HK Hws Hrs.
  - cbn. apply Qmult_le_0_compat; [|now apply Hinv].
    clear -Hws. induction Hws as [|w ws Hw Hws IHws]; cbn; [apply Qle_refl|].
    now apply Qplus_nonneg.
  - destruct ws as [|w ws].
    + cbn. rewrite Qmult_0_l. apply Qle_refl.
    + apply Forall_cons in Hws as [Hw Hws]. apply Forall_cons in Hrs as [Hr Hrs].
      cbn [Fusion.rrf_sum total_weight fold_right].
      rewrite Qmult_plus_distr_l. apply Qplus_le_compat.
      * now apply rank_sum_le_first.
      * now apply IH.
Qed.

(** X10. The retriever the factory builds for the engine -- lexical
    retriever requested, no weights given -- never raises on retrieval, and
    when no sub-retriever returns an item twice every fused score lies
    between 0 and 1/60.  Converted by the engine, such a result fails every
    relevance floor above 1/60. *)
Theorem factory_retriever_scores_at_most_one_sixtieth
        (sv : Services) (n : nat) (self : EnhancedHybridRetriever)
        (invocations : list (Outcome (list NodeWithScore))) :
  get_retriever_for_collection sv true None = Returned (n, self) ->
  length invocations = n ->
  Forall (fun o => NoDup (map result_key (processed o))) invocations ->
  exists out,
    _aretrieve md5_hexdigest self invocations = Returned out /\
    forall nws, In nws out ->
      (0 <= score nws)%Q /\ (score nws <= 1 # 60)%Q /\
      forall (m : Q) (name : string),
        (1 # 60 < m)%Q -> meets m (of_node name nws) = false.
Proof.
  intros Hfac Hlen Hnd.
  assert (Hself : k self = 60%Z /\ top_k self = 10%Z /\ length (weights self) = n /\
                  Forall (fun w => (0 <= w)%Q) (weights self) /\
                  (total_weight (weights self) == 1)%Q).
  { unfold get_retriever_for_collection in Hfac.
    destruct (client_get_collection sv); [|discriminate].
    destruct (vector_retriever sv); [|discriminate].
    destruct (bm25_retriever sv); cbn in Hfac; injection Hfac as <- <-; cbn;
      repeat split; repeat constructor; discriminate. }
  destruct Hself as (Hk & Htop & Hw & Hpos & Htot).
  unfold _aretrieve. destruct invocations as [|o rest].
  { exists []. split; [reflexivity|]. intros nws []. }
  set (rs := map processed (o :: rest)).
  destruct (fuse_results_spec md5_hexdigest self rs) as (fused & E & _ & Hscore & _);
    [lia | unfold rs; rewrite length_map; lia |].
  rewrite E. cbn [mbind outcome_bind Py.bind]. eexists. split; [reflexivity|].
  intros nws Hin. apply slice_to_incl in Hin.
  assert (Hrs : Forall (fun results => NoDup (map result_key results)) rs).
  { unfold rs. apply Forall_map. exact Hnd. }
  destruct (rrf_sum_bounds md5_hexdigest (k self) rs (weights self) (result_key nws))
    as [Hlo _]; [lia | exact Hpos | exact Hrs |].
  pose proof (rrf_sum_le_first (k self) rs (weights self) (result_key nws)
                ltac:(lia) Hpos Hrs) as Hhi.
  rewrite Htot, Hk, Qmult_1_l in Hhi.
  assert (Hlo' : (0 <= score nws)%Q) by (rewrite (Hscore nws Hin); exact Hlo).
  assert (Hhi' : (score nws <= 1 # 60)%Q) by (rewrite (Hscore nws Hin), Hk; exact Hhi).
  split; [exact Hlo'|]. split; [exact Hhi'|].
  intros m name Hm. unfold meets. cbn [relevance_score of_node].
  destruct (Qle_bool m (score nws)) eqn:Eb; [|reflexivity].
  apply Qle_bool_iff in Eb. exfalso.
  apply (Qlt_irrefl m). eapply Qle_lt_trans; [exact Eb|]. eapply Qle_lt_trans; eauto.
Qed.

End WithHash.

Lemma source_type_tells_whether_lexical_retriever_returned_it_witness :
  (returned_by sample_digest sample_lists [7 # 10; 3 # 10] 1
               (result_key sample_digest (to_result (entry_for 60 1 (3 # 10) 1 (hit "c3" 7)))) ->
   source_type (of_node "A" (to_result (entry_for 60 1 (3 # 10) 1 (hit "c3" 7)))) = hybrid) /\
  (~ returned_by sample_digest sample_lists [7 # 10; 3 # 10] 1
               (result_key sample_digest (to_result (entry_for 60 1 (3 # 10) 1 (hit "c3" 7)))) ->
   source_type (of_node "A" (to_result (entry_for 60 1 (3 # 10) 1 (hit "c3" 7)))) = vector).
Proof.
  apply (source_type_tells_whether_lexical_retriever_returned_it
           sample_digest factory_retriever sample_lists
           (match _fuse_results sample_digest factory_retriever sample_lists with
            | Returned l => l
            | Raised _ => []
            end) "A" (to_result (entry_for 60 1 (3 # 10) 1 (hit "c3" 7))));
    [reflexivity | reflexivity | vm_compute; reflexivity | vm_compute; tauto].
Defined.

Lemma factory_retriever_scores_at_most_one_sixtieth_witness :
  exists out,
    _aretrieve sample_digest factory_retriever (map Returned sample_lists) = Returned out /\
    forall nws, In nws out ->
      (0 <= score nws)%Q /\ (score nws <= 1 # 60)%Q /\
      forall (m : Q) (name : string),
        (1 # 60 < m)%Q -> meets m (of_node name nws) = false.
Proof.
  apply (factory_retriever_scores_at_most_one_sixtieth
           sample_digest all_built 2 factory_retriever (map Returned sample_lists));
    [reflexivity | reflexivity |].
  cbn. repeat constructor; set_solver.
Defined.

(** X11. The factory raises nothing but [CollectionNotFoundError] -- always
    that when the collection cannot be fetched -- and [RetrievalError], the
    latter also for weights whose number does not fit; when it returns, the
    retriever has one or two sub-retrievers, as many weights, [k = 60] and
    [top_k = 10]. *)
Theorem factory_returns_matching_weights_or_raises_its_two_errors
        (sv : Services) (use_bm25 : bool) (weights_arg : option (list Q)) :
  match get_retriever_for_collection sv use_bm25 weights_arg with
  | Returned (n, retriever) =>
      (n = 1 \/ n = 2) /\ length (weights retriever) = n /\
      k retriever = 60%Z /\ top_k retriever = 10%Z
  | Raised e =>
      (e = CollectionNotFoundError \/ e = RetrievalError) /\
      ((exists e', client_get_collection sv = Raised e') -> e = CollectionNotFoundError)
  end.
Proof.
  unfold get_retriever_for_collection.
  destruct (client_get_collection sv) as [[]|e0].
  2:{ split; [now left | reflexivity]. }
  destruct (vector_retriever sv) as [[]|e1].
  2:{ split; [destruct e1; cbn; auto | intros [e' H]; discriminate]. }
  set (choice := if use_bm25 then _ else _).
  assert (Hn : fst choice = 1 \/ fst choice = 2).
  { unfold choice. destruct use_bm25; [destruct (bm25_retriever sv)|]; cbn; auto. }
  destruct choice as [n ws]. cbn [fst] in Hn.
  destruct (init n ws default_k default_top_k) as [r|e] eqn:E.
  - apply init_spec in E as (Hl & Hk & Ht). auto.
  - split; [destruct e; cbn; auto | intros [e' H]; discriminate].
Qed.

Example factory_mismatched_weights :
  get_retriever_for_collection all_built true (Some [1%Q; 1%Q; 1%Q]) = Raised RetrievalError.
Proof. reflexivity. Qed.

End HybridPathLaws.

(** ** Merging: what both strategies guarantee *)

Module MergeLaws.
Import Py PyFacts Tokenizer Fusion Engine MergeFacts.

(** *** Columns and rounds *)

(** Reading a list index by index gives the list back. *)
Lemma column_of_lookups {A} (v : list A) : forall m,
  length v <= m ->
  flat_map (fun i => match v !! i with Some r => [r] | None => [] end) (seq 0 m) = v.
Proof.
  induction v as [|x v IH]; intros m Hle.
  - apply flat_map_nil. intros i _. reflexivity.
  - destruct m as [|m]; [cbn in Hle; lia|].
    cbn [seq flat_map]. rewrite <- seq_shift.
    rewrite flat_map_concat_map, map_map, <- flat_map_concat_map.
    cbn. f_equal. apply IH. cbn in Hle. lia.
Qed.

Lemma flat_map_app_perm {A B} (f g : A -> list B) (l : list A) :
  Permutation (flat_map (fun x => f x ++ g x) l) (flat_map f l ++ flat_map g l).
Proof.
  induction l as [|x l IH]; [reflexivity|]. cbn. rewrite IH.
  rewrite <- !app_assoc. apply Permutation_app_head.
  rewrite !app_assoc. apply Permutation_app_tail. apply Permutation_app_comm.
Qed.

(** Walking the dict row by row visits what walking it column by column
    visits. *)
Lemma transpose_perm (d : ByCollection) m :
  max_len d <= m ->
  Permutation (flat_map (fun i => row_items i d) (seq 0 m)) (concat (map snd d)).
Proof.
  induction d as [|[name v] t IH]; intros Hle.
  - cbn. rewrite flat_map_nil; [reflexivity|]. intros; reflexivity.
  - unfold max_len in *. cbn in Hle.
    etransitivity;
      [apply (flat_map_app_perm
                (fun i => match v !! i with Some r => [r] | None => [] end)
                (fun i => row_items i t))|].
    cbn [map concat snd]. rewrite column_of_lookups by lia.
    apply Permutation_app_head. apply IH. lia.
Qed.

Lemma filter_split_perm {A} (p q : A -> bool) (l : list A) :
  (forall x, In x l -> p x = true -> q x = false) ->
  Permutation (List.filter p l ++ List.filter q l) (List.filter (fun x => p x || q x) l).
Proof.
  induction l as [|x l IH]; intros H; [reflexivity|].
  cbn. specialize (IH (fun y Hy => H y (or_intror Hy))).
  destruct (p x) eqn:Ep.
  - rewrite (H x (or_introl eq_refl) Ep). cbn. now apply perm_skip.
  - cbn. destruct (q x).
    + rewrite <- Permutation_middle. now apply perm_skip.
    + exact IH.
Qed.

Lemma filter_all {A} (p : A -> bool) (l : list A) :
  (forall x, In x l -> p x = true) -> List.filter p l = l.
Proof.
  induction l as [|x l IH]; intros H; [reflexivity|].
  cbn. rewrite (H x) by now left. f_equal. apply IH. intros y Hy. apply H. now right.
Qed.

Lemma filter_none {A} (p : A -> bool) (l : list A) :
  (forall x, In x l -> p x = false) -> List.filter p l = [].
Proof.
  induction l as [|x l IH]; intros H; [reflexivity|].
  cbn. rewrite (H x) by now left. apply IH. intros y Hy. apply H. now right.
Qed.

(** The buckets of distinct collections split the results among them. *)
Lemma buckets_partition all : forall cs, NoDup cs ->
  Permutation (concat (map (bucket all) cs))
              (List.filter (fun r => bool_decide (collection_name r ∈ cs)) all).
Proof.
  induction cs as [|c cs IH]; intros Hnd.
  - cbn. rewrite filter_none; [reflexivity|].
    intros x _. apply bool_decide_eq_false_2. apply not_elem_of_nil.
  - apply NoDup_cons in Hnd as [Hc Hnd]. cbn [map concat]. rewrite (IH Hnd).
    unfold bucket. rewrite filter_split_perm.
    + erewrite List.filter_ext; [reflexivity|]. intros r. cbn.
      destruct (String.eqb_spec (collection_name r) c) as [->|Hne]; cbn.
      * symmetry. apply bool_decide_eq_true_2. apply elem_of_cons. now left.
      * apply bool_decide_ext. rewrite elem_of_cons. tauto.
    + intros r _ Hr. apply String.eqb_eq in Hr. subst c.
      now apply bool_decide_eq_false_2.
Qed.

Lemma round_robin_perm all : Permutation (round_robin all) all.
Proof.
  rewrite <- rounds_up_to_max_len. rewrite transpose_perm by lia.
  rewrite group_by_collection_spec, map_map. cbn [snd].
  rewrite buckets_partition by apply NoDup_first_seen.
  rewrite filter_all; [reflexivity|].
  intros r Hr. apply bool_decide_eq_true_2. apply elem_of_first_seen.
  apply list_elem_of_In. now apply in_map.
Qed.

(** For a result count of at least 1 the merge is a prefix of a
    rearrangement of its input. *)
Lemma merge_is_prefix_of_rearrangement
      (all_results : list QueryResult) (k : Z) (strategy : string) :
  (1 <= k)%Z ->
  exists l : list QueryResult,
    Permutation all_results l /\
    _merge_results all_results k strategy = take (Z.to_nat k) l.
Proof.
  intros Hk. destruct (String.eqb strategy "best") eqn:Hs.
  - exists (sorted_desc relevance_score all_results). split; [apply sorted_desc_perm|].
    unfold _merge_results. rewrite Hs.
    destruct all_results as [|r rest]; [symmetry; apply take_nil|].
    apply slice_to_nonneg. lia.
  - exists (round_robin all_results). split; [symmetry; apply round_robin_perm|].
    rewrite (interleave_closed_form _ _ _ Hs). do 2 f_equal. lia.
Qed.

(** With room for all of them, every result is returned. *)
Lemma merge_keeps_all_when_room
      (all_results : list QueryResult) (k : Z) (strategy : string) :
  (Z.of_nat (length all_results) <= k)%Z ->
  Permutation (_merge_results all_results k strategy) all_results.
Proof.
  intros Hroom. destruct all_results as [|r rest]; [reflexivity|].
  set (all := r :: rest) in *.
  destruct (merge_is_prefix_of_rearrangement all k strategy) as (l & Hp & ->).
  { cbn in Hroom. lia. }
  rewrite take_ge; [now symmetry|]. rewrite <- (Permutation_length Hp). lia.
Qed.

(** X12. Whatever the strategy, and for a result count of at least 1,
    [_merge_results] returns a part of what it was given -- no result is
    invented and none is returned more often than it came in -- and
    exactly [min(k, len(all_results))] of them; with [k] at least the
    number of results nothing is lost. *)
Theorem merge_returns_k_of_the_results_it_was_given
        (all_results : list QueryResult) (k : Z) (strategy : string) :
  (1 <= k)%Z ->
  let merged := _merge_results all_results k strategy in
  (exists left_out, Permutation all_results (merged ++ left_out)) /\
  length merged = Nat.min (Z.to_nat k) (length all_results) /\
  ((Z.of_nat (length all_results) <= k)%Z -> Permutation merged all_results).
Proof.
  intros Hk merged.
  assert (Hm : exists l, Permutation all_results l /\ merged = take (Z.to_nat k) l).
  { unfold merged. destruct (String.eqb strategy "best") eqn:Hs.
    - exists (sorted_desc relevance_score all_results). split; [apply sorted_desc_perm|].
      unfold _merge_results. rewrite Hs.
      destruct all_results as [|r rest]; [symmetry; apply take_nil|].
      apply slice_to_nonneg. lia.
    - exists (round_robin all_results). split; [symmetry; apply round_robin_perm|].
      rewrite (interleave_closed_form _ _ _ Hs). do 2 f_equal. lia. }
  destruct Hm as (l & Hp & ->).
  assert (Hlen : length (take (Z.to_nat k) l) = Nat.min (Z.to_nat k) (length all_results)).
  { rewrite length_take. now rewrite (Permutation_length Hp). }
  split; [|split].
  - exists (drop (Z.to_nat k) l). now rewrite take_drop.
  - exact Hlen.
  - intros Hall. rewrite take_ge; [now symmetry|].
    rewrite <- (Permutation_length Hp). lia.
Qed.

Lemma merge_returns_k_of_the_results_it_was_given_witness :
  let merged := _merge_results [a1; a2; a3; b1] 2 "interleave" in
  (exists left_out, Permutation [a1; a2; a3; b1] (merged ++ left_out)) /\
  length merged = Nat.min (Z.to_nat 2) (length [a1; a2; a3; b1]) /\
  ((Z.of_nat (length [a1; a2; a3; b1]) <= 2)%Z -> Permutation merged [a1; a2; a3; b1]).
Proof.
  apply (merge_returns_k_of_the_results_it_was_given [a1; a2; a3; b1] 2 "interleave").
  lia.
Defined.

(** *** The [best] strategy *)

Lemma insert_desc_descending {A} (key : A -> Q) x l :
  StronglySorted (fun a b => (key b <= key a)%Q) l ->
  StronglySorted (fun a b => (key b <= key a)%Q) (insert_desc key x l).
Proof.
  intros Hs. induction Hs as [|y t Hst IH Hy]; simpl.
  - repeat constructor.
  - destruct (Qle_bool (key y) (key x)) eqn:E.
    + apply Qle_bool_iff in E. constructor; [now constructor|].
      constructor; [exact E|].
      eapply List.Forall_impl; [|exact Hy]. intros b Hb. cbn in *.
      eapply Qle_trans; eauto.
    + constructor; [exact IH|].
      apply List.Forall_forall. intros b Hb.
      apply (Permutation_in _ (Permutation_sym (insert_desc_perm key x t))) in Hb.
      destruct Hb as [<-|Hb].
      * apply Qlt_le_weak. apply Qnot_le_lt. intros H.
        apply Qle_bool_iff in H. congruence.
      * rewrite List.Forall_forall in Hy. now apply Hy.
Qed.

Lemma sorted_desc_descending {A} (key : A -> Q) (l : list A) :
  StronglySorted (fun a b => (key b <= key a)%Q) (sorted_desc key l).
Proof.
  induction l as [|x l IH]; [constructor|].
  cbn [sorted_desc fold_right]. now apply insert_desc_descending.
Qed.

Lemma StronglySorted_app_parts {A} (R : A -> A -> Prop) (l1 l2 : list A) :
  StronglySorted R (l1 ++ l2) ->
  StronglySorted R l1 /\ forall a b, In a l1 -> In b l2 -> R a b.
Proof.
  induction l1 as [|x l1 IH]; cbn; intros Hs.
  - split; [constructor|]. intros a b [].
  - apply StronglySorted_inv in Hs as [Hs Hx]. destruct (IH Hs) as [H1 H2].
    rewrite List.Forall_forall in Hx. split.
    + constructor; [exact H1|]. apply List.Forall_forall. intros b Hb.
      apply Hx. apply in_or_app. now left.
    + intros a b [<-|Ha] Hb; [|now apply H2]. apply Hx. apply in_or_app. now right.
Qed.

(** X13. With the "best" strategy and a result count of at least 0,
    [_merge_results] returns the results in descending relevance, and
    every result it leaves out scores no higher than every result it
    returns. *)
Theorem best_returns_the_highest_scores_in_descending_order
        (all_results : list QueryResult) (k : Z) :
  (0 <= k)%Z ->
  let merged := _merge_results all_results k "best" in
  StronglySorted (fun a b => (relevance_score b <= relevance_score a)%Q) merged /\
  exists left_out,
    Permutation all_results (merged ++ left_out) /\
    forall a b, In a merged -> In b left_out ->
                (relevance_score b <= relevance_score a)%Q.
Proof.
  intros Hk merged.
  set (l := sorted_desc relevance_score all_results).
  assert (Hm : merged = take (Z.to_nat k) l).
  { unfold merged, _merge_results. cbn.
    destruct all_results as [|r rest]; [symmetry; apply take_nil|].
    now apply slice_to_nonneg. }
  pose proof (sorted_desc_descending relevance_score all_results) as Hs. fold l in Hs.
  rewrite <- (take_drop (Z.to_nat k) l) in Hs. rewrite Hm.
  apply StronglySorted_app_parts in Hs as [Hs Hrest].
  split; [exact Hs|].
  exists (drop (Z.to_nat k) l). split.
  - rewrite take_drop. apply sorted_desc_perm.
  - exact Hrest.
Qed.

Lemma best_returns_the_highest_scores_in_descending_order_witness :
  let merged := _merge_results [b1; a2; a1; a3] 2 "best" in
  StronglySorted (fun a b => (relevance_score b <= relevance_score a)%Q) merged /\
  exists left_out,
    Permutation [b1; a2; a1; a3] (merged ++ left_out) /\
    forall a b, In a merged -> In b left_out ->
                (relevance_score b <= relevance_score a)%Q.
Proof.
  apply (best_returns_the_highest_scores_in_descending_order [b1; a2; a1; a3] 2). lia.
Defined.

Example best_sample : _merge_results [b1; a2; a1; a3] 2 "best" = [a1; a2].
Proof. vm_compute. reflexivity. Qed.

(** *** The interleave strategy *)

Lemma bucket_head all name :
  name ∈ map collection_name all ->
  exists r, bucket all name !! 0 = Some r /\ collection_name r = name.
Proof.
  induction all as [|x all IH]; cbn; intros H; [now apply elem_of_nil in H|].
  unfold bucket. cbn. destruct (String.eqb_spec (collection_name x) name) as [E|E].
  - exists x. now split.
  - apply elem_of_cons in H as [H|H]; [congruence|]. exact (IH H).
Qed.

Lemma round_length all i : length (round all i) <= length (collections_seen all).
Proof.
  unfold round. induction (collections_seen all) as [|c cs IH]; cbn; [lia|].
  rewrite length_app. destruct (bucket all c !! i); cbn; lia.
Qed.

(** X14. With any strategy other than "best", when the result count is
    at least the number of distinct collections among the results, the
    merged list contains, for every collection that contributed, the
    first result that collection contributed. *)
Theorem interleave_shows_every_collection
        (all_results : list QueryResult) (k : Z) (strategy name : string) :
  strategy <> "best"%string ->
  (Z.of_nat (length (collections_seen all_results)) <= k)%Z ->
  name ∈ map collection_name all_results ->
  exists r,
    bucket all_results name !! 0 = Some r /\
    collection_name r = name /\
    In r (_merge_results all_results k strategy).
Proof.
  intros Hs Hk Hname. apply String.eqb_neq in Hs.
  destruct (bucket_head _ _ Hname) as (r & Hr & Hn).
  exists r. split; [exact Hr|]. split; [exact Hn|].
  rewrite (interleave_closed_form _ _ _ Hs).
  destruct all_results as [|x rest]; [now apply elem_of_nil in Hname|].
  unfold round_robin. cbn [length seq flat_map].
  set (all := x :: rest) in *.
  pose proof (round_length all 0) as Hlen.
  rewrite firstn_app. apply in_or_app. left.
  rewrite firstn_all2 by lia.
  unfold round. apply in_flat_map. exists name. split.
  - apply list_elem_of_In. now apply elem_of_first_seen.
  - rewrite Hr. now left.
Qed.

Lemma interleave_shows_every_collection_witness :
  exists r,
    bucket [a1; a2; a3; b1] "B" !! 0 = Some r /\
    collection_name r = "B"%string /\
    In r (_merge_results [a1; a2; a3; b1] 2 "interleave").
Proof.
  apply (interleave_shows_every_collection [a1; a2; a3; b1] 2 "interleave" "B").
  - discriminate.
  - vm_compute. discriminate.
  - apply list_elem_of_In. cbn. do 3 right. now left.
Defined.

(** X15. A result count of 0 or less does not empty an interleaved
    merge: with any strategy other than "best" exactly the first result
    is returned, where "best" with count 0 returns nothing. *)
Theorem interleave_returns_first_result_for_nonpositive_count
        (r : QueryResult) (rest : list QueryResult) (k : Z) (strategy : string) :
  strategy <> "best"%string ->
  (k <= 0)%Z ->
  _merge_results (r :: rest) k strategy = [r] /\
  _merge_results (r :: rest) 0 "best" = [].
Proof.
  intros Hs Hk. apply String.eqb_neq in Hs. split.
  - rewrite (interleave_closed_form _ _ _ Hs).
    replace (Z.to_nat (Z.max 1 k)) with 1 by lia.
    destruct (round_robin_head r rest) as [t ->]. reflexivity.
  - unfold _merge_results. cbn [String.eqb]. vm_compute String.eqb. reflexivity.
Qed.

Lemma interleave_returns_first_result_for_nonpositive_count_witness :
  _merge_results (a1 :: [a2; b1]) 0 "interleave" = [a1] /\
  _merge_results (a1 :: [a2; b1]) 0 "best" = [].
Proof.
  apply (interleave_returns_first_result_for_nonpositive_count a1 [a2; b1] 0 "interleave").
  - discriminate.
  - lia.
Defined.

End MergeLaws.

(** ** The engine and its cache *)

Module EngineLaws.
Import Py PyFacts Tokenizer Fusion Engine MergeFacts EngineFacts.

(** *** What the tasks leave in the cache *)

Lemma cache_after_lookup env cache n name :
  cache_after env cache n !! name
  = if decide (name = n) then retrieved env cache n else cache !! name.
Proof.
  unfold cache_after. destruct (cache !! n) as [l|] eqn:E.
  - destruct (decide (name = n)) as [->|]; [|reflexivity].
    unfold retrieved. now rewrite E.
  - destruct (retrieved env cache n) as [l|] eqn:Er.
    + destruct (decide (name = n)) as [->|Hne].
      * apply lookup_insert_eq.
      * now apply lookup_insert_ne.
    + destruct (decide (name = n)) as [->|]; [exact E|reflexivity].
Qed.

Lemma retrieved_agree env c1 c2 name :
  c1 !! name = c2 !! name \/ c1 !! name = retrieved env c2 name ->
  retrieved env c1 name = retrieved env c2 name.
Proof.
  intros [E|E].
  - unfold retrieved. now rewrite E.
  - unfold retrieved in *. destruct (c2 !! name) eqn:E2.
    + now rewrite E.
    + destruct (c1 !! name) eqn:E1; [exact E|reflexivity].
Qed.

Lemma warmed_refl env cache : warmed env cache cache.
Proof. intros name. now left. Qed.

Lemma cache_after_warmed env c1 c2 n :
  warmed env c2 c1 -> warmed env (cache_after env c2 n) (cache_after env c1 n).
Proof.
  intros H name. rewrite !cache_after_lookup.
  destruct (decide (name = n)) as [->|Hne].
  - left. apply retrieved_agree, H.
  - destruct (H name) as [E|E]; [now left|]. right. rewrite E. symmetry.
    apply retrieved_agree. left. rewrite cache_after_lookup.
    now destruct (decide (name = n)).
Qed.

Lemma unfiltered_agree env names : forall c1 c2,
  warmed env c2 c1 -> unfiltered env c1 names = unfiltered env c2 names.
Proof.
  induction names as [|n rest IH]; intros c1 c2 H; [reflexivity|].
  cbn [unfiltered]. rewrite (retrieved_agree env c1 c2 n (H n)).
  rewrite (IH _ _ (cache_after_warmed env c1 c2 n H)). reflexivity.
Qed.

(** The cache after the tasks of [names]: the entry of a target is what
    its retrieval delivered, the others are untouched. *)
Lemma gather_cache_lookup env m names : forall cache name,
  snd (gather env cache names m) !! name
  = if bool_decide (name ∈ names) then retrieved env cache name else cache !! name.
Proof.
  induction names as [|n rest IH]; intros cache name; [reflexivity|].
  cbn [gather]. destruct (task_spec env cache n m) as (o & E & _). rewrite E.
  specialize (IH (cache_after env cache n) name).
  destruct (gather env (cache_after env cache n) rest m) as [rs c2]. cbn [snd] in *.
  rewrite IH. rewrite cache_after_lookup.
  assert (Hr : retrieved env (cache_after env cache n) name = retrieved env cache name).
  { apply retrieved_agree. rewrite cache_after_lookup.
    destruct (decide (name = n)) as [->|]; [now right|now left]. }
  rewrite Hr. destruct (decide (name = n)) as [->|Hne].
  - rewrite (bool_decide_eq_true_2 (n ∈ n :: rest)) by (apply elem_of_cons; now left).
    now case_bool_decide.
  - rewrite (bool_decide_ext (name ∈ n :: rest) (name ∈ rest)); [reflexivity|].
    rewrite elem_of_cons. tauto.
Qed.

(** X16. With client and embeddings in place and explicit targets, a
    query leaves a cache from which the same targets, queried again with
    the same result count but any relevance floor and merge strategy, are
    answered exactly as they would have been without the first query; and
    the second query leaves that cache as it found it. *)
Theorem second_query_is_answered_as_the_first_would_be
        (env : Collaborators) (cache : QueryCache) (names : list string)
        (config config' : QueryConfig) :
  has_client env = true ->
  has_embeddings env = true ->
  names <> [] ->
  n_results config' = n_results config ->
  let cache1 := snd (query env cache (Some names) config) in
  fst (query env cache1 (Some names) config') = fst (query env cache (Some names) config') /\
  snd (query env cache1 (Some names) config') = cache1.
Proof.
  intros Hc He Hne _ cache1. unfold cache1.
  rewrite !(query_targets env _ names _ Hc He Hne). cbn [fst snd].
  set (c1 := snd (gather env cache names (min_relevance config))).
  assert (Hw : warmed env cache c1).
  { intros name. unfold c1. rewrite gather_cache_lookup.
    case_bool_decide; [now right|now left]. }
  split.
  - rewrite !gather_unfiltered. now rewrite (unfiltered_agree env names c1 cache Hw).
  - apply map_eq. intros name. rewrite gather_cache_lookup.
    case_bool_decide as Hin; [|reflexivity].
    rewrite (retrieved_agree env c1 cache name (Hw name)).
    unfold c1. rewrite gather_cache_lookup. now rewrite bool_decide_eq_true_2.
Qed.

Lemma second_query_is_answered_as_the_first_would_be_witness :
  let config' := {| n_results := 2; min_relevance := 0; merge_strategy := "best" |} in
  let cache1 := snd (query two_collections ∅ (Some ["A"; "B"]%string) floor_config) in
  fst (query two_collections cache1 (Some ["A"; "B"]%string) config')
  = fst (query two_collections ∅ (Some ["A"; "B"]%string) config') /\
  snd (query two_collections cache1 (Some ["A"; "B"]%string) config') = cache1.
Proof.
  apply (second_query_is_answered_as_the_first_would_be
           two_collections ∅ ["A"; "B"]%string floor_config
           {| n_results := 2; min_relevance := 0; merge_strategy := "best" |});
    [reflexivity|reflexivity|discriminate|reflexivity].
Defined.

(** *** What the engine puts into a result *)

Lemma of_node_made name nws : engine_made name (of_node name nws).
Proof.
  unfold engine_made, of_node. cbn. repeat split.
  destruct (retriever_contributions (node nws)) as [c|]; [|discriminate].
  destruct (c !! 1); discriminate.
Qed.

Lemma of_hit_made name h : engine_made name (of_hit name h).
Proof. unfold engine_made, of_hit. cbn. repeat split. discriminate. Qed.

Lemma vector_only_made env name l :
  vector_only env name = Returned l -> Forall (engine_made name) l.
Proof.
  unfold vector_only, mbind, outcome_bind, Py.bind.
  destruct (get_collection env name) as [c|]; [|discriminate].
  destruct (count c =? 0); [discriminate|].
  destruct (embed env); [|discriminate].
  destruct (query_by_vector c) as [hits|]; [|discriminate].
  intros [= <-]. apply List.Forall_forall. intros r Hr.
  apply in_map_iff in Hr as (h & <- & _). apply of_hit_made.
Qed.

Lemma retrieved_made env cache name l :
  engine_filled cache -> retrieved env cache name = Some l ->
  Forall (engine_made name) l.
Proof.
  intros Hf. unfold retrieved. destruct (cache !! name) as [c|] eqn:E.
  - intros [= <-]. exact (Hf name c E).
  - destruct (hybrid_retrieve env name) as [raw|e].
    + intros [= <-]. apply List.Forall_forall. intros r Hr.
      apply in_map_iff in Hr as (h & <- & _). apply of_node_made.
    + destruct (vector_only env name) as [q|] eqn:Ev;
        destruct e; intros [= <-]; exact (vector_only_made env name _ Ev).
Qed.

Lemma cache_after_filled env cache n :
  engine_filled cache -> engine_filled (cache_after env cache n).
Proof.
  intros Hf name l. rewrite cache_after_lookup.
  destruct (decide (name = n)) as [->|]; [apply (retrieved_made env cache n l Hf)|apply Hf].
Qed.

Lemma unfiltered_made env names : forall cache l,
  engine_filled cache -> In l (unfiltered env cache names) ->
  exists name, name ∈ names /\ Forall (engine_made name) l.
Proof.
  induction names as [|n rest IH]; intros cache l Hf Hl; [contradiction|].
  cbn [unfiltered] in Hl.
  assert (Hrest : In l (unfiltered env (cache_after env cache n) rest) ->
                  exists name, name ∈ n :: rest /\ Forall (engine_made name) l).
  { intros H. destruct (IH _ _ (cache_after_filled env cache n Hf) H) as (name & Hin & Hm).
    exists name. split; [apply elem_of_cons; now right|exact Hm]. }
  destruct (retrieved env cache n) as [l0|] eqn:Er; [|now apply Hrest].
  destruct Hl as [<-|Hl]; [|now apply Hrest].
  exists n. split; [apply elem_of_cons; now left|].
  exact (retrieved_made env cache n l0 Hf Er).
Qed.

Lemma gather_filled env m names : forall cache,
  engine_filled cache -> engine_filled (snd (gather env cache names m)).
Proof.
  intros cache Hf name l. rewrite gather_cache_lookup.
  case_bool_decide; [apply (retrieved_made env cache name l Hf)|apply Hf].
Qed.

(** X17. Starting from a cache the engine filled itself (the empty one
    in particular), every result a query with explicit targets returns is
    labelled with one of the targets, is never of source type "bm25",
    has its base relevance equal to its relevance score and a keyword
    boost of 0; and the cache it leaves is again one the engine filled. *)
Theorem results_are_labelled_with_a_target_and_never_bm25
        (env : Collaborators) (cache : QueryCache) (names : list string)
        (config : QueryConfig) :
  has_client env = true ->
  has_embeddings env = true ->
  names <> [] ->
  engine_filled cache ->
  exists out,
    fst (query env cache (Some names) config) = Returned out /\
    Forall (fun r => exists name, name ∈ names /\ engine_made name r) out /\
    engine_filled (snd (query env cache (Some names) config)).
Proof.
  intros Hc He Hne Hf. rewrite (query_targets env cache names config Hc He Hne).
  cbn [fst snd]. eexists. split; [reflexivity|]. split.
  - apply List.Forall_forall. intros r Hr. apply merge_results_incl in Hr.
    rewrite gather_unfiltered in Hr. apply in_flat_map in Hr as (l & Hl & Hr).
    apply List.filter_In in Hr as [Hr _].
    destruct (unfiltered_made env names cache l Hf Hl) as (name & Hin & Hm).
    exists name. split; [exact Hin|].
    rewrite List.Forall_forall in Hm. now apply Hm.
  - now apply gather_filled.
Qed.

Lemma results_are_labelled_with_a_target_and_never_bm25_witness :
  exists out,
    fst (query two_collections ∅ (Some ["A"; "B"]%string) floor_config) = Returned out /\
    Forall (fun r => exists name, name ∈ ["A"; "B"]%string /\ engine_made name r) out /\
    engine_filled (snd (query two_collections ∅ (Some ["A"; "B"]%string) floor_config)).
Proof.
  apply (results_are_labelled_with_a_target_and_never_bm25
           two_collections ∅ ["A"; "B"]%string floor_config);
    [reflexivity|reflexivity|discriminate|].
  intros name l H. rewrite lookup_empty in H. discriminate.
Defined.

(** *** A failing target among the targets *)

Lemma cache_after_stays_warmed env start cache n :
  warmed env start cache -> warmed env start (cache_after env cache n).
Proof.
  intros H name. rewrite cache_after_lookup.
  destruct (decide (name = n)) as [->|Hne]; [|apply H].
  right. apply retrieved_agree, H.
Qed.

(** The lists the tasks deliver are the lists the targets' retrievals
    deliver from the cache the query started with. *)
Lemma unfiltered_retrieved env start names : forall cache l,
  warmed env start cache ->
  (In l (unfiltered env cache names) <->
   exists name, name ∈ names /\ retrieved env start name = Some l).
Proof.
  induction names as [|n rest IH]; intros cache l Hw.
  - cbn. split; [contradiction|]. intros (name & Hin & _). now apply elem_of_nil in Hin.
  - cbn [unfiltered].
    pose proof (retrieved_agree env cache start n (Hw n)) as Hn.
    specialize (IH (cache_after env cache n) l (cache_after_stays_warmed env start cache n Hw)).
    rewrite Hn. destruct (retrieved env start n) as [l0|] eqn:Er.
    + cbn [In]. rewrite IH. split.
      * intros [<-|(name & Hin & Hr)].
        -- exists n. split; [apply elem_of_cons; now left | exact Er].
        -- exists name. split; [apply elem_of_cons; now right | exact Hr].
      * intros (name & Hin & Hr). apply elem_of_cons in Hin as [->|Hin].
        -- left. congruence.
        -- right. exists name. auto.
    + rewrite IH. split.
      * intros (name & Hin & Hr). exists name. split; [apply elem_of_cons; now right | exact Hr].
      * intros (name & Hin & Hr). apply elem_of_cons in Hin as [->|Hin]; [congruence|].
        exists name. auto.
Qed.

(** C4. With client and embeddings in place, a target collection whose
    retrieval fails -- not found, empty, or an exception followed by a
    failed fallback -- does not make [query] raise and contributes
    nothing.  The call returns the merge of the results of the other
    targets: a result is handed to the merge exactly when some other
    target's retrieval succeeded and delivered it with a relevance that
    meets the floor; every result returned is one of these, and all of
    them are returned when the result count leaves room for them.  List
    and cache are those of the query without the failing target. *)
Theorem failed_collection_is_skipped
        (env : Collaborators) (cache : QueryCache)
        (before : list string) (bad : string) (after : list string)
        (config : QueryConfig) :
  has_client env = true ->
  has_embeddings env = true ->
  failed env (snd (gather env cache before (min_relevance config))) bad = true ->
  exists out delivered,
    fst (query env cache (Some (before ++ bad :: after)) config) = Returned out /\
    out = _merge_results delivered (n_results config) (merge_strategy config) /\
    delivered = flat_map (List.filter (meets (min_relevance config)))
                         (unfiltered env cache (before ++ after)) /\
    (forall r, In r delivered <->
       exists name l, name ∈ before ++ after /\
                      retrieved env cache name = Some l /\
                      In r l /\ (min_relevance config <= relevance_score r)%Q) /\
    (forall r, In r out -> In r delivered) /\
    ((Z.of_nat (length delivered) <= n_results config)%Z -> Permutation out delivered) /\
    (before ++ after <> [] ->
     query env cache (Some (before ++ bad :: after)) config
     = query env cache (Some (before ++ after)) config).
Proof.
  intros Hc He Hbad.
  destruct (query_without_failed_target env cache before bad after config Hc He Hbad)
    as (out & Hout & Hmerge & Hsame).
  rewrite gather_unfiltered in Hmerge.
  exists out. eexists. split; [exact Hout|]. split; [exact Hmerge|].
  split; [reflexivity|]. split; [|split; [|split]].
  - intros r. rewrite in_flat_map. split.
    + intros (l & Hl & Hr). apply List.filter_In in Hr as [Hr Hm].
      apply (unfiltered_retrieved env cache _ cache l (warmed_refl env cache)) in Hl
        as (name & Hin & Hret).
      exists name, l. repeat split; try assumption. now apply meets_spec.
    + intros (name & l & Hin & Hret & Hr & Hm). exists l. split.
      * apply (unfiltered_retrieved env cache _ cache l (warmed_refl env cache)).
        exists name. auto.
      * apply List.filter_In. split; [exact Hr | now apply meets_spec].
  - intros r Hr. rewrite Hmerge in Hr. now apply merge_results_incl in Hr.
  - intros Hroom. rewrite Hmerge. now apply MergeLaws.merge_keeps_all_when_room.
  - exact Hsame.
Qed.

Lemma failed_collection_is_skipped_witness :
  exists out delivered,
    fst (query two_collections ∅ (Some (["A"%string] ++ "missing"%string :: ["B"%string]))
               default_config) = Returned out /\
    out = _merge_results delivered 5 "interleave" /\
    delivered = flat_map (List.filter (meets 0))
                         (unfiltered two_collections ∅ (["A"%string] ++ ["B"%string])) /\
    (forall r, In r delivered <->
       exists name l, name ∈ ["A"%string] ++ ["B"%string] /\
                      retrieved two_collections ∅ name = Some l /\
                      In r l /\ (0 <= relevance_score r)%Q) /\
    (forall r, In r out -> In r delivered) /\
    ((Z.of_nat (length delivered) <= 5)%Z -> Permutation out delivered) /\
    ((["A"%string] ++ ["B"%string]) <> [] ->
     query two_collections ∅ (Some (["A"%string] ++ "missing"%string :: ["B"%string]))
           default_config
     = query two_collections ∅ (Some (["A"%string] ++ ["B"%string])) default_config).
Proof.
  apply (failed_collection_is_skipped
           two_collections ∅ ["A"%string] "missing" ["B"%string] default_config);
    [reflexivity | reflexivity | vm_compute; reflexivity].
Defined.

End EngineLaws.

(** ** The search endpoint: score blending *)

Module SearchLaws.
Import Py PyFacts Tokenizer Search.

Local Open Scope Q_scope.

(** *** Comparisons, maximum and minimum *)

Lemma gt_true x y : gt x y = true <-> y < x.
Proof.
  unfold gt. rewrite negb_true_iff. split.
  - intros H. apply Qnot_le_lt. intros Hle. apply Qle_bool_iff in Hle. congruence.
  - intros H. destruct (Qle_bool x y) eqn:E; [|reflexivity].
    apply Qle_bool_iff in E. lra.
Qed.

Lemma gt_false x y : gt x y = false <-> x <= y.
Proof.
  unfold gt. rewrite negb_false_iff. apply Qle_bool_iff.
Qed.

Lemma fold_max t : forall x,
  let m := fold_left (fun m y => if gt y m then y else m) t x in
  (m = x \/ In m t) /\ x <= m /\ forall y, In y t -> y <= m.
Proof.
  induction t as [|y t IH]; intros x; cbn.
  - split; [now left|]. split; [lra|]. intros y [].
  - destruct (IH (if gt y x then y else x)) as (Hin & Hle & Hall).
    destruct (gt y x) eqn:E.
    + apply gt_true in E. split; [destruct Hin; auto|]. split; [lra|].
      intros z [<-|Hz]; [exact Hle|now apply Hall].
    + apply gt_false in E. split; [destruct Hin; auto|]. split; [exact Hle|].
      intros z [<-|Hz]; [lra|now apply Hall].
Qed.

Lemma fold_min t : forall x,
  let m := fold_left (fun m y => if gt m y then y else m) t x in
  (m = x \/ In m t) /\ m <= x /\ forall y, In y t -> m <= y.
Proof.
  induction t as [|y t IH]; intros x; cbn.
  - split; [now left|]. split; [lra|]. intros y [].
  - destruct (IH (if gt x y then y else x)) as (Hin & Hle & Hall).
    destruct (gt x y) eqn:E.
    + apply gt_true in E. split; [destruct Hin; auto|]. split; [lra|].
      intros z [<-|Hz]; [exact Hle|now apply Hall].
    + apply gt_false in E. split; [destruct Hin; auto|]. split; [exact Hle|].
      intros z [<-|Hz]; [lra|now apply Hall].
Qed.

Lemma max_of_spec d l :
  l <> [] -> In (max_of d l) l /\ forall y, In y l -> y <= max_of d l.
Proof.
  destruct l as [|x t]; [congruence|]. intros _. unfold max_of.
  destruct (fold_max t x) as (Hin & Hle & Hall). split.
  - destruct Hin as [->|Hin]; [now left|now right].
  - intros y [<-|Hy]; [exact Hle|now apply Hall].
Qed.

Lemma min_of_spec d l :
  l <> [] -> In (min_of d l) l /\ forall y, In y l -> min_of d l <= y.
Proof.
  destruct l as [|x t]; [congruence|]. intros _. unfold min_of.
  destruct (fold_min t x) as (Hin & Hle & Hall). split.
  - destruct Hin as [->|Hin]; [now left|now right].
  - intros y [<-|Hy]; [exact Hle|now apply Hall].
Qed.

(** *** Normalisation *)

Lemma normalise_bounds lo hi x :
  lo <= x -> x <= hi -> 0 <= normalise lo hi x /\ normalise lo hi x <= 1.
Proof.
  intros Hlo Hhi. unfold normalise. destruct (gt hi lo) eqn:E.
  - apply gt_true in E. split.
    + apply Qle_shift_div_l; lra.
    + apply Qle_shift_div_r; lra.
  - destruct (gt x 0); lra.
Qed.

Lemma normalise_top lo hi x : lo < hi -> x == hi -> normalise lo hi x == 1.
Proof.
  intros H Hx. unfold normalise. rewrite (proj2 (gt_true hi lo) H).
  rewrite Hx. field. lra.
Qed.

Lemma normalise_bottom lo hi x : lo < hi -> x == lo -> normalise lo hi x == 0.
Proof.
  intros H Hx. unfold normalise. rewrite (proj2 (gt_true hi lo) H).
  rewrite Hx. field. lra.
Qed.

Lemma score_candidate_bounds lv hv lb hb c :
  lv <= vector_score c -> vector_score c <= hv ->
  lb <= bm25_score c -> bm25_score c <= hb ->
  let r := score_candidate lv hv lb hb c in
  (0 <= relevance_score r /\ relevance_score r <= 1) /\
  distance r = 1 - relevance_score r /\
  (0 <= distance r /\ distance r <= 1).
Proof.
  intros H1 H2 H3 H4. cbn.
  destruct (normalise_bounds lv hv (vector_score c) H1 H2).
  destruct (normalise_bounds lb hb (bm25_score c) H3 H4).
  repeat split; lra.
Qed.

Lemma score_collection_bounds combined :
  Forall (fun r => (0 <= relevance_score r /\ relevance_score r <= 1) /\
                   distance r = 1 - relevance_score r /\
                   (0 <= distance r /\ distance r <= 1))
         (score_collection combined).
Proof.
  unfold score_collection. destruct combined as [|kv t]; [constructor|].
  set (d := kv :: t).
  assert (Hv : map (fun kv => vector_score (snd kv)) d <> []) by discriminate.
  assert (Hb : map (fun kv => bm25_score (snd kv)) d <> []) by discriminate.
  apply List.Forall_forall. intros r Hr. apply in_map_iff in Hr as (kv' & <- & Hin).
  apply score_candidate_bounds.
  - apply (min_of_spec 0 _ Hv).
    apply (in_map (fun kv => vector_score (snd kv)) d kv' Hin).
  - apply (max_of_spec 1 _ Hv).
    apply (in_map (fun kv => vector_score (snd kv)) d kv' Hin).
  - apply (min_of_spec 0 _ Hb).
    apply (in_map (fun kv => bm25_score (snd kv)) d kv' Hin).
  - apply (max_of_spec 1 _ Hb).
    apply (in_map (fun kv => bm25_score (snd kv)) d kv' Hin).
Qed.

Lemma slice_to_is_take {A} (l : list A) (n : Z) : exists m, slice_to l n = take m l.
Proof. unfold slice_to. destruct (0 <=? n)%Z; eauto. Qed.

(** X18. Whatever the vector store, the lexical index and the scoring
    library answer, every document of a search response has a relevance
    score between 0 and 1 and a distance of one minus that score, hence
    between 0 and 1 as well -- also when the store reports distances
    above 1 -- and the documents are in descending relevance. *)
Theorem search_scores_lie_in_unit_interval_and_descend
        (get_scores : list (list str) -> list str -> Outcome (list Q))
        (get_collection : string -> Outcome (option CollectionState))
        (collection_names : list string) (query : str) (k : Z) :
  let documents := ranked_nodes get_scores get_collection collection_names query k in
  Forall (fun r => (0 <= relevance_score r /\ relevance_score r <= 1) /\
                   distance r = 1 - relevance_score r /\
                   (0 <= distance r /\ distance r <= 1)) documents /\
  StronglySorted (fun a b => relevance_score b <= relevance_score a) documents.
Proof.
  intros documents. unfold documents, ranked_nodes.
  set (all := all_results get_scores get_collection collection_names query k).
  split.
  - apply List.Forall_forall. intros r Hr.
    apply slice_to_incl in Hr. apply sorted_desc_In in Hr.
    unfold all, all_results in Hr. apply in_flat_map in Hr as (name & _ & Hr).
    unfold search_collection in Hr.
    destruct (get_collection name) as [[collection|]|]; try contradiction.
    destruct (vector_query collection) as [vector_results|]; [|contradiction].
    pose proof (score_collection_bounds
                  (combine name vector_results
                           (bm25_search get_scores (index_file collection) query k))) as Hb.
    rewrite List.Forall_forall in Hb. now apply Hb.
  - destruct (slice_to_is_take (sorted_desc relevance_score all) k) as [m ->].
    pose proof (MergeLaws.sorted_desc_descending relevance_score all) as Hs.
    rewrite <- (take_drop m) in Hs.
    now apply MergeLaws.StronglySorted_app_parts in Hs as [Hs _].
Qed.

Example search_distant_hits :
  Forall2 Qeq
    (map relevance_score
         (ranked_nodes no_scores (fun _ => Returned (Some distant_hits))
                       ["A"%string] (lit "q") 5))
    [1 # 2; 0].
Proof. repeat constructor. Qed.

(** X19. Scores are relative to the collection: when the candidates of
    one collection do not all have the same vector score, every
    candidate with the highest vector score gets a relevance of at least
    one half and every candidate with the lowest gets at most one half,
    however near or far they are; and a candidate with the highest
    vector score exists. *)
Theorem nearest_candidate_of_a_collection_scores_at_least_half (combined : Combined) :
  let vector_scores := map (fun kv => vector_score (snd kv)) combined in
  combined <> [] ->
  min_of 0 vector_scores < max_of 1 vector_scores ->
  (forall r, In r (score_collection combined) ->
             vector_score (candidate r) == max_of 1 vector_scores ->
             1 # 2 <= relevance_score r) /\
  (forall r, In r (score_collection combined) ->
             vector_score (candidate r) == min_of 0 vector_scores ->
             relevance_score r <= 1 # 2) /\
  (exists r, In r (score_collection combined) /\
             vector_score (candidate r) = max_of 1 vector_scores).
Proof.
  intros vector_scores Hne Hlt. unfold score_collection.
  destruct combined as [|kv t]; [congruence|].
  set (d := kv :: t) in *.
  assert (Hv : vector_scores <> []) by discriminate.
  assert (Hb : map (fun kv => bm25_score (snd kv)) d <> []) by discriminate.
  fold vector_scores.
  set (lo := min_of 0 vector_scores) in *. set (hi := max_of 1 vector_scores) in *.
  assert (Hnb : forall kv', In kv' d ->
            0 <= normalise (min_of 0 (map (fun kv => bm25_score (snd kv)) d))
                           (max_of 1 (map (fun kv => bm25_score (snd kv)) d))
                           (bm25_score (snd kv')) <= 1).
  { intros kv' Hin. apply normalise_bounds.
    - apply (min_of_spec 0 _ Hb).
      apply (in_map (fun kv => bm25_score (snd kv)) d kv' Hin).
    - apply (max_of_spec 1 _ Hb).
      apply (in_map (fun kv => bm25_score (snd kv)) d kv' Hin). }
  split; [|split].
  - intros r Hr Hmax. apply in_map_iff in Hr as (kv' & <- & Hin).
    cbn [score_candidate relevance_score candidate] in *. specialize (Hnb kv' Hin).
    rewrite (normalise_top lo hi _ Hlt Hmax). lra.
  - intros r Hr Hmin. apply in_map_iff in Hr as (kv' & <- & Hin).
    cbn [score_candidate relevance_score candidate] in *. specialize (Hnb kv' Hin).
    rewrite (normalise_bottom lo hi _ Hlt Hmin). lra.
  - destruct (max_of_spec 1 vector_scores Hv) as [Hin _]. fold hi in Hin.
    unfold vector_scores in Hin. apply in_map_iff in Hin as (kv' & E & Hin).
    eexists. split; [apply in_map_iff; exists kv'; split; [reflexivity|exact Hin]|].
    exact E.
Qed.

Lemma nearest_candidate_of_a_collection_scores_at_least_half_witness :
  (forall r, In r (score_collection near_and_far) ->
             vector_score (candidate r)
             == max_of 1 (map (fun kv => vector_score (snd kv)) near_and_far) ->
             1 # 2 <= relevance_score r) /\
  (forall r, In r (score_collection near_and_far) ->
             vector_score (candidate r)
             == min_of 0 (map (fun kv => vector_score (snd kv)) near_and_far) ->
             relevance_score r <= 1 # 2) /\
  (exists r, In r (score_collection near_and_far) /\
             vector_score (candidate r)
             = max_of 1 (map (fun kv => vector_score (snd kv)) near_and_far)).
Proof.
  apply (nearest_candidate_of_a_collection_scores_at_least_half near_and_far);
    [discriminate|vm_compute; reflexivity].
Defined.

(** X20. A collection that answers a single vector hit and no lexical
    hit gives that document a relevance of exactly one half when its
    distance is below 1 and of 0 otherwise: the size of the distance
    plays no part. *)
Theorem single_vector_hit_scores_half_or_nothing
        (get_scores : list (list str) -> list str -> Outcome (list Q))
        (name : string) (collection : CollectionState)
        (doc : str) (d : Q) (doc_id : string) (query : str) (k : Z) :
  vector_query collection
  = Returned {| docs := [doc]; distances := [d]; ids := [doc_id] |} ->
  bm25_search get_scores (index_file collection) query k = [] ->
  exists r,
    search_collection get_scores name (Returned (Some collection)) query k = [r] /\
    content (candidate r) = doc /\
    relevance_score r == (if gt 1 d then 1 # 2 else 0).
Proof.
  intros Hv Hb. unfold search_collection. rewrite Hv, Hb.
  change (combine name {| docs := [doc]; distances := [d]; ids := [doc_id] |} [])
    with [(doc_id, {| content := doc; source_collection := name;
                      vector_score := 1 - d; bm25_score := 0 |})].
  eexists. split; [reflexivity|]. split; [reflexivity|].
  cbn [relevance_score score_candidate candidate snd vector_score bm25_score
       doc_id_at distance_at ids distances lookup list_lookup max_of min_of fold_left map].
  unfold normalise.
  rewrite (proj2 (gt_false (1 - d) (1 - d))) by lra.
  rewrite (proj2 (gt_false 0 0)) by lra.
  destruct (gt (1 - d) 0) eqn:E1; destruct (gt 1 d) eqn:E2;
    try apply gt_true in E1; try apply gt_false in E1;
    try apply gt_true in E2; try apply gt_false in E2; lra.
Qed.

Lemma single_vector_hit_scores_half_or_nothing_witness :
  exists r,
    search_collection no_scores "A" (Returned (Some single_hit)) (lit "q") 5 = [r] /\
    content (candidate r) = lit "only" /\
    relevance_score r == (if gt 1 (9 # 10) then 1 # 2 else 0).
Proof.
  apply (single_vector_hit_scores_half_or_nothing
           no_scores "A" single_hit (lit "only") (9 # 10) "o" (lit "q") 5);
    reflexivity.
Defined.

(** *** The lexical hits *)

Lemma collect_bm25_spec (P : Bm25Result -> Prop) bm25_scores nodes :
  (forall idx node, 0 < score_at bm25_scores idx -> nodes !! idx = Some node ->
      P {| b_content := BM25.text node;
           b_score := score_at bm25_scores idx;
           node_id := BM25.id_ node |}) ->
  forall idxs acc, Forall P acc -> Forall P (collect_bm25 bm25_scores nodes idxs acc).
Proof.
  intros HP. induction idxs as [|idx rest IH]; intros acc Hacc; [exact Hacc|].
  cbn [collect_bm25]. destruct (gt (score_at bm25_scores idx) 0) eqn:E; [|now apply IH].
  apply gt_true in E. destruct (nodes !! idx) as [node|] eqn:En; [|exact Hacc].
  apply IH. apply Forall_app. split; [exact Hacc|].
  apply Forall_cons. split; [|constructor]. now apply HP.
Qed.

(** X21. The lexical side of a search contributes only documents of
    the index file saved for the collection, each with its identifier,
    its text and a score above 0; without a readable file holding an
    index it contributes nothing. *)
Theorem lexical_hits_come_from_the_saved_index_with_positive_scores
        (get_scores : list (list str) -> list str -> Outcome (list Q))
        (file : BM25.IndexFile) (query : str) (k : Z) :
  Forall (fun r => 0 < b_score r /\
                   exists data node,
                     file = BM25.Pickled data /\
                     In node (BM25.nodes data) /\
                     node_id r = BM25.id_ node /\
                     b_content r = BM25.text node)
         (bm25_search get_scores file query k) /\
  bm25_search get_scores BM25.Absent query k = [] /\
  bm25_search get_scores BM25.Unreadable query k = [].
Proof.
  split; [|split; reflexivity].
  unfold bm25_search. destruct file as [| |data]; cbn [BM25.load]; try constructor.
  destruct (BM25.bm25_index data) as [corpus|]; [|constructor].
  destruct (BM25.nodes data) as [|n0 ns] eqn:En; [constructor|].
  destruct (get_scores corpus (_tokenize_text query)) as [bm25_scores|]; [|constructor].
  apply collect_bm25_spec; [|constructor].
  intros idx node Hpos Hnode. split; [exact Hpos|].
  exists data, node. split; [reflexivity|]. split; [|now split].
  rewrite En. apply list_elem_of_In. now apply list_elem_of_lookup_2 in Hnode.
Qed.

Example lexical_hits_sample :
  map node_id (bm25_search two_found saved_index (lit "beta gamma") 5) = ["z"; "y"]%string.
Proof. vm_compute. reflexivity. Qed.

End SearchLaws.
